(** * Selik vocabulary tools: the quiz (louttit.py) and the analyzer (loutwit.py)

    A shallow embedding of the two Python programs and the properties of
    their line parser, duplicate analyzer, quiz selector, quiz loop and
    persistence store. *)

From Stdlib Require Import Decimal.
From Stdlib Require DecimalFacts DecimalPos DecimalN DecimalZ.
From Stdlib Require Import String Ascii List Bool Arith NArith ZArith Lia.
From Stdlib Require Import Permutation Sorted SpecFloat.
Import ListNotations.

Set Implicit Arguments.

(** ** Python strings

    A Python [str] is a sequence of Unicode code points. *)

Definition char := N.
Definition str := list char.

Definition char_eqb (a b : char) : bool := N.eqb a b.

Fixpoint str_eqb (a b : str) : bool :=
  match a, b with
  | [], [] => true
  | x :: a', y :: b' => char_eqb x y && str_eqb a' b'
  | _, _ => false
  end.

Definition str_eq_dec (a b : str) : {a = b} + {a <> b} :=
  list_eq_dec N.eq_dec a b.

(** ** UTF-8

    A [bytes] object is a sequence of integers below 256. *)

Definition bytes := list N.

Definition is_surrogate (c : char) : bool :=
  ((0xD800 <=? c) && (c <=? 0xDFFF))%N.

(** The UTF-8 form of a code point; [None] for what the strict codec
    refuses, the surrogates. *)
Definition utf8_char (c : char) : option bytes :=
  (if c <? 0x80 then Some [c]
   else if c <? 0x800 then Some [0xC0 + c / 64; 0x80 + c mod 64]
   else if c <? 0x10000 then
     if is_surrogate c then None
     else Some [0xE0 + c / 4096; 0x80 + (c / 64) mod 64; 0x80 + c mod 64]
   else if c <? 0x110000 then
     Some [0xF0 + c / 262144; 0x80 + (c / 4096) mod 64;
           0x80 + (c / 64) mod 64; 0x80 + c mod 64]
   else None)%N.

(** [text.encode('utf-8')] *)
Fixpoint utf8_encode (s : str) : option bytes :=
  match s with
  | [] => Some []
  | c :: r =>
      match utf8_char c, utf8_encode r with
      | Some bs, Some rest => Some (bs ++ rest)
      | _, _ => None
      end
  end.

Definition is_cont (b : N) : bool := ((0x80 <=? b) && (b <=? 0xBF))%N.

(** [data.decode('utf-8')]: strict, so no overlong form, no surrogate and
    nothing above U+10FFFF. *)
Fixpoint utf8_decode (bs : bytes) : option str :=
  match bs with
  | [] => Some []
  | b :: r =>
      if (b <? 0x80)%N then
        match utf8_decode r with
        | Some s => Some (b :: s)
        | None => None
        end
      else if ((0xC2 <=? b) && (b <=? 0xDF))%N then
        match r with
        | b1 :: r1 =>
            if is_cont b1 then
              match utf8_decode r1 with
              | Some s => Some (((b - 0xC0) * 64 + (b1 - 0x80))%N :: s)
              | None => None
              end
            else None
        | _ => None
        end
      else if ((0xE0 <=? b) && (b <=? 0xEF))%N then
        match r with
        | b1 :: b2 :: r2 =>
            let c := ((b - 0xE0) * 4096 + (b1 - 0x80) * 64 + (b2 - 0x80))%N in
            if is_cont b1 && is_cont b2 && (0x800 <=? c)%N
               && negb (is_surrogate c) then
              match utf8_decode r2 with
              | Some s => Some (c :: s)
              | None => None
              end
            else None
        | _ => None
        end
      else if ((0xF0 <=? b) && (b <=? 0xF4))%N then
        match r with
        | b1 :: b2 :: b3 :: r3 =>
            let c := ((b - 0xF0) * 262144 + (b1 - 0x80) * 4096
                      + (b2 - 0x80) * 64 + (b3 - 0x80))%N in
            if is_cont b1 && is_cont b2 && is_cont b3
               && (0x10000 <=? c)%N && (c <? 0x110000)%N then
              match utf8_decode r3 with
              | Some s => Some (c :: s)
              | None => None
              end
            else None
        | _ => None
        end
      else None
  end.

(** Source literals are written as UTF-8 text and decoded to code points. *)
Definition u (s : string) : str :=
  match utf8_decode (List.map N_of_ascii (list_ascii_of_string s)) with
  | Some text => text
  | None => []
  end.

(** [str.isspace] for one code point: the characters CPython's
    [Py_UNICODE_ISSPACE] accepts.  [str.strip()], [str.split()] and the
    [\s] class of [re] on [str] patterns all use it. *)

Definition isspace (c : char) : bool :=
  ((0x09 <=? c) && (c <=? 0x0D) || (0x1C <=? c) && (c <=? 0x20)
   || (c =? 0x85) || (c =? 0xA0) || (c =? 0x1680)
   || (0x2000 <=? c) && (c <=? 0x200A)
   || (c =? 0x2028) || (c =? 0x2029) || (c =? 0x202F) || (c =? 0x205F)
   || (c =? 0x3000))%N.

Fixpoint lstrip (s : str) : str :=
  match s with
  | c :: r => if isspace c then lstrip r else s
  | [] => []
  end.

Definition rstrip (s : str) : str := rev (lstrip (rev s)).

(** [s.strip()] *)
Definition strip (s : str) : str := rstrip (lstrip s).

(** Whether a string begins, or ends, with whitespace. *)
Definition starts_ws (s : str) : bool :=
  match s with
  | c :: _ => isspace c
  | [] => false
  end.

Definition ends_ws (s : str) : bool := starts_ws (rev s).

(** [s.split()]: the maximal runs of non-whitespace characters. *)

Definition flush (cur : str) (out : list str) : list str :=
  match cur with
  | [] => out
  | _ :: _ => cur :: out
  end.

Fixpoint split_from (s : str) : str * list str :=
  match s with
  | [] => ([], [])
  | c :: r =>
      let (cur, out) := split_from r in
      if isspace c then ([], flush cur out) else (c :: cur, out)
  end.

Definition split (s : str) : list str :=
  let (cur, out) := split_from s in flush cur out.

(** [sep.join(parts)] *)
Fixpoint join (sep : str) (parts : list str) : str :=
  match parts with
  | [] => []
  | [x] => x
  | x :: r => x ++ sep ++ join sep r
  end.

(** ** Regular expressions

    Python's [re] matches by backtracking; a pattern is embedded as a
    matcher that takes the continuation for the rest of the pattern and
    returns the input left after the first successful match. *)

Definition matcher := (str -> option str) -> str -> option str.

(** Greedy [p*]: take one more character first, give it back on failure. *)
Fixpoint re_star (p : char -> bool) (k : str -> option str) (s : str)
  : option str :=
  match s with
  | c :: r =>
      if p c then
        match re_star p k r with
        | Some rest => Some rest
        | None => k s
        end
      else k s
  | [] => k s
  end.

(** [p+] is [p p*]. *)
Definition re_plus (p : char -> bool) : matcher :=
  fun k s =>
    match s with
    | c :: r => if p c then re_star p k r else None
    | [] => None
    end.

Definition re_char (ch : char) : matcher :=
  fun k s =>
    match s with
    | c :: r => if char_eqb c ch then k r else None
    | [] => None
    end.

(** A continuation, or a whole pattern, returns a suffix of its input that
    does not begin with whitespace. *)
Definition leaves_clean_suffix (k : str -> option str) : Prop :=
  forall s r, k s = Some r ->
    (exists pre, s = pre ++ r) /\ starts_ws r = false.

(** ** Python dictionaries

    A [dict] keeps its keys in insertion order, and both programs iterate
    over dictionaries, so a dictionary is an association list without
    repeated keys: assignment to a present key replaces its value in place,
    assignment to a new key appends it. *)

Section Dict.

Variables (K V : Type) (eqb : K -> K -> bool).

Definition dict := list (K * V).

(** [d.get(k)] *)
Fixpoint dict_get (d : dict) (k : K) : option V :=
  match d with
  | [] => None
  | (k', v) :: d' => if eqb k' k then Some v else dict_get d' k
  end.

(** [d[k] = v] *)
Fixpoint dict_set (d : dict) (k : K) (v : V) : dict :=
  match d with
  | [] => [(k, v)]
  | (k', v') :: d' =>
      if eqb k' k then (k', v) :: d' else (k', v') :: dict_set d' k v
  end.

Definition dict_keys (d : dict) : list K := List.map fst d.

End Dict.

(** [d[k].append(x)] on a [defaultdict(list)] *)
Definition dict_append (K V : Type) (eqb : K -> K -> bool)
    (d : dict K (list V)) (k : K) (x : V) : dict K (list V) :=
  match dict_get eqb d k with
  | Some xs => dict_set eqb d k (xs ++ [x])
  | None => dict_set eqb d k [x]
  end.

(** Appending every element to the list stored under its key, as the two
    loops of [analyze] do, and the elements of a list that carry a key. *)

Section Group.

Variables (K E : Type) (eqb : K -> K -> bool) (key : E -> K).

Definition group_by (es : list E) (d : dict K (list E)) : dict K (list E) :=
  fold_left (fun d e => dict_append eqb d (key e) e) es d.

Definition with_key (k : K) (es : list E) : list E :=
  filter (fun e => eqb (key e) k) es.

Definition stored (d : dict K (list E)) (k : K) : list E :=
  match dict_get eqb d k with
  | Some xs => xs
  | None => []
  end.

End Group.

(** ** The Unicode tables of the runtime

    Which code points are decimal digits (the [\d] class of [re]) and how
    [str.lower()] maps a string depend on the Unicode database the
    interpreter was built with.  They are taken as an interface; its laws
    are the facts every version satisfies that the programs rely on. *)

Definition is_ascii (c : char) : bool := (c <? 0x80)%N.

Definition ascii_lower (c : char) : char :=
  if ((0x41 <=? c) && (c <=? 0x5A))%N then (c + 32)%N else c.

Definition ascii_isdigit (c : char) : bool :=
  ((0x30 <=? c) && (c <=? 0x39))%N.

(** CJK Unified Ideographs, ['\u4e00' <= char <= '\u9fff']. *)
Definition is_chinese (c : char) : bool :=
  ((0x4E00 <=? c) && (c <=? 0x9FFF))%N.

(** [VocabAnalyzer._contains_chinese] *)
Definition _contains_chinese (text : str) : bool := existsb is_chinese text.

Class UnicodeData := {
  isdecimal : char -> bool;
  lower : str -> str;
  isdecimal_ascii :
    forall c, is_ascii c = true -> isdecimal c = ascii_isdigit c;
  lower_ascii :
    forall s, forallb is_ascii s = true -> lower s = List.map ascii_lower s;
  lower_chinese :
    forall s, _contains_chinese s = true -> _contains_chinese (lower s) = true
}.

Section Analyzer.

Context {U : UnicodeData}.

(** [re.sub(r'^\s*\d+\.\s*', '', s)]: the pattern is anchored at the start
    and never matches the empty string, so at most one match is removed. *)

Definition number_prefix : str -> option str :=
  re_star isspace (re_plus isdecimal (re_char 0x2E%N (re_star isspace Some))).

Definition sub_number_prefix (s : str) : str :=
  match number_prefix s with
  | Some rest => rest
  | None => s
  end.

(** [class VocabEntry(NamedTuple)] *)
Record VocabEntry := mkVocabEntry {
  line_number : Z;
  original_line : str;
  selik_word : str;
  chinese_meaning : str;
  part_of_speech : str;
  is_defined : bool;
  file_path : str
}.

Definition pos_markers : list str :=
  [u "v."; u "n."; u "adj."; u "adv."; u "prep."; u "conj."; u "interj.";
   u "pron."].

Definition str_in (x : str) (l : list str) : bool := existsb (str_eqb x) l.

(** [VocabAnalyzer._is_pos_marker] *)
Definition _is_pos_marker (text : str) : bool :=
  str_in (lower text) pos_markers || str_in text pos_markers.

(** The [for i, part in enumerate(parts)] scan of [parse_line]. *)
Fixpoint chinese_start_from (i : nat) (parts : list str) : option nat :=
  match parts with
  | [] => None
  | part :: rest =>
      if _contains_chinese part then Some i
      else chinese_start_from (S i) rest
  end.

Definition chinese_start (parts : list str) : option nat :=
  chinese_start_from 0 parts.

(** [line.strip()] without its number prefix. *)
Definition clean (line : str) : str := sub_number_prefix (strip line).

(** [parts = clean_line.split()] *)
Definition tokens (line : str) : list str := split (clean line).

(** [VocabAnalyzer.parse_line] *)
Definition parse_line (line : str) (line_number : Z) (file_path : str)
  : VocabEntry :=
  let clean_line := clean line in
  match clean_line with
  | [] => mkVocabEntry line_number line [] [] [] false file_path
  | _ :: _ =>
      let parts := split clean_line in
      match parts with
      | [] => mkVocabEntry line_number line [] [] [] false file_path
      | _ :: _ =>
          match chinese_start parts with
          | None =>
              mkVocabEntry line_number line [] clean_line [] false file_path
          | Some O =>
              let last_part := last parts [] in
              if _is_pos_marker last_part then
                mkVocabEntry line_number line []
                  (join (u " ") (removelast parts)) last_part false file_path
              else
                mkVocabEntry line_number line [] clean_line [] false file_path
          | Some chinese_start_idx =>
              let selik_parts := firstn chinese_start_idx parts in
              let meaning_parts := skipn chinese_start_idx parts in
              if (1 <? length meaning_parts)
                 && _is_pos_marker (last meaning_parts [])
              then
                mkVocabEntry line_number line (join (u " ") selik_parts)
                  (join (u " ") (removelast meaning_parts))
                  (last meaning_parts []) true file_path
              else
                mkVocabEntry line_number line (join (u " ") selik_parts)
                  (join (u " ") meaning_parts) [] true file_path
          end
      end
  end.

(** [class VocabAnalyzer]: the attributes set by [__init__]. *)
Record VocabAnalyzer := mkVocabAnalyzer {
  entries : list VocabEntry;
  selik_duplicates : dict str (list VocabEntry);
  meaning_duplicates : dict (str * str) (list VocabEntry);
  undefined_entries : list VocabEntry
}.

(** [VocabAnalyzer()] *)
Definition new_analyzer : VocabAnalyzer := mkVocabAnalyzer [] [] [] [].

(** The loop of [load_file] over [enumerate(lines, 1)]: blank lines are
    skipped but counted in the numbering. *)
Fixpoint load_lines (file_path : str) (line_num : Z) (lines : list str)
  : list VocabEntry :=
  match lines with
  | [] => []
  | line :: rest =>
      match strip line with
      | [] => load_lines file_path (line_num + 1) rest
      | _ :: _ =>
          parse_line line line_num file_path
            :: load_lines file_path (line_num + 1) rest
      end
  end.

(** [VocabAnalyzer.load_file]; [content] is what [readlines()] returns, or
    [None] when the file cannot be opened or decoded, in which case nothing
    was appended.  The result is the analyzer and the number of entries. *)
Definition load_file (a : VocabAnalyzer) (file_path : str)
    (content : option (list str)) : VocabAnalyzer * Z :=
  match content with
  | Some lines =>
      let loaded := load_lines file_path 1 lines in
      (mkVocabAnalyzer (entries a ++ loaded) (selik_duplicates a)
         (meaning_duplicates a) (undefined_entries a),
       Z.of_nat (length loaded))
  | None => (a, 0%Z)
  end.

(** The loading loop of [main] over the files named on the command line. *)
Definition load_all (files : list (str * option (list str)))
  : VocabAnalyzer :=
  fold_left (fun a file => fst (load_file a (fst file) (snd file)))
    files new_analyzer.

Definition key_eqb (a b : str * str) : bool :=
  str_eqb (fst a) (fst b) && str_eqb (snd a) (snd b).

Definition nonempty (s : str) : bool :=
  match s with
  | [] => false
  | _ :: _ => true
  end.

(** [VocabAnalyzer.analyze] *)
Definition analyze (a : VocabAnalyzer) : VocabAnalyzer :=
  let defined_entries := filter is_defined (entries a) in
  let undefined := filter (fun e => negb (is_defined e)) (entries a) in
  let selik :=
    fold_left
      (fun d entry =>
         if nonempty (selik_word entry)
         then dict_append str_eqb d (selik_word entry) entry
         else d)
      defined_entries (selik_duplicates a) in
  let meaning :=
    fold_left
      (fun d entry =>
         dict_append key_eqb d
           (chinese_meaning entry, part_of_speech entry) entry)
      defined_entries (meaning_duplicates a) in
  mkVocabAnalyzer (entries a)
    (filter (fun kv => 1 <? length (snd kv)) selik)
    (filter (fun kv => 1 <? length (snd kv)) meaning)
    undefined.

(** The entries [analyze] works on carry the invariant of [VocabEntry]:
    a defined entry has a word. *)
Definition has_word (e : VocabEntry) : Prop :=
  is_defined e = true -> selik_word e <> [].

(** A freshly built analyzer whose entries were loaded from files. *)
Definition ready (a : VocabAnalyzer) : Prop :=
  selik_duplicates a = [] /\ meaning_duplicates a = [] /\
  Forall has_word (entries a).

Definition meaning_key (e : VocabEntry) : str * str :=
  (chinese_meaning e, part_of_speech e).

End Analyzer.


(** * The quiz: louttit.py *)

(** ** Floating point

    A Python [float] is an IEEE 754 binary64 number. *)

Definition float := spec_float.

Definition prec : Z := 53.
Definition emax : Z := 1024.

(** [1.0] *)
Definition float_one : float := S754_finite false 4503599627370496 (-52).

(** [float(0)], the conversion [1.0 - 0] applies to its integer operand. *)
Definition float_zero : float := S754_zero false.

(** [a / b] on integers: the quotient correctly rounded to binary64.
    [None] stands for an exception, [ZeroDivisionError] when [b] is zero and
    [OverflowError] when the rounded quotient is not finite. *)
Definition int_true_divide (a b : Z) : option float :=
  let negate := xorb (a <? 0)%Z (b <? 0)%Z in
  match a, b with
  | _, Z0 => None
  | Z0, _ => Some (S754_zero negate)
  | _, _ =>
      match SFdiv prec emax
              (S754_finite (a <? 0)%Z (Z.to_pos (Z.abs a)) 0)
              (S754_finite (b <? 0)%Z (Z.to_pos (Z.abs b)) 0) with
      | S754_infinity _ => None
      | q => Some q
      end
  end.

(** [x - y] and [x < y] on floats *)
Definition float_sub (x y : float) : float := SFsub prec emax x y.
Definition float_lt (x y : float) : bool := SFltb x y.

Definition is_nan (x : float) : bool :=
  match x with
  | S754_nan => true
  | _ => false
  end.

(** A float that is not NaN sits at a point of [Z * Z * Z] ordered
    lexicographically. *)
Definition float_rank (x : float) : Z * Z * Z :=
  match x with
  | S754_nan => (0, 0, 0)
  | S754_zero _ => (0, 0, 0)
  | S754_infinity s => (if s then -2 else 2, 0, 0)
  | S754_finite s m e =>
      if s then (-1, - e, - Zpos m) else (1, e, Zpos m)
  end%Z.

Definition lex_lt (a b : Z * Z * Z) : Prop :=
  let '(a1, a2, a3) := a in
  let '(b1, b2, b3) := b in
  (a1 < b1 \/ (a1 = b1 /\ (a2 < b2 \/ (a2 = b2 /\ a3 < b3))))%Z.

Definition is_finite (x : float) : bool :=
  match x with
  | S754_zero _ | S754_finite _ _ _ => true
  | _ => false
  end.

(** ** Sorting

    [items.sort(reverse=True, key=...)] is stable: items are ordered by
    decreasing key and items with equal keys keep their order.  For keys
    that [<] orders totally this fixes the result, computed here by
    insertion from the right. *)

Section Sort.

Variables (A Key : Type) (lt : Key -> Key -> bool) (key : A -> Key).

Fixpoint insert_desc (x : A) (l : list A) : list A :=
  match l with
  | [] => [x]
  | y :: l' =>
      if lt (key x) (key y) then y :: insert_desc x l' else x :: y :: l'
  end.

Definition sort_desc (l : list A) : list A := fold_right insert_desc [] l.

(** [a] may stand before [b] in decreasing order of keys. *)
Definition not_below (a b : A) : Prop := lt (key a) (key b) = false.

(** [a] ties with the key [k]. *)
Definition ties (k : Key) (a : A) : bool :=
  negb (lt k (key a)) && negb (lt (key a) k).

End Sort.

(** [items[:limit]] *)
Definition slice_to (A : Type) (items : list A) (limit : Z) : list A :=
  if (0 <=? limit)%Z then firstn (Z.to_nat limit) items
  else firstn (length items - Z.to_nat (- limit)) items.

(** ** Performance memory *)

(** The value stored for a word, [{"asked": int, "correct": int,
    "meaning": str}]; records read from a memory file may lack
    ["meaning"]. *)
Record stats := mkStats {
  asked : Z;
  correct : Z;
  meaning : option str
}.

Definition memory_t := dict str stats.

Definition mem_get (memory : memory_t) (w : str) : option stats :=
  dict_get str_eqb memory w.

Definition mem_set (memory : memory_t) (w : str) (st : stats) : memory_t :=
  dict_set str_eqb memory w st.

(** ** Selecting the quiz list *)

(** [1.0 - (correct/asked if asked>0 else 0)] *)
Definition error_rate (st : stats) : option float :=
  if (0 <? asked st)%Z then
    match int_true_divide (correct st) (asked st) with
    | Some q => Some (float_sub float_one q)
    | None => None
    end
  else Some (float_sub float_one float_zero).

(** [memory.get(w, {'asked': 0, 'correct': 0})] *)
Definition stats_for (memory : memory_t) (w : str) : stats :=
  match mem_get memory w with
  | Some st => st
  | None => mkStats 0 0 None
  end.

(** [stats.get('meaning', '')] *)
Definition meaning_or_empty (st : stats) : str :=
  match meaning st with
  | Some m => m
  | None => []
  end.

(** The first loop of [select_words], over [vocab.items()]. *)
Fixpoint file_items (vocab : dict str str) (memory : memory_t)
  : option (list (float * str * str)) :=
  match vocab with
  | [] => Some []
  | (w, m) :: rest =>
      let st := stats_for memory w in
      match error_rate st with
      | Some err =>
          match file_items rest memory with
          | Some items => Some ((err, w, m) :: items)
          | None => None
          end
      | None => None
      end
  end.

(** The second loop of [select_words], over [memory.items()]. *)
Fixpoint memory_items (records : memory_t)
  : option (list (float * str * str)) :=
  match records with
  | [] => Some []
  | (w, st) :: rest =>
      if ((0 <? asked st) && (correct st <? asked st))%Z then
        let m := meaning_or_empty st in
        match int_true_divide (correct st) (asked st) with
        | Some q =>
            match memory_items rest with
            | Some items => Some ((float_sub float_one q, w, m) :: items)
            | None => None
            end
        | None => None
        end
      else memory_items rest
  end.

(** The projection of the last line of [select_words]. *)
Definition word_meaning (x : float * str * str) : str * str :=
  (snd (fst x), snd x).

Definition rate_key (x : float * str * str) : float := fst (fst x).

(** [select_words(vocab, memory, limit)]; [None] when an exception is
    raised. *)
Definition select_words (vocab : dict str str) (memory : memory_t)
    (limit : option Z) : option (list (str * str)) :=
  match (match vocab with
         | _ :: _ => file_items vocab memory
         | [] => memory_items memory
         end) with
  | Some items =>
      let items := sort_desc float_lt rate_key items in
      let items :=
        match limit with
        | Some l => if (l =? 0)%Z then items else slice_to items l
        | None => items
        end in
      Some (List.map word_meaning items)
  | None => None
  end.

(** The error rate [select_words] sorts a word by, and the order of its
    result: [a] stands before [b] only if its rate is not below. *)
Definition rate_of (memory : memory_t) (w : str) : option float :=
  error_rate (stats_for memory w).

Definition rate_not_below (memory : memory_t) (a b : str * str) : Prop :=
  exists ra rb,
    rate_of memory (fst a) = Some ra /\ rate_of memory (fst b) = Some rb /\
    float_lt ra rb = false.

(** The items hold the rate of their word. *)
Definition rated (memory : memory_t) (x : float * str * str) : Prop :=
  rate_of memory (snd (fst x)) = Some (rate_key x).

(** The test of the memory-only loop: at least one miss is outstanding. *)
Definition missed (kv : str * stats) : bool :=
  ((0 <? asked (snd kv)) && (correct (snd kv) <? asked (snd kv)))%Z.

(** ** The quiz loop *)

(** What the learner does at a prompt: type a line or press Ctrl-C.  When
    the input has run dry, [input] raises [EOFError]. *)
Inductive reply :=
| Line (s : str)
| Interrupt.

Inductive output :=
| Banner
| Prompt (meaning : str)
| Right
| Wrong (word : str).

(** How [quiz_loop] is left. *)
Inductive exit :=
| Returned
| KeyboardInterrupt
| EOFError.

(** [memory.setdefault(w, st)] *)
Definition setdefault (memory : memory_t) (w : str) (st : stats) : memory_t :=
  match mem_get memory w with
  | Some _ => memory
  | None => mem_set memory w st
  end.

(** [stats['asked'] += 1] and [stats['correct'] += 1], on the record that
    [memory] holds for [w]. *)
Definition incr_asked (memory : memory_t) (w : str) : memory_t :=
  match mem_get memory w with
  | Some st => mem_set memory w (mkStats (asked st + 1) (correct st) (meaning st))
  | None => memory
  end.

Definition incr_correct (memory : memory_t) (w : str) : memory_t :=
  match mem_get memory w with
  | Some st => mem_set memory w (mkStats (asked st) (correct st + 1) (meaning st))
  | None => memory
  end.

(** The body of the loop after the quit test. *)
Definition record_answer (memory : memory_t) (w m ans : str)
  : memory_t * output :=
  let memory := setdefault memory w (mkStats 0 0 (Some m)) in
  let memory := incr_asked memory w in
  if str_eqb ans w then (incr_correct memory w, Right)
  else (memory, Wrong w).

(** The record the loop works on: the stored one, or a new one seeded with
    the prompted meaning. *)
Definition record_for (memory : memory_t) (w m : str) : stats :=
  match mem_get memory w with
  | Some st => st
  | None => mkStats 0 0 (Some m)
  end.

(** The record after one answer. *)
Definition scored (st : stats) (hit : bool) : stats :=
  mkStats (asked st + 1) (if hit then correct st + 1 else correct st)
    (meaning st).

(** The invariant of a performance record, and of a memory. *)
Definition counts_ok (st : stats) : Prop :=
  (0 <= correct st /\ correct st <= asked st)%Z.

Definition wf_memory (memory : memory_t) : Prop :=
  Forall (fun kv => counts_ok (snd kv)) memory.

(** No record of [memory] has lost counts in [memory']. *)
Definition grows (memory memory' : memory_t) : Prop :=
  forall w st, mem_get memory w = Some st ->
    exists st', mem_get memory' w = Some st' /\
      (asked st <= asked st')%Z /\ (correct st <= correct st')%Z.

(** [timesCorrect] of a word, 0 while it has no record. *)
Definition times_correct (memory : memory_t) (w : str) : Z :=
  match mem_get memory w with
  | Some st => correct st
  | None => 0%Z
  end.

(** Where the meaning of the record [st'] of [w] comes from, relative to
    the memory a quiz started from and the words it prompted. *)
Definition meaning_origin (words : list (str * str)) (memory : memory_t)
    (w : str) (st' : stats) : Prop :=
  match mem_get memory w with
  | Some st => meaning st' = meaning st
  | None =>
      exists pre m post,
        words = pre ++ (w, m) :: post /\ ~ In w (List.map fst pre) /\
        meaning st' = Some m
  end.

Section Quiz.

Context {U : UnicodeData}.

(** [ans.lower() == 'q'] *)
Definition is_quit (ans : str) : bool := str_eqb (lower ans) (u "q").

(** The [for w, m in words] loop. *)
Fixpoint quiz_words (words : list (str * str)) (inputs : list reply)
    (memory : memory_t) : memory_t * list output * exit :=
  match words with
  | [] => (memory, [], Returned)
  | (w, m) :: rest =>
      match inputs with
      | [] => (memory, [Prompt m], EOFError)
      | Interrupt :: _ => (memory, [Prompt m], KeyboardInterrupt)
      | Line s :: inputs' =>
          let ans := strip s in
          if is_quit ans then (memory, [Prompt m], Returned)
          else
            let (memory', out) := record_answer memory w m ans in
            let '(memory'', outs, how) := quiz_words rest inputs' memory' in
            (memory'', Prompt m :: out :: outs, how)
      end
  end.

(** [quiz_loop(words)], on the global [memory]. *)
Definition quiz_loop (words : list (str * str)) (inputs : list reply)
    (memory : memory_t) : memory_t * list output * exit :=
  let '(memory', outs, how) := quiz_words words inputs memory in
  (memory', Banner :: outs, how).

(** The memory a quiz leaves, and the memory after several quizzes in a row,
    each starting from what the one before left. *)
Definition after_quiz (words : list (str * str)) (inputs : list reply)
    (memory : memory_t) : memory_t :=
  fst (fst (quiz_loop words inputs memory)).

Definition after_quizzes
    (sessions : list (list (str * str) * list reply)) (memory : memory_t)
  : memory_t :=
  fold_left (fun m s => after_quiz (fst s) (snd s) m) sessions memory.

End Quiz.

(** * The persistence store

    [save_memory] writes the memory with [json.dump(memory, f,
    ensure_ascii=False, indent=2)] to a UTF-8 text file, and the module
    reads it back at start-up with [json.load].  The JSON documents that can
    be a memory hold objects, strings and integers. *)

#[warnings="-register-all"]
Inductive json :=
| JInt (z : Z)
| JStr (s : str)
| JDict (members : list (str * json)).

(** ** Writing JSON *)

Definition hex_digit (n : N) : char :=
  (if n <? 10 then 0x30 + n else 0x61 + (n - 10))%N.

(** ['\\u{0:04x}'.format(c)] *)
Definition escape_u (c : char) : str :=
  [0x5C; 0x75; hex_digit (c / 4096 mod 16); hex_digit (c / 256 mod 16);
   hex_digit (c / 16 mod 16); hex_digit (c mod 16)]%N.

(** The replacement of one character in [encode_basestring]: the quote, the
    backslash and the control characters are escaped, everything else is
    written as it is. *)
Definition escape_char (c : char) : str :=
  (if c =? 0x22 then [0x5C; 0x22]
   else if c =? 0x5C then [0x5C; 0x5C]
   else if c =? 0x0A then [0x5C; 0x6E]
   else if c =? 0x0D then [0x5C; 0x72]
   else if c =? 0x09 then [0x5C; 0x74]
   else if c =? 0x08 then [0x5C; 0x62]
   else if c =? 0x0C then [0x5C; 0x66]
   else if c <? 0x20 then escape_u c
   else [c])%N.

Definition encode_basestring (s : str) : str :=
  (0x22 :: flat_map escape_char s ++ [0x22])%N.

Fixpoint uint_chars (d : uint) : str :=
  match d with
  | Nil => []
  | D0 d => 0x30 :: uint_chars d
  | D1 d => 0x31 :: uint_chars d
  | D2 d => 0x32 :: uint_chars d
  | D3 d => 0x33 :: uint_chars d
  | D4 d => 0x34 :: uint_chars d
  | D5 d => 0x35 :: uint_chars d
  | D6 d => 0x36 :: uint_chars d
  | D7 d => 0x37 :: uint_chars d
  | D8 d => 0x38 :: uint_chars d
  | D9 d => 0x39 :: uint_chars d
  end%N.

Section Json.

(** [sys.get_int_max_str_digits()]: the longest decimal text an integer is
    converted to or from, 0 for no limit.  A conversion beyond it raises
    [ValueError]. *)
Variable max_str_digits : nat.

Definition too_long (d : uint) : bool :=
  (0 <? max_str_digits) && (max_str_digits <? Decimal.nb_digits d).

(** [int.__repr__] *)
Definition int_repr (z : Z) : option str :=
  match Z.to_int z with
  | Pos d => if too_long d then None else Some (uint_chars d)
  | Neg d => if too_long d then None else Some (0x2D%N :: uint_chars d)
  end.

(** ['\n' + ' ' * (2 * level)] *)
Definition newline_indent (level : nat) : str :=
  0x0A%N :: repeat 0x20%N (2 * level).

Section Members.

Variable encode_value : json -> option str.

(** The pairs of a non-empty object, each on a line of its own at the
    given level: [key: value] with [,] and the line break between two
    pairs. *)
Fixpoint encode_members (level : nat) (items : list (str * json))
  : option str :=
  match items with
  | [] => Some []
  | (k, v) :: rest =>
      match encode_value v, encode_members level rest with
      | Some value, Some more =>
          Some (encode_basestring k ++ u ": " ++ value
                ++ match rest with
                   | [] => []
                   | _ :: _ => u "," ++ newline_indent level
                   end
                ++ more)
      | _, _ => None
      end
  end.

End Members.

(** The text [json.dump] produces for an object at a nesting level; [None]
    when a conversion raises. *)
Fixpoint encode (level : nat) (o : json) : option str :=
  match o with
  | JInt z => int_repr z
  | JStr s => Some (encode_basestring s)
  | JDict [] => Some (u "{}")
  | JDict ((_ :: _) as items) =>
      match encode_members (encode (S level)) (S level) items with
      | Some body =>
          Some (u "{" ++ newline_indent (S level) ++ body
                ++ newline_indent level ++ u "}")
      | None => None
      end
  end.

(** ** Reading JSON *)

Definition is_json_ws (c : char) : bool :=
  ((c =? 0x20) || (c =? 0x09) || (c =? 0x0A) || (c =? 0x0D))%N.

Fixpoint skip_ws (s : str) : str :=
  match s with
  | c :: r => if is_json_ws c then skip_ws r else s
  | [] => []
  end.

Definition hex_value (c : char) : option N :=
  (if (0x30 <=? c) && (c <=? 0x39) then Some (c - 0x30)
   else if (0x61 <=? c) && (c <=? 0x66) then Some (c - 0x61 + 10)
   else if (0x41 <=? c) && (c <=? 0x46) then Some (c - 0x41 + 10)
   else None)%N.

Definition hex4 (a b c d : char) : option N :=
  match hex_value a, hex_value b, hex_value c, hex_value d with
  | Some x, Some y, Some z, Some w =>
      Some (((x * 16 + y) * 16 + z) * 16 + w)%N
  | _, _, _, _ => None
  end.

(** The character a one-letter escape stands for. *)
Definition backslash (c : char) : option char :=
  (if c =? 0x22 then Some 0x22
   else if c =? 0x5C then Some 0x5C
   else if c =? 0x2F then Some 0x2F
   else if c =? 0x62 then Some 0x08
   else if c =? 0x66 then Some 0x0C
   else if c =? 0x6E then Some 0x0A
   else if c =? 0x72 then Some 0x0D
   else if c =? 0x74 then Some 0x09
   else None)%N.

Definition is_high_surrogate (c : N) : bool :=
  ((0xD800 <=? c) && (c <=? 0xDBFF))%N.

Definition is_low_surrogate (c : N) : bool :=
  ((0xDC00 <=? c) && (c <=? 0xDFFF))%N.

Definition join_surrogates (hi lo : N) : N :=
  (0x10000 + ((hi - 0xD800) * 1024 + (lo - 0xDC00)))%N.

(** [scanstring(s, end, strict=True)], from the character after the
    opening quote: the decoded string and the text after the closing
    quote. *)
Fixpoint scanstring (s : str) : option (str * str) :=
  match s with
  | [] => None
  | c :: r =>
      if (c =? 0x22)%N then Some ([], r)
      else if (c =? 0x5C)%N then
        match r with
        | [] => None
        | e :: r1 =>
            if (e =? 0x75)%N then
              match r1 with
              | h1 :: h2 :: h3 :: h4 :: r2 =>
                  match hex4 h1 h2 h3 h4 with
                  | None => None
                  | Some hi =>
                      let single :=
                        match scanstring r2 with
                        | Some (x, rest) => Some (hi :: x, rest)
                        | None => None
                        end in
                      if is_high_surrogate hi then
                        match r2 with
                        | b :: l :: g1 :: g2 :: g3 :: g4 :: r3 =>
                            if ((b =? 0x5C) && (l =? 0x75))%N then
                              match hex4 g1 g2 g3 g4 with
                              | None => None
                              | Some lo =>
                                  if is_low_surrogate lo then
                                    match scanstring r3 with
                                    | Some (x, rest) =>
                                        Some (join_surrogates hi lo :: x, rest)
                                    | None => None
                                    end
                                  else single
                              end
                            else single
                        | _ => single
                        end
                      else single
                  end
              | _ => None
              end
            else
              match backslash e with
              | None => None
              | Some x =>
                  match scanstring r1 with
                  | Some (xs, rest) => Some (x :: xs, rest)
                  | None => None
                  end
              end
        end
      else if (c <=? 0x1F)%N then None
      else
        match scanstring r with
        | Some (xs, rest) => Some (c :: xs, rest)
        | None => None
        end
  end.

Definition digit_of (c : char) : option (uint -> uint) :=
  (if c =? 0x30 then Some D0 else if c =? 0x31 then Some D1
   else if c =? 0x32 then Some D2 else if c =? 0x33 then Some D3
   else if c =? 0x34 then Some D4 else if c =? 0x35 then Some D5
   else if c =? 0x36 then Some D6 else if c =? 0x37 then Some D7
   else if c =? 0x38 then Some D8 else if c =? 0x39 then Some D9
   else None)%N.

Definition is_digit (c : char) : bool :=
  match digit_of c with
  | Some _ => true
  | None => false
  end.

(** The longest run of digits at the start of a text. *)
Fixpoint scan_digits (s : str) : uint * str :=
  match s with
  | c :: r =>
      match digit_of c with
      | Some digit => let (d, rest) := scan_digits r in (digit d, rest)
      | None => (Nil, s)
      end
  | [] => (Nil, [])
  end.

(** The integer part of a number: one [0], or a digit from 1 to 9 and
    all the digits after it. *)
Definition scan_integer (s : str) : option (uint * str) :=
  match s with
  | c :: r =>
      if (c =? 0x30)%N then Some (D0 Nil, r)
      else if is_digit c then Some (scan_digits s)
      else None
  | [] => None
  end.

(** Whether a fraction or an exponent follows, which makes the number a
    float. *)
Definition float_follows (s : str) : bool :=
  match s with
  | c :: d :: r =>
      if (c =? 0x2E)%N then is_digit d
      else if ((c =? 0x65) || (c =? 0x45))%N then
        if ((d =? 0x2D) || (d =? 0x2B))%N then
          match r with
          | x :: _ => is_digit x
          | [] => false
          end
        else is_digit d
      else false
  | _ => false
  end.

(** [_match_number]: an integer, and the text after it.  A float cannot be
    a count, so a document with one is no memory. *)
Definition match_number (s : str) : option (json * str) :=
  let (negative, s1) :=
    match s with
    | c :: r => if (c =? 0x2D)%N then (true, r) else (false, s)
    | [] => (false, s)
    end in
  match scan_integer s1 with
  | Some (d, rest) =>
      if float_follows rest then None
      else if too_long d then None
      else Some (JInt (Z.of_int (if negative then Neg d else Pos d)), rest)
  | None => None
  end.

Section Object.

Variable scan_value : str -> option (json * str).

(** The loop of [JSONObject] over the pairs of a non-empty object, from the
    opening quote of a key.  A key given twice keeps its first place and its
    last value. *)
Fixpoint parse_pairs (fuel : nat) (rval : dict str json) (s : str)
  : option (json * str) :=
  match fuel, s with
  | S fuel', q :: r =>
      if (q =? 0x22)%N then
        match scanstring r with
        | Some (key, s1) =>
            match skip_ws s1 with
            | colon :: s2 =>
                if (colon =? 0x3A)%N then
                  match scan_value (skip_ws s2) with
                  | Some (value, s3) =>
                      let rval' := dict_set str_eqb rval key value in
                      match skip_ws s3 with
                      | c :: s4 =>
                          if (c =? 0x7D)%N then Some (JDict rval', s4)
                          else if (c =? 0x2C)%N then
                            parse_pairs fuel' rval' (skip_ws s4)
                          else None
                      | [] => None
                      end
                  | None => None
                  end
                else None
            | [] => None
            end
        | None => None
        end
      else None
  | _, _ => None
  end.

End Object.

(** [scan_once]: the value that starts a text, and the text after it.
    [fuel] bounds the nesting. *)
Fixpoint scan_once (fuel : nat) (s : str) : option (json * str) :=
  match fuel, s with
  | S fuel', c :: r =>
      if (c =? 0x22)%N then
        match scanstring r with
        | Some (x, rest) => Some (JStr x, rest)
        | None => None
        end
      else if (c =? 0x7B)%N then
        match skip_ws r with
        | c' :: r' =>
            if (c' =? 0x7D)%N then Some (JDict [], r')
            else parse_pairs (scan_once fuel') (length r) [] (skip_ws r)
        | [] => None
        end
      else match_number s
  | _, _ => None
  end.

(** [json.loads]: one value with whitespace around it and nothing else; a
    text cannot nest deeper than it is long. *)
Definition loads (s : str) : option json :=
  match s with
  | c :: _ => if (c =? 0xFEFF)%N then None else
      match scan_once (S (length s)) (skip_ws s) with
      | Some (o, rest) =>
          match skip_ws rest with
          | [] => Some o
          | _ :: _ => None
          end
      | None => None
      end
  | [] => None
  end.

(** ** The memory as a JSON document *)

Definition stats_to_json (st : stats) : json :=
  JDict ([(u "asked", JInt (asked st)); (u "correct", JInt (correct st))]
         ++ match meaning st with
            | Some m => [(u "meaning", JStr m)]
            | None => []
            end).

Definition memory_to_json (memory : memory_t) : json :=
  JDict (List.map (fun kv => (fst kv, stats_to_json (snd kv))) memory).

(** A record of the memory has the keys ["asked"] and ["correct"] with
    integers and may have ["meaning"] with a string; a document with anything
    else is no memory. *)
Definition only_keys (allowed : list str) (d : dict str json) : bool :=
  forallb (fun kv => str_in (fst kv) allowed) d.

Definition json_to_stats (o : json) : option stats :=
  match o with
  | JDict d =>
      if only_keys [u "asked"; u "correct"; u "meaning"] d then
        match dict_get str_eqb d (u "asked"),
              dict_get str_eqb d (u "correct") with
        | Some (JInt a), Some (JInt c) =>
            match dict_get str_eqb d (u "meaning") with
            | None => Some (mkStats a c None)
            | Some (JStr m) => Some (mkStats a c (Some m))
            | Some _ => None
            end
        | _, _ => None
        end
      else None
  | _ => None
  end.

Fixpoint json_to_records (d : dict str json) : option memory_t :=
  match d with
  | [] => Some []
  | (w, o) :: rest =>
      match json_to_stats o, json_to_records rest with
      | Some st, Some memory => Some ((w, st) :: memory)
      | _, _ => None
      end
  end.

Definition json_to_memory (o : json) : option memory_t :=
  match o with
  | JDict d => json_to_records d
  | _ => None
  end.

(** The nesting of a document, and the documents a [dict] can be: no key
    twice in an object. *)
Fixpoint depth (o : json) : nat :=
  match o with
  | JDict members =>
      S ((fix deepest (l : list (str * json)) : nat :=
            match l with
            | [] => 0
            | (_, v) :: r => Nat.max (depth v) (deepest r)
            end) members)
  | _ => 1
  end.

Fixpoint json_ok (o : json) : Prop :=
  match o with
  | JDict members =>
      NoDup (dict_keys members) /\
      (fix all (l : list (str * json)) : Prop :=
         match l with
         | [] => True
         | (_, v) :: r => json_ok v /\ all r
         end) members
  | _ => True
  end.

(** The text after a value: not one that would run into a number. *)
Definition value_end (rest : str) : bool :=
  match rest with
  | [] => true
  | c :: _ => ((c =? 0x2C) || (c =? 0x0A))%N
  end.

(** ** The file *)

(** The code points the UTF-8 codec writes: all but the surrogates. *)
Definition encodable (c : char) : bool :=
  ((c <? 0xD800) || (0xDFFF <? c) && (c <? 0x110000))%N.

(** [save_memory()]: the contents of [.quiz_memory.json] afterwards, or
    [None] when an exception is raised, [ValueError] by the conversion of an
    integer or [UnicodeEncodeError] by the write to the file opened with
    [encoding='utf-8']. *)
Definition save_memory (memory : memory_t) : option bytes :=
  match encode 0 (memory_to_json memory) with
  | Some text => utf8_encode text
  | None => None
  end.

(** The start of the module: the memory read from [.quiz_memory.json], the
    empty memory when there is no such file, [None] when an exception is
    raised or the document is no memory. *)
Definition load_memory (file : option bytes) : option memory_t :=
  match file with
  | Some data =>
      match utf8_decode data with
      | Some text =>
          match loads text with
          | Some o => json_to_memory o
          | None => None
          end
      | None => None
      end
  | None => Some []
  end.

End Json.

(** ** Conditions of the round trip *)

Definition head_nonzero (d : uint) : Prop :=
  match d with
  | Nil | D0 _ => False
  | _ => True
  end.

Definition starts_value (text : str) : Prop :=
  exists c r, text = c :: r /\ is_json_ws c = false.

Definition number_start : list char :=
  [0x2D; 0x30; 0x31; 0x32; 0x33; 0x34; 0x35; 0x36; 0x37; 0x38; 0x39]%N.

Fixpoint json_encodable (o : json) : Prop :=
  match o with
  | JInt _ => True
  | JStr s => forallb encodable s = true
  | JDict members =>
      (fix all (l : list (str * json)) : Prop :=
         match l with
         | [] => True
         | (k, v) :: r =>
             forallb encodable k = true /\ json_encodable v /\ all r
         end) members
  end.

(** The words and meanings of a memory hold no surrogate. *)
Definition memory_encodable (memory : memory_t) : Prop :=
  Forall (fun kv =>
            forallb encodable (fst kv) = true /\
            forallb encodable (meaning_or_empty (snd kv)) = true) memory.

Definition int_fits (max_str_digits : nat) (z : Z) : bool :=
  match Z.to_int z with
  | Pos d | Neg d => negb (too_long max_str_digits d)
  end.

(** The counts of a memory are within the limit of the conversion. *)
Definition counts_fit (max_str_digits : nat) (memory : memory_t) : Prop :=
  Forall (fun kv =>
            int_fits max_str_digits (asked (snd kv)) = true /\
            int_fits max_str_digits (correct (snd kv)) = true) memory.


(** * The analyzer as a whole *)

(** ** Tokens

    What [str.split()] returns: strings that are not empty and hold no
    whitespace. *)

Definition no_space (t : str) : bool := forallb (fun c => negb (isspace c)) t.

Definition is_token (t : str) : Prop := t <> [] /\ no_space t = true.


(** [if line.strip()] fails: the line is blank. *)
Definition blank (line : str) : bool := negb (nonempty (strip line)).

(** ** The report of the analyzer *)

(** [pos_info]: the part of speech in square brackets after a space, and
    nothing when there is none. *)
Definition pos_info (pos : str) : str :=
  if nonempty pos then u " [" ++ pos ++ u "]" else [].

(** The lines [print_results] prints, each with the values it formats. *)
Inductive report :=
| ResultsTitle
| UndefinedHeading (found : nat)
| UndefinedEntry (path : str) (line : Z) (meaning original : str)
| NoUndefined
| SelikHeading (found : nat)
| SelikGroup (word : str) (times : nat)
| SelikMember (path : str) (line : Z) (meaning : str)
| NoSelikDuplicates
| MeaningHeading (found : nat)
| MeaningGroup (meaning : str) (times : nat)
| MeaningMember (path : str) (line : Z) (word : str)
| NoMeaningDuplicates
| SummaryTitle
| TotalEntries (n : nat)
| UndefinedCount (n : nat)
| SelikCount (n : nat)
| MeaningCount (n : nat)
| IssuesFound
| AllUnique.

Definition print_undefined (e : VocabEntry) : report :=
  UndefinedEntry (file_path e) (line_number e)
    (chinese_meaning e ++ pos_info (part_of_speech e))
    (strip (original_line e)).

Definition print_selik_group (kv : str * list VocabEntry) : list report :=
  SelikGroup (fst kv) (length (snd kv))
  :: List.map
       (fun e =>
          SelikMember (file_path e) (line_number e)
            (chinese_meaning e ++ pos_info (part_of_speech e)))
       (snd kv).

Definition print_meaning_group (kv : str * str * list VocabEntry)
  : list report :=
  MeaningGroup (fst (fst kv) ++ pos_info (snd (fst kv))) (length (snd kv))
  :: List.map
       (fun e => MeaningMember (file_path e) (line_number e) (selik_word e))
       (snd kv).

(** [VocabAnalyzer.print_results] *)
Definition print_results (a : VocabAnalyzer) : list report :=
  [ResultsTitle]
  ++ match undefined_entries a with
     | [] => [NoUndefined]
     | _ :: _ =>
         UndefinedHeading (length (undefined_entries a))
         :: List.map print_undefined (undefined_entries a)
     end
  ++ match selik_duplicates a with
     | [] => [NoSelikDuplicates]
     | _ :: _ =>
         SelikHeading (length (selik_duplicates a))
         :: flat_map print_selik_group (selik_duplicates a)
     end
  ++ match meaning_duplicates a with
     | [] => [NoMeaningDuplicates]
     | _ :: _ =>
         MeaningHeading (length (meaning_duplicates a))
         :: flat_map print_meaning_group (meaning_duplicates a)
     end
  ++ [SummaryTitle;
      TotalEntries (length (entries a));
      UndefinedCount (length (undefined_entries a));
      SelikCount (length (selik_duplicates a));
      MeaningCount (length (meaning_duplicates a))]
  ++ [match undefined_entries a, selik_duplicates a, meaning_duplicates a with
      | [], [], [] => AllUnique
      | _, _, _ => IssuesFound
      end].

(** ** The analyzer's [main] *)

(** A file named on the command line: absent, or present with what
    [readlines()] returns or [None] when reading it fails. *)
Definition named_file : Type := str * option (option (list str)).

(** What [main] prints. *)
Inductive analyzer_output :=
| Usage
| Loaded (count : Z) (path : str)
| LoadError (path : str)
| Skipping (path : str)
| NoEntriesLoaded
| Analyzing
| Found (defined undefined : nat)
| Result (line : report).

Section AnalyzerMain.

Context {U : UnicodeData}.

(** The loop of [main] over [sys.argv[1:]], with what [load_file] prints. *)
Fixpoint load_files (files : list named_file) (a : VocabAnalyzer)
    (total_entries : Z) : VocabAnalyzer * Z * list analyzer_output :=
  match files with
  | [] => (a, total_entries, [])
  | (path, None) :: rest =>
      let '(a', total, outs) := load_files rest a total_entries in
      (a', total, Skipping path :: outs)
  | (path, Some content) :: rest =>
      let (a1, count) := load_file a path content in
      let '(a', total, outs) :=
        load_files rest a1 (total_entries + count) in
      (a', total,
       match content with
       | Some _ => Loaded count path
       | None => LoadError path
       end :: outs)
  end.

(** [main()] of the analyzer, on the arguments after the program name. *)
Definition analyzer_main (files : list named_file) : list analyzer_output :=
  match files with
  | [] => [Usage]
  | _ :: _ =>
      let '(a, total_entries, outs) := load_files files new_analyzer 0 in
      if (total_entries =? 0)%Z then outs ++ [NoEntriesLoaded]
      else
        let r := analyze a in
        outs
        ++ [Analyzing;
            Found (length (filter is_defined (entries a)))
              (length (undefined_entries r))]
        ++ List.map Result (print_results r)
  end.

End AnalyzerMain.

(** The output of the loading loop. *)
Definition loading (o : analyzer_output) : Prop :=
  match o with
  | Loaded _ _ | LoadError _ | Skipping _ => True
  | _ => False
  end.

(** The entries of the files on the command line that exist and can be
    read, in the order of the command line. *)
Definition read_entries {U : UnicodeData} (files : list named_file)
  : list VocabEntry :=
  flat_map
    (fun file : named_file =>
       match snd file with
       | Some (Some lines) => load_lines (fst file) 1 lines
       | _ => []
       end)
    files.

(** No two entries share a word, or a meaning with its part of speech. *)
Definition unique_entries (es : list VocabEntry) : Prop :=
  Forall (fun e => is_defined e = true) es /\
  NoDup (List.map selik_word es) /\ NoDup (List.map meaning_key es).

(** * The quiz program as a whole *)

(** ** Patterns with groups

    As [re_star], for a result of any type, and handing the text a group
    matched to the continuation. *)

Section Capture.

Variable R : Type.

(** Greedy [p*] after [taken]: the continuation gets what was taken and
    what is left. *)
Fixpoint rx_star_taking (p : char -> bool) (k : str -> str -> option R)
    (taken s : str) : option R :=
  match s with
  | c :: r =>
      if p c then
        match rx_star_taking p k (taken ++ [c]) r with
        | Some x => Some x
        | None => k taken s
        end
      else k taken s
  | [] => k taken s
  end.

(** The group [(p+)] *)
Definition rx_group_plus (p : char -> bool) (k : str -> str -> option R)
    (s : str) : option R :=
  match s with
  | c :: r => if p c then rx_star_taking p k [c] r else None
  | [] => None
  end.

(** [p*] and [p+] outside a group *)
Definition rx_star (p : char -> bool) (k : str -> option R) (s : str)
  : option R :=
  rx_star_taking p (fun _ => k) [] s.

Definition rx_plus (p : char -> bool) (k : str -> option R) (s : str)
  : option R :=
  rx_group_plus p (fun _ => k) s.

Definition rx_char (ch : char) (k : str -> option R) (s : str) : option R :=
  match s with
  | c :: r => if char_eqb c ch then k r else None
  | [] => None
  end.

End Capture.

(** [[A-Za-z ]] *)
Definition is_letter_or_space (c : char) : bool :=
  ((0x41 <=? c) && (c <=? 0x5A) || (0x61 <=? c) && (c <=? 0x7A)
   || (c =? 0x20))%N.

(** [.] without [re.DOTALL]: any character but a newline. *)
Definition not_newline (c : char) : bool := negb (c =? 0x0A)%N.

(** [$] without [re.MULTILINE]: the end of the text, or the newline that
    ends it. *)
Definition at_end (s : str) : bool :=
  match s with
  | [] => true
  | [c] => (c =? 0x0A)%N
  | _ => false
  end.

(** What is printed besides the quiz itself. *)
Inductive quiz_output :=
| Warning (fn : str)
| NoValidEntries
| NoPastMisses
| Quiz (o : output)
| Interrupted
| Saved.

(** A vocabulary file named on the command line: absent, which
    [load_vocab] expects; one that cannot be opened or decoded, which raises
    another exception; or one with its lines. *)
Inductive vocab_file :=
| Missing
| Unreadable
| Lines (lines : list str).

Section Vocabulary.

Context {U : UnicodeData}.

(** [pattern.match(line)] for
    [r'^\s*\d+\.\s*([A-Za-z ]+)\s+(.+)$']: the two groups. *)
Definition pattern_match (line : str) : option (str * str) :=
  rx_star isspace
    (rx_plus isdecimal
       (rx_char 0x2E%N
          (rx_star isspace
             (rx_group_plus is_letter_or_space
                (fun word =>
                   rx_plus isspace
                     (rx_group_plus not_newline
                        (fun meaning rest =>
                           if at_end rest then Some (word, meaning)
                           else None)))))))
    line.

(** The word and the meaning a line defines. *)
Definition vocab_entry (line : str) : option (str * str) :=
  match pattern_match line with
  | Some (word, meaning) => Some (strip word, strip meaning)
  | None => None
  end.

(** The body of the loop over the lines of a file. *)
Definition vocab_line (vocab : dict str str) (line : str) : dict str str :=
  match vocab_entry line with
  | Some (word, meaning) => dict_set str_eqb vocab word meaning
  | None => vocab
  end.

(** [load_vocab(files)]: the vocabulary, [None] when an exception is
    raised, and the warnings printed. *)
Fixpoint load_vocab_into (vocab : dict str str)
    (files : list (str * vocab_file))
  : option (dict str str) * list quiz_output :=
  match files with
  | [] => (Some vocab, [])
  | (fn, Lines lines) :: rest =>
      load_vocab_into (fold_left vocab_line lines vocab) rest
  | (fn, Missing) :: rest =>
      let (result, outs) := load_vocab_into vocab rest in
      (result, Warning fn :: outs)
  | (fn, Unreadable) :: rest => (None, [])
  end.

Definition load_vocab (files : list (str * vocab_file))
  : option (dict str str) * list quiz_output :=
  load_vocab_into [] files.

(** The entries of the lines of one file, and of the files that are there,
    in the order read. *)
Definition line_entries (lines : list str) : list (str * str) :=
  flat_map (fun line => match vocab_entry line with
                        | Some e => [e]
                        | None => []
                        end) lines.

Definition vocab_entries (files : list (str * vocab_file))
  : list (str * str) :=
  flat_map
    (fun file : str * vocab_file =>
       match snd file with
       | Lines lines => line_entries lines
       | _ => []
       end)
    files.

(** The meaning of the last entry for a word. *)
Definition last_meaning (es : list (str * str)) (w : str) : option str :=
  option_map snd (find (fun e => str_eqb (fst e) w) (rev es)).

End Vocabulary.

(** A line as the vocabulary files write it: a number, a full stop, a word
    of ASCII letters with spaces between them, whitespace, and a meaning
    that starts with neither a letter nor whitespace and runs to the end of
    the line. *)
Definition standard_line (line ws0 digits ws1 word ws2 meaning ending : str)
  : Prop :=
  line = ws0 ++ digits ++ 0x2E%N :: ws1 ++ word ++ ws2 ++ meaning ++ ending /\
  forallb isspace ws0 = true /\
  digits <> [] /\ forallb ascii_isdigit digits = true /\
  forallb isspace ws1 = true /\
  word <> [] /\ forallb is_letter_or_space word = true /\
  strip word = word /\
  ws2 <> [] /\ forallb isspace ws2 = true /\
  (exists c r, meaning = c :: r /\ is_letter_or_space c = false /\
     isspace c = false) /\
  forallb not_newline meaning = true /\
  at_end ending = true.

(** Assigning a list of entries one after the other. *)
Definition assign_all (es : list (str * str)) (vocab : dict str str)
  : dict str str :=
  fold_left (fun v e => dict_set str_eqb v (fst e) (snd e)) es vocab.

(** The names of the files that are not there. *)
Definition missing_names (files : list (str * vocab_file)) : list str :=
  flat_map
    (fun file : str * vocab_file =>
       match snd file with
       | Missing => [fst file]
       | _ => []
       end)
    files.

(** Every file is absent or can be read. *)
Definition readable (files : list (str * vocab_file)) : Prop :=
  Forall (fun file => snd file <> Unreadable) files.

(** ** Bookkeeping of a quiz *)





Section Rounds.

Context {U : UnicodeData}.




End Rounds.

(** ** Order *)

(** [a] stands before [b] in [l]. *)
Definition precedes (A : Type) (a b : A) (l : list A) : Prop :=
  exists l1 l2 l3, l = l1 ++ a :: l2 ++ b :: l3.

(** ** A run of the program *)

(** What a run leaves of [.quiz_memory.json]: the file as it was, the file
    [save_memory] wrote, or the part of a document a failed [save_memory]
    wrote after truncating the file. *)
Inductive written :=
| Untouched
| Written (data : bytes)
| Damaged.

(** How [main] is left: it returns, or [KeyboardInterrupt] or another
    exception escapes from it. *)
Inductive main_exit :=
| MainReturned
| MainInterrupted
| MainRaised.

(** How the script ends: at its end, by [sys.exit(0)], or with the
    traceback of an exception nothing caught. *)
Inductive ending :=
| Finished
| Exit0
| Traceback.

Section Program.

Context {U : UnicodeData}.

Variable max_str_digits : nat.

(** The last two lines of [main]: [quiz_loop(words)] and
    [save_memory()]. *)
Definition quiz_and_save (words : list (str * str)) (inputs : list reply)
    (memory : memory_t)
  : list quiz_output * memory_t * written * main_exit :=
  let '(memory', outs, how) := quiz_loop words inputs memory in
  match how with
  | Returned =>
      match save_memory max_str_digits memory' with
      | Some data =>
          (List.map Quiz outs ++ [Saved], memory', Written data, MainReturned)
      | None => (List.map Quiz outs, memory', Damaged, MainRaised)
      end
  | KeyboardInterrupt =>
      (List.map Quiz outs, memory', Untouched, MainInterrupted)
  | EOFError => (List.map Quiz outs, memory', Untouched, MainRaised)
  end.

(** [main()], from the list [args.files] on: what it prints, the global
    [memory] when it is left, what became of the memory file, and how it is
    left. *)
Definition main (files : list (str * vocab_file)) (inputs : list reply)
    (memory : memory_t)
  : list quiz_output * memory_t * written * main_exit :=
  match files with
  | _ :: _ =>
      match load_vocab files with
      | (Some [], warnings) =>
          (warnings ++ [NoValidEntries], memory, Untouched, MainReturned)
      | (Some vocab, warnings) =>
          match select_words vocab memory None with
          | Some words =>
              let '(outs, memory', file, how) :=
                quiz_and_save words inputs memory in
              (warnings ++ outs, memory', file, how)
          | None => (warnings, memory, Untouched, MainRaised)
          end
      | (None, warnings) => (warnings, memory, Untouched, MainRaised)
      end
  | [] =>
      match select_words [] memory None with
      | Some [] => ([NoPastMisses], memory, Untouched, MainReturned)
      | Some words => quiz_and_save words inputs memory
      | None => ([], memory, Untouched, MainRaised)
      end
  end.

(** The script from [if __name__ == '__main__'] on, with the memory the
    module loaded: [main()] under the handler that saves the progress when
    the learner presses Ctrl-C. *)
Definition script (files : list (str * vocab_file)) (inputs : list reply)
    (memory : memory_t) : list quiz_output * written * ending :=
  let '(outs, memory', file, how) := main files inputs memory in
  match how with
  | MainReturned => (outs, file, Finished)
  | MainRaised => (outs, file, Traceback)
  | MainInterrupted =>
      match save_memory max_str_digits memory' with
      | Some data => (outs ++ [Interrupted; Saved], Written data, Exit0)
      | None => (outs ++ [Interrupted], Damaged, Traceback)
      end
  end.

(** The list of words [main] hands to [quiz_loop], when it gets that
    far. *)
Definition quiz_list (files : list (str * vocab_file)) (memory : memory_t)
  : option (list (str * str)) :=
  match files with
  | _ :: _ =>
      match load_vocab files with
      | (Some ((_ :: _) as vocab), _) => select_words vocab memory None
      | _ => None
      end
  | [] =>
      match select_words [] memory None with
      | Some ((_ :: _) as words) => Some words
      | _ => None
      end
  end.

End Program.
(** * Properties *)

Lemma str_eqb_eq (a b : str) : str_eqb a b = true <-> a = b.
Proof.
  revert b; induction a as [|x a IH]; intros [|y b]; simpl; split;
    try congruence; try discriminate; auto.
  - rewrite andb_true_iff. intros [Hc Hs]. apply N.eqb_eq in Hc.
    apply IH in Hs. congruence.
  - intros E; injection E as -> ->. unfold char_eqb.
    rewrite N.eqb_refl. simpl. now apply IH.
Qed.

Lemma str_eqb_refl (a : str) : str_eqb a a = true.
Proof. now apply str_eqb_eq. Qed.

Lemma str_eqb_neq (a b : str) : str_eqb a b = false <-> a <> b.
Proof.
  split.
  - intros H E. apply str_eqb_eq in E. congruence.
  - intros H. destruct (str_eqb a b) eqn:E; [|reflexivity].
    apply str_eqb_eq in E. contradiction.
Qed.


(** ** An instance of the Unicode tables

    The tables cut down to the Basic Latin block: ASCII digits are the
    decimal digits and only ASCII letters change case.  On text made of ASCII
    and CJK ideographs every CPython agrees with it. *)

Lemma ascii_lower_chinese (c : char) :
  is_chinese c = true -> ascii_lower c = c.
Proof.
  unfold is_chinese, ascii_lower. intros H.
  apply andb_true_iff in H as [H1 H2]. apply N.leb_le in H1.
  destruct (0x41 <=? c)%N eqn:E1; simpl; [|reflexivity].
  destruct (c <=? 0x5A)%N eqn:E2; [|reflexivity].
  apply N.leb_le in E2. lia.
Qed.

Lemma map_ascii_lower_chinese (s : str) :
  _contains_chinese s = true ->
  _contains_chinese (List.map ascii_lower s) = true.
Proof.
  unfold _contains_chinese. induction s as [|c s IH]; simpl; [easy|].
  intros H. apply orb_true_iff in H as [H|H].
  - rewrite (ascii_lower_chinese _ H), H. reflexivity.
  - rewrite (IH H). apply orb_true_r.
Qed.

#[export] Instance BasicLatin : UnicodeData := {|
  isdecimal := ascii_isdigit;
  lower := List.map ascii_lower;
  isdecimal_ascii := fun c _ => eq_refl;
  lower_ascii := fun s _ => eq_refl;
  lower_chinese := map_ascii_lower_chinese
|}.

(** ** Whitespace at the ends of a string *)

Lemma lstrip_starts (s : str) : starts_ws (lstrip s) = false.
Proof.
  induction s as [|c s IH]; simpl; [reflexivity|].
  destruct (isspace c) eqn:E; [exact IH|]. simpl. exact E.
Qed.

Lemma lstrip_suffix (s : str) :
  exists ws, s = ws ++ lstrip s /\ forallb isspace ws = true.
Proof.
  induction s as [|c s (ws & E & Hws)]; simpl.
  - exists []. split; reflexivity.
  - destruct (isspace c) eqn:Ec.
    + exists (c :: ws). simpl. rewrite Ec, Hws. split; [congruence|reflexivity].
    + exists []. split; reflexivity.
Qed.

Lemma starts_ws_app (a b : str) :
  a <> [] -> starts_ws (a ++ b) = starts_ws a.
Proof. destruct a; [congruence|reflexivity]. Qed.

Lemma ends_ws_app (a b : str) :
  b <> [] -> ends_ws (a ++ b) = ends_ws b.
Proof.
  intros Hb. unfold ends_ws. rewrite rev_app_distr.
  apply starts_ws_app. intros E. apply (f_equal (@rev _)) in E.
  rewrite rev_involutive in E. simpl in E. congruence.
Qed.

Lemma rstrip_ends (s : str) : ends_ws (rstrip s) = false.
Proof.
  unfold ends_ws, rstrip. rewrite rev_involutive. apply lstrip_starts.
Qed.

Lemma rstrip_prefix (s : str) :
  exists ws, s = rstrip s ++ ws /\ forallb isspace ws = true.
Proof.
  unfold rstrip. destruct (lstrip_suffix (rev s)) as (ws & E & Hws).
  exists (rev ws). split.
  - rewrite <- rev_app_distr, <- E. symmetry. apply rev_involutive.
  - rewrite forallb_forall in *. intros x Hx. apply Hws.
    now apply in_rev.
Qed.

Lemma rstrip_starts (s : str) :
  starts_ws s = false -> starts_ws (rstrip s) = false.
Proof.
  intros H. destruct (rstrip_prefix s) as (ws & E & _).
  destruct (rstrip s) as [|c r] eqn:Er; [reflexivity|].
  rewrite E in H. exact H.
Qed.

Lemma strip_starts (s : str) : starts_ws (strip s) = false.
Proof. apply rstrip_starts, lstrip_starts. Qed.

Lemma strip_ends (s : str) : ends_ws (strip s) = false.
Proof. apply rstrip_ends. Qed.

(** ** What a match of the number prefix leaves *)

Lemma re_star_leaves (p : char -> bool) (k : str -> option str) :
  leaves_clean_suffix k -> leaves_clean_suffix (re_star p k).
Proof.
  intros Hk s. induction s as [|c s IH]; intros r; simpl.
  - apply Hk.
  - destruct (p c); [|apply Hk].
    destruct (re_star p k s) as [rest|] eqn:E; [|apply Hk].
    intros [= <-]. destruct (IH rest eq_refl) as [[pre ->] Hr].
    split; [exists (c :: pre); reflexivity|exact Hr].
Qed.

Lemma re_plus_leaves (p : char -> bool) (k : str -> option str) :
  leaves_clean_suffix k -> leaves_clean_suffix (re_plus p k).
Proof.
  intros Hk [|c s] r; simpl; [discriminate|].
  destruct (p c); [|discriminate]. intros H.
  destruct (re_star_leaves p Hk _ H) as [[pre ->] Hr].
  split; [exists (c :: pre); reflexivity|exact Hr].
Qed.

Lemma re_char_leaves (ch : char) (k : str -> option str) :
  leaves_clean_suffix k -> leaves_clean_suffix (re_char ch k).
Proof.
  intros Hk [|c s] r; simpl; [discriminate|].
  destruct (char_eqb c ch); [|discriminate]. intros H.
  destruct (Hk _ _ H) as [[pre ->] Hr].
  split; [exists (c :: pre); reflexivity|exact Hr].
Qed.

Lemma re_star_isspace_end (s : str) :
  re_star isspace Some s = Some (lstrip s).
Proof.
  induction s as [|c s IH]; simpl; [reflexivity|].
  destruct (isspace c); [rewrite IH|]; reflexivity.
Qed.

Section CleanFacts.
Context {U : UnicodeData}.

Lemma number_prefix_leaves : leaves_clean_suffix number_prefix.
Proof.
  unfold number_prefix.
  apply re_star_leaves, re_plus_leaves, re_char_leaves.
  intros s r. rewrite re_star_isspace_end. intros [= <-]. split.
  - destruct (lstrip_suffix s) as (ws & E & _). now exists ws.
  - apply lstrip_starts.
Qed.

Lemma clean_starts (line : str) : starts_ws (clean line) = false.
Proof.
  unfold clean, sub_number_prefix.
  destruct (number_prefix (strip line)) as [r|] eqn:E.
  - now apply number_prefix_leaves in E.
  - apply strip_starts.
Qed.

Lemma clean_ends (line : str) : ends_ws (clean line) = false.
Proof.
  unfold clean, sub_number_prefix.
  destruct (number_prefix (strip line)) as [r|] eqn:E.
  - apply number_prefix_leaves in E as [[pre E] _].
    destruct r as [|c r]; [reflexivity|].
    rewrite <- (ends_ws_app pre (b:=c :: r)) by discriminate.
    rewrite <- E. apply strip_ends.
  - apply strip_ends.
Qed.
End CleanFacts.

(** ** [split] on a string with clean ends *)

Lemma flush_nil (cur : str) (out : list str) :
  flush cur out = [] -> cur = [] /\ out = [].
Proof. destruct cur; simpl; [auto|discriminate]. Qed.

Lemma split_from_trailing (s : str) : forall cur,
  split_from s = (cur, []) ->
  exists ws, s = cur ++ ws /\ forallb isspace ws = true.
Proof.
  induction s as [|c s IH]; simpl; intros cur.
  - intros [= <-]. exists []. split; reflexivity.
  - destruct (split_from s) as [cur' out'] eqn:E.
    destruct (isspace c) eqn:Ec.
    + intros [= <- Hf]. apply flush_nil in Hf as [-> ->].
      destruct (IH [] eq_refl) as (ws & -> & Hws).
      exists (c :: ws). simpl. rewrite Ec, Hws. split; reflexivity.
    + intros [= <- ->]. destruct (IH cur' eq_refl) as (ws & -> & Hws).
      exists ws. split; [reflexivity|exact Hws].
Qed.

Lemma ends_ws_all (ws : str) :
  forallb isspace ws = true -> ws <> [] -> ends_ws ws = true.
Proof.
  intros Hall Hne. unfold ends_ws.
  destruct (rev ws) as [|c r] eqn:E.
  - apply (f_equal (@rev _)) in E. rewrite rev_involutive in E.
    simpl in E. congruence.
  - simpl. rewrite forallb_forall in Hall. apply Hall, in_rev.
    rewrite E. left. reflexivity.
Qed.

Lemma split_single (s t : str) :
  starts_ws s = false -> ends_ws s = false -> split s = [t] -> s = t.
Proof.
  destruct s as [|c s]; [discriminate 3|]. simpl. intros Hc He.
  unfold split. simpl. destruct (split_from s) as [cur out] eqn:E.
  rewrite Hc. simpl. intros [= <- ->].
  destruct (split_from_trailing _ E) as (ws & -> & Hws).
  destruct ws as [|w ws]; [now rewrite app_nil_r|].
  change (c :: cur ++ w :: ws) with ((c :: cur) ++ w :: ws) in He.
  rewrite ends_ws_app in He by discriminate.
  rewrite ends_ws_all in He; [discriminate|exact Hws|discriminate].
Qed.


(** ** The line parser *)

Section ParserFacts.

Context {U : UnicodeData}.

Lemma chinese_start_from_Some (parts : list str) : forall k i,
  chinese_start_from k parts = Some i <->
  exists j t, i = k + j /\ nth_error parts j = Some t /\
    _contains_chinese t = true /\
    forall j' t', j' < j -> nth_error parts j' = Some t' ->
      _contains_chinese t' = false.
Proof.
  induction parts as [|p parts IH]; intros k i; simpl.
  - split; [discriminate|]. intros (j & t & _ & H & _).
    destruct j; discriminate.
  - destruct (_contains_chinese p) eqn:Ep.
    + split.
      * intros [= <-]. exists 0, p. repeat split; auto with arith.
        intros j' t' Hj. inversion Hj.
      * intros (j & t & -> & Hn & Ht & Hfirst). destruct j as [|j].
        { f_equal. lia. }
        specialize (Hfirst 0 p (Nat.lt_0_succ j) eq_refl). congruence.
    + rewrite IH. split.
      * intros (j & t & -> & Hn & Ht & Hfirst). exists (S j), t.
        split; [lia|]. split; [exact Hn|]. split; [exact Ht|].
        intros [|j'] t' Hj Hn'; simpl in Hn'.
        { congruence. }
        apply (Hfirst j' t'); [lia|assumption].
      * intros (j & t & -> & Hn & Ht & Hfirst). destruct j as [|j].
        { simpl in Hn. congruence. }
        exists j, t. split; [lia|]. split; [exact Hn|]. split; [exact Ht|].
        intros j' t' Hj Hn'. apply (Hfirst (S j') t'); [lia|assumption].
Qed.

Lemma chinese_start_Some (parts : list str) (i : nat) :
  chinese_start parts = Some i <->
  exists t, nth_error parts i = Some t /\ _contains_chinese t = true /\
    forall j t', j < i -> nth_error parts j = Some t' ->
      _contains_chinese t' = false.
Proof.
  unfold chinese_start. rewrite chinese_start_from_Some. split.
  - intros (j & t & -> & H). exists t. exact H.
  - intros (t & H). exists i, t. split; [reflexivity|exact H].
Qed.

Lemma chinese_start_from_None (parts : list str) : forall k,
  chinese_start_from k parts = None <->
  forallb (fun t => negb (_contains_chinese t)) parts = true.
Proof.
  induction parts as [|p parts IH]; intros k; simpl; [tauto|].
  destruct (_contains_chinese p); simpl; [split; discriminate|apply IH].
Qed.

Lemma markers_not_chinese (t : str) :
  str_in t pos_markers = true -> _contains_chinese t = false.
Proof.
  unfold str_in. rewrite existsb_exists. intros (m & Hin & E).
  apply str_eqb_eq in E. subst t.
  repeat (destruct Hin as [<-|Hin]; [reflexivity|]). destruct Hin.
Qed.

(** A token that holds an ideograph is no part-of-speech marker. *)
Lemma chinese_not_marker (t : str) :
  _contains_chinese t = true -> _is_pos_marker t = false.
Proof.
  intros H. unfold _is_pos_marker. apply orb_false_iff. split.
  - destruct (str_in (lower t) pos_markers) eqn:E; [|reflexivity].
    apply markers_not_chinese in E. rewrite (lower_chinese _ H) in E.
    discriminate.
  - destruct (str_in t pos_markers) eqn:E; [|reflexivity].
    apply markers_not_chinese in E. congruence.
Qed.

Lemma last_skipn_lt (A : Type) (l : list A) (d : A) : forall i,
  i < length l -> last (skipn i l) d = last l d.
Proof.
  induction l as [|x l IH]; intros i Hi; simpl in Hi; [lia|].
  destruct i as [|i]; [reflexivity|]. simpl skipn.
  rewrite IH by lia. destruct l; [simpl in Hi; lia|reflexivity].
Qed.

Lemma split_nil : split [] = [].
Proof. reflexivity. Qed.

Lemma parse_line_defined_general (line : str) (n : Z) (f : str)
    (i : nat) (t : str) :
  nth_error (tokens line) i = Some t ->
  _contains_chinese t = true ->
  (forall j t', j < i -> nth_error (tokens line) j = Some t' ->
     _contains_chinese t' = false) ->
  0 < i ->
  let e := parse_line line n f in
  is_defined e = true /\
  selik_word e = join (u " ") (firstn i (tokens line)) /\
  (if _is_pos_marker (last (tokens line) [])
   then chinese_meaning e = join (u " ") (removelast (skipn i (tokens line)))
        /\ part_of_speech e = last (tokens line) []
   else chinese_meaning e = join (u " ") (skipn i (tokens line))
        /\ part_of_speech e = []).
Proof.
  intros Hn Ht Hfirst Hi.
  assert (Hstart : chinese_start (tokens line) = Some i).
  { apply chinese_start_Some. exists t. auto. }
  assert (Hlen : i < length (tokens line)).
  { apply nth_error_Some. congruence. }
  unfold parse_line. unfold tokens in *.
  destruct (clean line) as [|c0 cl] eqn:Ecl.
  { rewrite split_nil in Hlen. simpl in Hlen. lia. }
  destruct (split (c0 :: cl)) as [|p0 ps] eqn:Esp.
  { simpl in Hlen. lia. }
  rewrite Hstart. destruct i as [|i]; [lia|]. cbv zeta.
  rewrite (last_skipn_lt (A:=str) _ [] Hlen).
  assert (Hsk : exists rest, skipn (S i) (p0 :: ps) = t :: rest).
  { clear -Hn. revert Hn. generalize (p0 :: ps) as l. generalize (S i) as k.
    induction k as [|k IH]; intros [|x l] H; simpl in *; try discriminate.
    - injection H as ->. eauto.
    - apply IH. exact H. }
  destruct Hsk as [rest Hsk].
  destruct (_is_pos_marker (last (p0 :: ps) [])) eqn:Em.
  - assert (Hrest : rest <> []).
    { intros ->. rewrite <- (last_skipn_lt (A:=str) _ [] Hlen), Hsk in Em. simpl in Em.
      rewrite (chinese_not_marker _ Ht) in Em. discriminate. }
    rewrite Hsk. destruct rest as [|r rest]; [congruence|].
    cbn [length Nat.ltb Nat.leb andb]. simpl. auto.
  - rewrite andb_false_r. simpl. auto.
Qed.

(** Evaluating the parser on a literal line: the table lookups are settled
    by the laws of the interface, the rest by computation. *)
Ltac run_parse_line :=
  unfold parse_line, tokens, clean, sub_number_prefix, number_prefix;
  cbn; rewrite ?isdecimal_ascii by reflexivity; cbn;
  unfold _is_pos_marker; rewrite ?lower_ascii by reflexivity; cbn.

(** C1. When the first token holding a CJK ideograph sits at an index
    [i > 0] of the token list of a line, [parse_line] returns a defined entry:
    its word is the tokens before [i] joined by spaces and its meaning the
    tokens from [i] on, joined by spaces, except that a last token that is a
    part-of-speech marker goes to [part_of_speech] and is left out of the
    meaning.  The line ["3. ora pelan 走 v."] gives word ["ora pelan"],
    meaning ["走"], part of speech ["v."], defined. *)
Theorem parse_line_defined_entry :
  (forall (line : str) (n : Z) (f : str) (i : nat) (t : str),
     nth_error (tokens line) i = Some t ->
     _contains_chinese t = true ->
     (forall j t', j < i -> nth_error (tokens line) j = Some t' ->
        _contains_chinese t' = false) ->
     0 < i ->
     let e := parse_line line n f in
     is_defined e = true /\
     selik_word e = join (u " ") (firstn i (tokens line)) /\
     (if _is_pos_marker (last (tokens line) [])
      then chinese_meaning e
             = join (u " ") (removelast (skipn i (tokens line)))
           /\ part_of_speech e = last (tokens line) []
      else chinese_meaning e = join (u " ") (skipn i (tokens line))
           /\ part_of_speech e = [])) /\
  (forall (n : Z) (f : str),
     parse_line (u "3. ora pelan 走 v.") n f
     = mkVocabEntry n (u "3. ora pelan 走 v.") (u "ora pelan") (u "走")
         (u "v.") true f).
Proof.
  split.
  - exact parse_line_defined_general.
  - intros n f. run_parse_line. reflexivity.
Qed.

End ParserFacts.

Lemma parse_line_defined_entry_witness :
  let line := u "3. ora pelan 走 v." in
  let e := parse_line line 3 (u "selik.txt") in
  (nth_error (tokens line) 2 = Some (u "走") /\
   _contains_chinese (u "走") = true /\
   (forall j t', j < 2 -> nth_error (tokens line) j = Some t' ->
      _contains_chinese t' = false) /\
   0 < 2) /\
  is_defined e = true /\ selik_word e = u "ora pelan" /\
  chinese_meaning e = u "走" /\ part_of_speech e = u "v.".
Proof.
  intros line e.
  assert (H3 : forall j t', j < 2 -> nth_error (tokens line) j = Some t' ->
            _contains_chinese t' = false).
  { intros [|[|j]] t' Hj; [| |lia]; intros [= <-]; reflexivity. }
  split; [repeat split; auto|].
  pose proof (proj1 (@parse_line_defined_entry BasicLatin) line 3%Z
                (u "selik.txt") 2 (u "走") eq_refl eq_refl H3 Nat.lt_0_2) as H.
  destruct H as (Hd & Hw & Hm & Hp). repeat split; assumption.
Defined.

Section LoneMarker.
Context {U : UnicodeData}.

Lemma clean_single (line t : str) : tokens line = [t] -> clean line = t.
Proof.
  intros H. apply split_single; [apply clean_starts|apply clean_ends|exact H].
Qed.

Lemma marker_not_chinese (t : str) :
  _is_pos_marker t = true -> _contains_chinese t = false.
Proof.
  intros H. destruct (_contains_chinese t) eqn:E; [|reflexivity].
  rewrite (chinese_not_marker _ E) in H. discriminate.
Qed.

(** C5, as the code has it.  A line whose token list is one part-of-speech
    marker holds no ideograph, so it takes the branch of the lines without
    Chinese: the entry is undefined, its meaning is the marker itself (the
    whole remainder of the line) and its part of speech is empty. *)
Theorem lone_marker_undefined (line : str) (n : Z) (f t : str) :
  tokens line = [t] -> _is_pos_marker t = true ->
  parse_line line n f = mkVocabEntry n line [] t [] false f.
Proof.
  intros Ht Hm. pose proof (clean_single _ Ht) as Hc.
  unfold parse_line. unfold tokens in Ht. rewrite Hc in *. rewrite Ht.
  destruct t as [|c t]; [discriminate Ht|].
  unfold chinese_start. cbn [chinese_start_from].
  rewrite (marker_not_chinese _ Hm). reflexivity.
Qed.
End LoneMarker.

(** C5, as the spec puts it, fails: for ["7. v."] the meaning is not empty
    and the marker is not recorded as part of speech. *)
Lemma lone_marker_counterexample :
  tokens (u "7. v.") = [u "v."] /\ _is_pos_marker (u "v.") = true /\
  ~ (chinese_meaning (parse_line (u "7. v.") 7 (u "selik.txt")) = []
     /\ part_of_speech (parse_line (u "7. v.") 7 (u "selik.txt")) = u "v.").
Proof.
  split; [reflexivity|]. split; [reflexivity|].
  intros [H _]. vm_compute in H. discriminate H.
Qed.

Lemma lone_marker_undefined_witness :
  tokens (u "7. v.") = [u "v."] /\ _is_pos_marker (u "v.") = true /\
  parse_line (u "7. v.") 7 (u "selik.txt")
  = mkVocabEntry 7 (u "7. v.") [] (u "v.") [] false (u "selik.txt").
Proof.
  split; [reflexivity|]. split; [reflexivity|].
  apply (@lone_marker_undefined BasicLatin); reflexivity.
Defined.

(** ** Dictionaries *)

Section DictFacts.

Variables (K V : Type) (eqb : K -> K -> bool).
Hypothesis eqb_spec : forall a b, eqb a b = true <-> a = b.

Lemma eqb_same (a : K) : eqb a a = true.
Proof. now apply eqb_spec. Qed.

Lemma eqb_diff (a b : K) : a <> b -> eqb a b = false.
Proof.
  intros H. destruct (eqb a b) eqn:E; [|reflexivity].
  apply eqb_spec in E. contradiction.
Qed.

Lemma eqb_comm (a b : K) : eqb a b = eqb b a.
Proof.
  destruct (eqb a b) eqn:E.
  - apply eqb_spec in E. subst. symmetry. apply eqb_same.
  - destruct (eqb b a) eqn:E'; [|reflexivity].
    apply eqb_spec in E'. subst. rewrite eqb_same in E. discriminate.
Qed.

Lemma dict_get_set (d : dict K V) (k k' : K) (v : V) :
  dict_get eqb (dict_set eqb d k v) k'
  = if eqb k k' then Some v else dict_get eqb d k'.
Proof.
  induction d as [|[k0 v0] d IH]; simpl.
  - reflexivity.
  - destruct (eqb k0 k) eqn:E0; simpl.
    + apply eqb_spec in E0. subst k0.
      destruct (eqb k k'); reflexivity.
    + rewrite IH. destruct (eqb k0 k') eqn:E1; [|reflexivity].
      apply eqb_spec in E1. subst k0.
      rewrite eqb_comm, E0. reflexivity.
Qed.

Lemma dict_get_In (d : dict K V) (k : K) (v : V) :
  dict_get eqb d k = Some v -> In (k, v) d.
Proof.
  induction d as [|[k0 v0] d IH]; simpl; [discriminate|].
  destruct (eqb k0 k) eqn:E.
  - apply eqb_spec in E. subst. intros [= ->]. now left.
  - intros H. right. now apply IH.
Qed.

Lemma dict_get_None (d : dict K V) (k : K) :
  dict_get eqb d k = None <-> ~ In k (dict_keys d).
Proof.
  induction d as [|[k0 v0] d IH]; simpl; [tauto|].
  destruct (eqb k0 k) eqn:E.
  - apply eqb_spec in E. subst. split; [discriminate|tauto].
  - rewrite IH. split; [|tauto]. intros H [H0|H0]; [|tauto].
    subst. rewrite eqb_same in E. discriminate.
Qed.

Lemma In_dict_get (d : dict K V) (k : K) (v : V) :
  NoDup (dict_keys d) -> In (k, v) d -> dict_get eqb d k = Some v.
Proof.
  induction d as [|[k0 v0] d IH]; simpl; [tauto|].
  intros Hnd [H|H].
  - injection H as -> ->. now rewrite eqb_same.
  - inversion Hnd as [|? ? Hnotin Hnd']; subst.
    destruct (eqb k0 k) eqn:E.
    + apply eqb_spec in E. subst. exfalso. apply Hnotin.
      apply (in_map fst) in H. exact H.
    + now apply IH.
Qed.

Lemma dict_keys_set (d : dict K V) (k : K) (v : V) :
  dict_keys (dict_set eqb d k v)
  = match dict_get eqb d k with
    | Some _ => dict_keys d
    | None => dict_keys d ++ [k]
    end.
Proof.
  induction d as [|[k0 v0] d IH]; simpl; [reflexivity|].
  destruct (eqb k0 k) eqn:E; simpl; [reflexivity|].
  rewrite IH. destruct (dict_get eqb d k); reflexivity.
Qed.

Lemma NoDup_snoc (A : Type) (l : list A) (x : A) :
  NoDup l -> ~ In x l -> NoDup (l ++ [x]).
Proof.
  intros Hl Hx. apply NoDup_app; [exact Hl|repeat constructor; auto|].
  intros y Hy [<-|[]]. contradiction.
Qed.

Lemma dict_set_NoDup (d : dict K V) (k : K) (v : V) :
  NoDup (dict_keys d) -> NoDup (dict_keys (dict_set eqb d k v)).
Proof.
  intros Hnd. rewrite dict_keys_set.
  destruct (dict_get eqb d k) eqn:E; [exact Hnd|].
  apply NoDup_snoc; [exact Hnd|]. now apply dict_get_None.
Qed.

End DictFacts.

(** ** Grouping by a key

    Both loops of [analyze] append every entry to the list stored under its
    key; the dictionary then maps a key to the entries that carry it, in
    input order. *)

Section Grouping.

Variables (K E : Type) (eqb : K -> K -> bool) (key : E -> K).
Hypothesis eqb_spec : forall a b, eqb a b = true <-> a = b.

Lemma dict_get_append (d : dict K (list E)) (k k' : K) (x : E) :
  dict_get eqb (dict_append eqb d k x) k'
  = if eqb k k' then Some (stored eqb d k ++ [x]) else dict_get eqb d k'.
Proof.
  unfold dict_append, stored.
  destruct (dict_get eqb d k); rewrite (dict_get_set _ eqb_spec); reflexivity.
Qed.

Lemma dict_append_NoDup (d : dict K (list E)) (k : K) (x : E) :
  NoDup (dict_keys d) -> NoDup (dict_keys (dict_append eqb d k x)).
Proof.
  intros H. unfold dict_append.
  destruct (dict_get eqb d k); now apply (dict_set_NoDup _ eqb_spec).
Qed.

Lemma group_by_NoDup (es : list E) : forall d,
  NoDup (dict_keys d) -> NoDup (dict_keys (group_by eqb key es d)).
Proof.
  induction es as [|e es IH]; intros d H; simpl; [exact H|].
  apply IH, dict_append_NoDup, H.
Qed.

Lemma dict_get_group_by (es : list E) (k : K) : forall d,
  dict_get eqb (group_by eqb key es d) k
  = match with_key eqb key k es with
    | [] => dict_get eqb d k
    | _ :: _ => Some (stored eqb d k ++ with_key eqb key k es)
    end.
Proof.
  induction es as [|e es IH]; intros d; simpl; [reflexivity|].
  rewrite IH. unfold stored at 1. rewrite !dict_get_append.
  destruct (eqb (key e) k) eqn:E1.
  - apply eqb_spec in E1. subst k. rewrite <- app_assoc. simpl.
    destruct (with_key eqb key (key e) es); reflexivity.
  - fold (stored eqb d k). reflexivity.
Qed.

Lemma group_by_empty (es : list E) (k : K) (xs : list E) :
  In (k, xs) (group_by eqb key es []) <-> xs = with_key eqb key k es /\ xs <> [].
Proof.
  assert (Hnd : NoDup (dict_keys (group_by eqb key es []))).
  { apply group_by_NoDup. constructor. }
  split.
  - intros H. apply (In_dict_get _ eqb_spec _ _ _ Hnd) in H.
    rewrite dict_get_group_by in H. simpl in H.
    destruct (with_key eqb key k es); [discriminate|]. injection H as <-.
    split; [reflexivity|discriminate].
  - intros [-> Hne]. apply (dict_get_In _ eqb_spec).
    rewrite dict_get_group_by. simpl.
    destruct (with_key eqb key k es); [congruence|reflexivity].
Qed.

End Grouping.

Lemma fold_left_guard (A B : Type) (g : B -> bool) (f : A -> B -> A)
    (l : list B) : forall a,
  fold_left (fun a b => if g b then f a b else a) l a
  = fold_left f (filter g l) a.
Proof.
  induction l as [|b l IH]; intros a; simpl; [reflexivity|].
  destruct (g b); simpl; apply IH.
Qed.

Lemma filter_NoDup_keys (K V : Type) (p : K * V -> bool) (d : dict K V) :
  NoDup (dict_keys d) -> NoDup (dict_keys (filter p d)).
Proof.
  unfold dict_keys. induction d as [|kv d IH]; simpl; [auto|].
  intros H. inversion H as [|? ? Hn Hd]; subst.
  destruct (p kv); simpl; [|now apply IH].
  constructor; [|now apply IH]. intros Hin. apply Hn.
  apply in_map_iff in Hin as (x & Hx & Hin). apply filter_In in Hin as [Hin _].
  apply in_map_iff. now exists x.
Qed.

Lemma key_eqb_eq (a b : str * str) : key_eqb a b = true <-> a = b.
Proof.
  unfold key_eqb. rewrite andb_true_iff, !str_eqb_eq.
  destruct a, b; simpl. split; [intros [-> ->]; reflexivity|].
  intros [= -> ->]. auto.
Qed.

(** ** The analyzer *)

Lemma filter_partition (A : Type) (f : A -> bool) (l : list A) :
  Permutation l (filter f l ++ filter (fun x => negb (f x)) l).
Proof.
  induction l as [|x l IH]; simpl; [constructor|].
  destruct (f x); simpl.
  - now constructor.
  - now apply Permutation_cons_app.
Qed.

Lemma filter_all (A : Type) (f : A -> bool) (l : list A) :
  Forall (fun x => f x = true) l -> filter f l = l.
Proof.
  induction 1 as [|x l Hx _ IH]; simpl; [reflexivity|].
  rewrite Hx, IH. reflexivity.
Qed.

Lemma with_key_all (K E : Type) (eqb : K -> K -> bool) (key : E -> K)
    (k : K) (es : list E) :
  forall e, In e (with_key eqb key k es) -> In e es /\ eqb (key e) k = true.
Proof. intros e. unfold with_key. apply filter_In. Qed.

Lemma analyze_selik (a : VocabAnalyzer) :
  ready a ->
  selik_duplicates (analyze a)
  = filter (fun kv => 1 <? length (snd kv))
      (group_by str_eqb selik_word (filter is_defined (entries a)) []).
Proof.
  intros (Hs & _ & Hw). unfold analyze. cbn [selik_duplicates].
  rewrite Hs, fold_left_guard. unfold group_by. do 2 f_equal.
  apply filter_all. apply Forall_forall. intros e He.
  apply filter_In in He as [He Hd]. rewrite Forall_forall in Hw.
  specialize (Hw e He Hd). destruct (selik_word e); [congruence|reflexivity].
Qed.

Lemma analyze_meaning (a : VocabAnalyzer) :
  ready a ->
  meaning_duplicates (analyze a)
  = filter (fun kv => 1 <? length (snd kv))
      (group_by key_eqb meaning_key (filter is_defined (entries a)) []).
Proof.
  intros (_ & Hm & _). unfold analyze. cbn [meaning_duplicates].
  rewrite Hm. reflexivity.
Qed.

Lemma clusters_spec (K : Type) (eqb : K -> K -> bool) (key : VocabEntry -> K)
    (es : list VocabEntry) :
  (forall a b, eqb a b = true <-> a = b) ->
  let d := filter (fun kv : K * list VocabEntry => 1 <? length (snd kv))
             (group_by eqb key es []) in
  NoDup (dict_keys d) /\
  forall k xs, In (k, xs) d <-> xs = with_key eqb key k es /\ 1 < length xs.
Proof.
  intros Hspec d. split.
  - apply filter_NoDup_keys, (group_by_NoDup eqb key Hspec). constructor.
  - intros k xs. unfold d. rewrite filter_In, (group_by_empty eqb key Hspec).
    cbn [snd]. rewrite Nat.ltb_lt. split.
    + intros [[-> _] Hl]. auto.
    + intros [-> Hl]. repeat split; auto.
      intros E. rewrite E in Hl. simpl in Hl. lia.
Qed.

Lemma split_from_tokens (s : str) :
  Forall (fun t => t <> []) (snd (split_from s)).
Proof.
  induction s as [|c s IH]; simpl; [constructor|].
  destruct (split_from s) as [cur out]. simpl in IH.
  destruct (isspace c); simpl; [|exact IH].
  destruct cur; simpl; [exact IH|]. constructor; [discriminate|exact IH].
Qed.

Lemma split_tokens (s : str) : Forall (fun t => t <> []) (split s).
Proof.
  unfold split. pose proof (split_from_tokens s) as H.
  destruct (split_from s) as [cur out]. simpl in H.
  destruct cur; simpl; [exact H|]. constructor; [discriminate|exact H].
Qed.

Lemma join_nonempty (sep x : str) (r : list str) :
  x <> [] -> join sep (x :: r) <> [].
Proof.
  intros Hx. simpl. destruct r; [exact Hx|].
  destruct x; [congruence|discriminate].
Qed.

Section AnalyzerFacts.

Context {U : UnicodeData}.

(** The invariant of [VocabEntry]: an entry is defined exactly when it has
    a word. *)
Lemma parse_line_word (line : str) (n : Z) (f : str) :
  is_defined (parse_line line n f)
  = nonempty (selik_word (parse_line line n f)).
Proof.
  unfold parse_line. destruct (clean line) as [|c cl]; [reflexivity|].
  pose proof (split_tokens (c :: cl)) as Htok.
  destruct (split (c :: cl)) as [|p0 ps]; [reflexivity|].
  destruct (chinese_start (p0 :: ps)) as [[|i]|]; [| |reflexivity].
  - destruct (_is_pos_marker _); reflexivity.
  - inversion Htok as [|? ? Hp0 _]; subst.
    assert (Hj : nonempty (join (u " ") (firstn (S i) (p0 :: ps))) = true).
    { pose proof (@join_nonempty (u " ") p0 (firstn i ps) Hp0) as H.
      cbn [firstn]. destruct (join (u " ") (p0 :: firstn i ps));
        [congruence|reflexivity]. }
    destruct (_ && _); cbn [is_defined selik_word]; now rewrite Hj.
Qed.

Lemma load_lines_has_word (f : str) (lines : list str) : forall n,
  Forall has_word (load_lines f n lines).
Proof.
  induction lines as [|l lines IH]; intros n; simpl; [constructor|].
  destruct (strip l); [apply IH|]. constructor; [|apply IH].
  intros Hd. rewrite parse_line_word in Hd.
  destruct (selik_word _); [discriminate|discriminate].
Qed.

(** Every analyzer that [main] hands to [analyze] is ready. *)
Lemma load_all_ready (files : list (str * option (list str))) :
  ready (load_all files).
Proof.
  unfold load_all.
  assert (H : ready new_analyzer).
  { repeat split; constructor. }
  revert H. generalize new_analyzer.
  induction files as [|[f c] files IH]; intros a Ha; simpl; [exact Ha|].
  apply IH. destruct c as [lines|]; simpl; [|exact Ha].
  destruct Ha as (Hs & Hm & Hw). repeat split; simpl; auto.
  apply Forall_app. split; [exact Hw|apply load_lines_has_word].
Qed.

End AnalyzerFacts.

(** C7. [analyze] splits the entries into the defined and the undefined
    ones; the word-duplicate clusters it reports are exactly the groups of
    more than one defined entry with the same word, each under its own key,
    and the meaning-duplicate clusters are exactly the groups of more than
    one defined entry with the same pair of meaning and part of speech.  Two
    defined entries with the word ["mira"] form the one word cluster, of size
    2; no meaning cluster holds two entries whose parts of speech differ,
    and two entries with one meaning and different parts of speech give no
    meaning cluster at all. *)
Theorem analyze_duplicates (a : VocabAnalyzer) :
  ready a ->
  let r := analyze a in
  let defined := filter is_defined (entries a) in
  undefined_entries r = filter (fun e => negb (is_defined e)) (entries a) /\
  Permutation (entries a) (defined ++ undefined_entries r) /\
  NoDup (dict_keys (selik_duplicates r)) /\
  (forall w es,
     In (w, es) (selik_duplicates r) <->
     es = with_key str_eqb selik_word w defined /\ 1 < length es) /\
  NoDup (dict_keys (meaning_duplicates r)) /\
  (forall k es,
     In (k, es) (meaning_duplicates r) <->
     es = with_key key_eqb meaning_key k defined /\ 1 < length es) /\
  (forall e1 e2,
     entries a = [e1; e2] ->
     is_defined e1 = true -> is_defined e2 = true ->
     selik_word e1 = u "mira" -> selik_word e2 = u "mira" ->
     selik_duplicates r = [(u "mira", [e1; e2])]) /\
  (forall k es e1 e2,
     In (k, es) (meaning_duplicates r) -> In e1 es -> In e2 es ->
     part_of_speech e1 = part_of_speech e2) /\
  (forall e1 e2,
     entries a = [e1; e2] ->
     chinese_meaning e1 = chinese_meaning e2 ->
     part_of_speech e1 <> part_of_speech e2 ->
     meaning_duplicates r = []).
Proof.
  intros Hr r defined.
  pose proof (clusters_spec str_eqb selik_word defined str_eqb_eq)
    as [Hwn Hwc].
  pose proof (clusters_spec key_eqb meaning_key defined key_eqb_eq)
    as [Hmn Hmc].
  unfold r. rewrite (analyze_selik Hr), (analyze_meaning Hr).
  fold defined.
  assert (Hpos : forall k es e1 e2,
            es = with_key key_eqb meaning_key k defined ->
            In e1 es -> In e2 es -> part_of_speech e1 = part_of_speech e2).
  { intros k es e1 e2 -> H1 H2.
    apply with_key_all in H1 as [_ H1]. apply with_key_all in H2 as [_ H2].
    apply key_eqb_eq in H1, H2. unfold meaning_key in *. congruence. }
  split; [reflexivity|]. split; [apply filter_partition|].
  split; [exact Hwn|]. split; [exact Hwc|].
  split; [exact Hmn|]. split; [exact Hmc|].
  split; [|split].
  - intros e1 e2 He Hd1 Hd2 Hw1 Hw2. unfold defined. rewrite He.
    cbn [filter]. rewrite Hd1, Hd2. unfold group_by, dict_append.
    cbn [fold_left]. rewrite Hw1, Hw2. reflexivity.
  - intros k es e1 e2 Hin. apply Hmc in Hin as [Hes _].
    now apply (Hpos k es).
  - intros e1 e2 He Hm Hp.
    destruct (filter _ (group_by key_eqb meaning_key defined []))
      as [|[k es] rest] eqn:E; [reflexivity|exfalso].
    destruct (proj1 (Hmc k es) (or_introl eq_refl)) as [Hes Hlen].
    assert (H12 : In e1 es /\ In e2 es).
    { subst es. unfold defined, with_key in *. rewrite He in *.
      cbn [filter] in *.
      destruct (is_defined e1), (is_defined e2); cbn [filter] in *;
        repeat match goal with
               | |- context [key_eqb ?x ?y] => destruct (key_eqb x y)
               | H : context [key_eqb ?x ?y] |- _ => destruct (key_eqb x y)
               end; cbn [filter length] in *; try lia;
        split; simpl; auto. }
    destruct H12 as [H1 H2]. apply Hp. now apply (Hpos k es).
Qed.

Lemma analyze_duplicates_witness :
  let a := load_all [(u "selik.txt", Some [u "1. mira 看 v."; u "2. mira 見"])] in
  ready a /\
  selik_duplicates (analyze a)
  = [(u "mira",
      [parse_line (u "1. mira 看 v.") 1 (u "selik.txt");
       parse_line (u "2. mira 見") 2 (u "selik.txt")])].
Proof.
  intros a.
  assert (Hr : ready a).
  { repeat split; repeat constructor; discriminate. }
  split; [exact Hr|].
  destruct (analyze_duplicates Hr) as (_ & _ & _ & _ & _ & _ & H & _).
  apply H; reflexivity.
Defined.

(** ** The quiz loop *)

Lemma dict_set_set (K V : Type) (eqb : K -> K -> bool) (d : dict K V)
    (k : K) (v v' : V) :
  (forall a b, eqb a b = true <-> a = b) ->
  dict_set eqb (dict_set eqb d k v) k v' = dict_set eqb d k v'.
Proof.
  intros Hspec. induction d as [|[k0 v0] d IH]; simpl.
  - rewrite (eqb_same _ Hspec). reflexivity.
  - destruct (eqb k0 k) eqn:E; simpl; rewrite E; [reflexivity|].
    now rewrite IH.
Qed.

Lemma mem_get_set (memory : memory_t) (w w' : str) (st : stats) :
  mem_get (mem_set memory w st) w'
  = if str_eqb w w' then Some st else mem_get memory w'.
Proof. apply (dict_get_set _ str_eqb_eq). Qed.

Lemma mem_get_set_same (memory : memory_t) (w : str) (st : stats) :
  mem_get (mem_set memory w st) w = Some st.
Proof. rewrite mem_get_set, str_eqb_refl. reflexivity. Qed.

Lemma mem_set_set (memory : memory_t) (w : str) (st st' : stats) :
  mem_set (mem_set memory w st) w st' = mem_set memory w st'.
Proof. apply dict_set_set, str_eqb_eq. Qed.

(** One answered prompt replaces the record of the prompted word, and
    nothing else. *)
Lemma record_answer_eq (memory : memory_t) (w m ans : str) :
  record_answer memory w m ans
  = (mem_set memory w (scored (record_for memory w m) (str_eqb ans w)),
     if str_eqb ans w then Right else Wrong w).
Proof.
  unfold record_answer, setdefault, incr_asked, incr_correct, record_for,
    scored.
  destruct (mem_get memory w) as [st|] eqn:E.
  - rewrite E. destruct (str_eqb ans w).
    + rewrite mem_get_set_same, mem_set_set. reflexivity.
    + reflexivity.
  - rewrite mem_get_set_same, mem_set_set. destruct (str_eqb ans w).
    + rewrite mem_get_set_same, mem_set_set. reflexivity.
    + reflexivity.
Qed.

Section QuizFacts.

Context {U : UnicodeData}.

Lemma quiz_words_quit (w m s : str) (rest : list (str * str))
    (inputs : list reply) (memory : memory_t) :
  is_quit (strip s) = true ->
  quiz_words ((w, m) :: rest) (Line s :: inputs) memory
  = (memory, [Prompt m], Returned).
Proof. intros H. simpl. rewrite H. reflexivity. Qed.

Lemma quiz_words_answer (w m s : str) (rest : list (str * str))
    (inputs : list reply) (memory : memory_t) :
  is_quit (strip s) = false ->
  quiz_words ((w, m) :: rest) (Line s :: inputs) memory
  = let hit := str_eqb (strip s) w in
    let '(memory', outs, how) :=
      quiz_words rest inputs
        (mem_set memory w (scored (record_for memory w m) hit)) in
    (memory', Prompt m :: (if hit then Right else Wrong w) :: outs, how).
Proof.
  intros H. simpl. rewrite H, record_answer_eq. reflexivity.
Qed.

(** A relation between memories that holds across every answered prompt
    holds across the loop. *)
Lemma quiz_words_steps (R : memory_t -> memory_t -> Prop) :
  (forall m, R m m) ->
  (forall a b c, R a b -> R b c -> R a c) ->
  (forall m w gl ans, is_quit ans = false ->
     R m (mem_set m w (scored (record_for m w gl) (str_eqb ans w)))) ->
  forall words inputs memory,
    R memory (fst (fst (quiz_words words inputs memory))).
Proof.
  intros Hrefl Htrans Hstep words.
  induction words as [|[w gl] words IH]; intros inputs memory.
  - apply Hrefl.
  - destruct inputs as [|[s|] inputs]; try apply Hrefl.
    destruct (is_quit (strip s)) eqn:Eq.
    + rewrite quiz_words_quit by exact Eq. apply Hrefl.
    + rewrite quiz_words_answer by exact Eq. cbv zeta.
      specialize (IH inputs
        (mem_set memory w
           (scored (record_for memory w gl) (str_eqb (strip s) w)))).
      destruct (quiz_words words inputs _) as [[m2 outs] how].
      simpl in *. eapply Htrans; [apply (Hstep memory w gl _ Eq)|exact IH].
Qed.

Lemma after_quiz_eq (words : list (str * str)) (inputs : list reply)
    (memory : memory_t) :
  after_quiz words inputs memory = fst (fst (quiz_words words inputs memory)).
Proof.
  unfold after_quiz, quiz_loop.
  destruct (quiz_words words inputs memory) as [[m outs] how]. reflexivity.
Qed.

Lemma dict_set_Forall (K V : Type) (eqb : K -> K -> bool)
    (P : K * V -> Prop) (d : dict K V) (k : K) (v : V) :
  (forall k', P (k', v)) -> Forall P d -> Forall P (dict_set eqb d k v).
Proof.
  intros Hv H. induction H as [|[k0 v0] d H0 H IH]; simpl.
  - repeat constructor. apply Hv.
  - destruct (eqb k0 k); constructor; auto.
Qed.

Lemma mem_get_Forall (P : stats -> Prop) (memory : memory_t) (w : str)
    (st : stats) :
  Forall (fun kv => P (snd kv)) memory -> mem_get memory w = Some st -> P st.
Proof.
  intros H Hg. apply (dict_get_In _ str_eqb_eq) in Hg.
  rewrite Forall_forall in H. apply (H _ Hg).
Qed.

Lemma record_for_ok (memory : memory_t) (w m : str) :
  wf_memory memory -> counts_ok (record_for memory w m).
Proof.
  intros H. unfold record_for. destruct (mem_get memory w) eqn:E.
  - apply (mem_get_Forall counts_ok w H E).
  - unfold counts_ok. simpl. lia.
Qed.

Lemma scored_ok (st : stats) (hit : bool) :
  counts_ok st -> counts_ok (scored st hit).
Proof. unfold counts_ok, scored. destruct hit; simpl; lia. Qed.

Lemma grows_refl (m : memory_t) : grows m m.
Proof. intros w st H. exists st. repeat split; [exact H|lia|lia]. Qed.

Lemma grows_trans (a b c : memory_t) : grows a b -> grows b c -> grows a c.
Proof.
  intros Hab Hbc w st H. destruct (Hab _ _ H) as (st1 & H1 & Ha & Hc).
  destruct (Hbc _ _ H1) as (st2 & H2 & Ha' & Hc').
  exists st2. repeat split; [exact H2|lia|lia].
Qed.

Lemma grows_step (m : memory_t) (w gl : str) (hit : bool) :
  grows m (mem_set m w (scored (record_for m w gl) hit)).
Proof.
  intros w' st H. rewrite mem_get_set. destruct (str_eqb w w') eqn:E.
  - apply str_eqb_eq in E. subst w'. unfold record_for. rewrite H.
    eexists. split; [reflexivity|]. unfold scored. destruct hit; simpl; lia.
  - exists st. repeat split; [exact H|lia|lia].
Qed.

(** C9. Every record satisfies [0 <= correct <= asked], and a quiz keeps
    it so: from a memory whose records all satisfy it, whatever the words and
    the answers, the memory after the loop satisfies it, and no record's
    [asked] or [correct] has decreased.  So does every memory reached from the
    empty one by any number of quizzes. *)
Theorem quiz_keeps_counts :
  (forall words inputs memory,
     wf_memory memory ->
     wf_memory (after_quiz words inputs memory) /\
     grows memory (after_quiz words inputs memory)) /\
  (forall sessions, wf_memory (after_quizzes sessions [])).
Proof.
  assert (Hone : forall words inputs memory,
            wf_memory memory ->
            wf_memory (after_quiz words inputs memory) /\
            grows memory (after_quiz words inputs memory)).
  { intros words inputs memory Hwf. rewrite after_quiz_eq.
    apply (quiz_words_steps
             (fun m m' => wf_memory m -> wf_memory m' /\ grows m m')).
    - intros m Hm. split; [exact Hm|apply grows_refl].
    - intros a b c Hab Hbc Ha. destruct (Hab Ha) as [Hb Gab].
      destruct (Hbc Hb) as [Hc Gbc]. split; [exact Hc|].
      now apply grows_trans with b.
    - intros m w gl ans _ Hm. split; [|apply grows_step].
      apply dict_set_Forall; [|exact Hm].
      intros k'. simpl. apply scored_ok, record_for_ok, Hm.
    - exact Hwf. }
  split; [exact Hone|].
  intros sessions. unfold after_quizzes.
  assert (H : wf_memory []) by constructor.
  revert H. generalize (@nil (str * stats)).
  induction sessions as [|[words inputs] sessions IH]; intros m Hm; simpl.
  - exact Hm.
  - apply IH. apply Hone, Hm.
Qed.

(** C3, with the quit test on the trimmed input as the code has it.  At a
    prompt, a line whose trimmed text lower-cases to ["q"] ends the loop at
    once with the memory as it was.  Any other line replaces the record of
    the prompted word (the stored one, or a new one with zero counts and the
    prompted meaning) by one with [asked] one higher and [correct] one
    higher exactly when the trimmed text is the word; no other record
    changes and the loop goes on with the next word.  A wrong answer and
    then a quit, on a memory without the first word, leave that word with
    [asked = 1], [correct = 0], show two prompts and no more. *)
Theorem quiz_prompt :
  (forall w m s rest inputs memory,
     is_quit (strip s) = true ->
     quiz_words ((w, m) :: rest) (Line s :: inputs) memory
     = (memory, [Prompt m], Returned)) /\
  (forall w m s rest inputs memory,
     is_quit (strip s) = false ->
     let st := record_for memory w m in
     let hit := str_eqb (strip s) w in
     let memory1 := mem_set memory w (scored st hit) in
     (hit = true <-> strip s = w) /\
     asked (scored st hit) = (asked st + 1)%Z /\
     correct (scored st hit)
       = (if hit then correct st + 1 else correct st)%Z /\
     mem_get memory1 w = Some (scored st hit) /\
     (forall w', w' <> w -> mem_get memory1 w' = mem_get memory w') /\
     quiz_words ((w, m) :: rest) (Line s :: inputs) memory
     = let '(memory', outs, how) := quiz_words rest inputs memory1 in
       (memory', Prompt m :: (if hit then Right else Wrong w) :: outs, how)) /\
  (forall w1 m1 w2 m2 rest s1 s2 more memory,
     mem_get memory w1 = None ->
     is_quit (strip s1) = false -> strip s1 <> w1 ->
     is_quit (strip s2) = true ->
     quiz_loop ((w1, m1) :: (w2, m2) :: rest)
       (Line s1 :: Line s2 :: more) memory
     = (mem_set memory w1 (mkStats 1 0 (Some m1)),
        [Banner; Prompt m1; Wrong w1; Prompt m2], Returned)).
Proof.
  split; [|split].
  - intros. now apply quiz_words_quit.
  - intros w m s rest inputs memory Hq st hit memory1.
    split; [apply str_eqb_eq|]. split; [reflexivity|].
    split; [reflexivity|]. split; [apply mem_get_set_same|].
    split; [|now apply quiz_words_answer].
    intros w' Hw'. unfold memory1. rewrite mem_get_set.
    rewrite (proj2 (str_eqb_neq w w')); [reflexivity|congruence].
  - intros w1 m1 w2 m2 rest s1 s2 more memory Hnone Hq1 Hne Hq2.
    unfold quiz_loop. rewrite quiz_words_answer by exact Hq1. cbv zeta.
    rewrite quiz_words_quit by exact Hq2.
    rewrite (proj2 (str_eqb_neq (strip s1) w1) Hne).
    unfold record_for. rewrite Hnone. reflexivity.
Qed.

Lemma meaning_origin_here (words : list (str * str)) (memory : memory_t)
    (w : str) (st' : stats) :
  mem_get memory w = Some st' -> meaning_origin words memory w st'.
Proof. intros H. unfold meaning_origin. rewrite H. reflexivity. Qed.

Lemma quiz_words_meaning (w : str) (st' : stats) (words : list (str * str)) :
  forall inputs memory,
    mem_get (fst (fst (quiz_words words inputs memory))) w = Some st' ->
    meaning_origin words memory w st'.
Proof.
  induction words as [|[w0 m0] words IH]; intros inputs memory.
  - apply meaning_origin_here.
  - destruct inputs as [|[s|] inputs]; try apply meaning_origin_here.
    destruct (is_quit (strip s)) eqn:Eq.
    { rewrite quiz_words_quit by exact Eq. apply meaning_origin_here. }
    rewrite quiz_words_answer by exact Eq. cbv zeta.
    specialize (IH inputs
      (mem_set memory w0
         (scored (record_for memory w0 m0) (str_eqb (strip s) w0)))).
    destruct (quiz_words words inputs _) as [[m2 outs] how]. simpl in *.
    intros H. specialize (IH H). unfold meaning_origin in *.
    rewrite mem_get_set in IH. destruct (str_eqb w0 w) eqn:E.
    + apply str_eqb_eq in E. subst w0. unfold record_for in IH.
      destruct (mem_get memory w) as [st|]; [exact IH|].
      exists [], m0, words. repeat split; auto.
    + destruct (mem_get memory w) as [st|]; [exact IH|].
      destruct IH as (pre & m & post & -> & Hpre & Hm).
      exists ((w0, m0) :: pre), m, post.
      split; [reflexivity|]. split; [|exact Hm].
      simpl. intros [H0|H0]; [|contradiction].
      subst. rewrite str_eqb_refl in E. discriminate.
Qed.

(** C6, as the code has it.  The meaning of a record is set when the record
    is created and never changed: after a quiz, a word that had a record
    keeps the meaning it had, and a word that got its record in this quiz
    has the meaning of its first prompt in the list. *)
Theorem meaning_first_seen (words : list (str * str)) (inputs : list reply)
    (memory : memory_t) (w : str) (st' : stats) :
  mem_get (after_quiz words inputs memory) w = Some st' ->
  match mem_get memory w with
  | Some st => meaning st' = meaning st
  | None =>
      exists pre m post,
        words = pre ++ (w, m) :: post /\ ~ In w (List.map fst pre) /\
        meaning st' = Some m
  end.
Proof. rewrite after_quiz_eq. apply quiz_words_meaning. Qed.

Lemma is_quit_q (w : str) : w = u "q" \/ w = u "Q" -> is_quit w = true.
Proof.
  intros [->| ->]; unfold is_quit; rewrite lower_ascii by reflexivity;
    reflexivity.
Qed.

(** C10. A word spelled ["q"] or ["Q"] cannot be answered: typing it at its
    prompt ends the loop with the memory untouched, so no run of the quiz
    loop changes the [correct] count of such a word. *)
Theorem quit_word_never_correct (w : str) :
  w = u "q" \/ w = u "Q" ->
  (forall m s rest inputs memory,
     strip s = w ->
     quiz_words ((w, m) :: rest) (Line s :: inputs) memory
     = (memory, [Prompt m], Returned)) /\
  (forall words inputs memory,
     times_correct (after_quiz words inputs memory) w
     = times_correct memory w).
Proof.
  intros Hw. pose proof (is_quit_q Hw) as Hq. split.
  - intros m s rest inputs memory Hs. apply quiz_words_quit.
    rewrite Hs. exact Hq.
  - intros words inputs memory. rewrite after_quiz_eq.
    apply (quiz_words_steps
             (fun m m' => times_correct m' w = times_correct m w)).
    + reflexivity.
    + intros a b c Hab Hbc. congruence.
    + intros m w0 gl ans Hans. unfold times_correct.
      rewrite mem_get_set. destruct (str_eqb w0 w) eqn:E; [|reflexivity].
      apply str_eqb_eq in E. subst w0.
      destruct (str_eqb ans w) eqn:Ea.
      { apply str_eqb_eq in Ea. subst ans. congruence. }
      unfold record_for. destruct (mem_get m w); reflexivity.
Qed.

End QuizFacts.

(** Witnesses and counterexamples, on the Basic Latin tables. *)

Lemma quiz_prompt_witness :
  let words := [(u "ora", u "走"); (u "pelan", u "慢"); (u "mira", u "看")] in
  let inputs := [Line (u "oro"); Line (u " Q "); Line (u "mira")] in
  (mem_get [] (u "ora") = None /\ is_quit (strip (u "oro")) = false /\
   strip (u "oro") <> u "ora" /\ is_quit (strip (u " Q ")) = true) /\
  quiz_loop words inputs []
  = ([(u "ora", mkStats 1 0 (Some (u "走")))],
     [Banner; Prompt (u "走"); Wrong (u "ora"); Prompt (u "慢")], Returned).
Proof.
  intros words inputs.
  assert (H : mem_get [] (u "ora") = None /\
              is_quit (strip (u "oro")) = false /\
              strip (u "oro") <> u "ora" /\
              is_quit (strip (u " Q ")) = true).
  { repeat split; try reflexivity. discriminate. }
  split; [exact H|]. destruct H as (H1 & H2 & H3 & H4).
  exact (proj2 (proj2 (@quiz_prompt BasicLatin)) _ (u "走") _ (u "慢")
           [(u "mira", u "看")] _ _ [Line (u "mira")] [] H1 H2 H3 H4).
Defined.

(** C3, as the spec puts it, fails: the line [" q"] is not ["q"] in any
    case, yet it ends the loop and the prompted word is not counted. *)
Lemma quit_untrimmed_counterexample :
  str_eqb (lower (u " q")) (u "q") = false /\
  quiz_loop [(u "ora", u "走")] [Line (u " q")] []
  = ([], [Banner; Prompt (u "走")], Returned) /\
  mem_get (after_quiz [(u "ora", u "走")] [Line (u " q")] []) (u "ora") = None.
Proof. repeat split. Qed.

Lemma meaning_first_seen_witness :
  let memory := [(u "ora", mkStats 1 0 (Some (u "跑")))] in
  let st' := mkStats 2 1 (Some (u "跑")) in
  mem_get (after_quiz [(u "ora", u "走")] [Line (u "ora")] memory) (u "ora")
  = Some st' /\
  meaning st' = Some (u "跑").
Proof.
  intros memory st'. split; [reflexivity|].
  exact (@meaning_first_seen BasicLatin [(u "ora", u "走")] [Line (u "ora")]
           memory (u "ora") st' eq_refl).
Defined.

(** C6, as the spec puts it, fails: a word stored with the meaning ["跑"]
    and prompted with the meaning ["走"] keeps ["跑"]. *)
Lemma meaning_last_seen_counterexample :
  let memory := [(u "ora", mkStats 1 0 (Some (u "跑")))] in
  exists st',
    mem_get (after_quiz [(u "ora", u "走")] [Line (u "ora")] memory) (u "ora")
    = Some st' /\
    meaning st' <> Some (u "走").
Proof.
  intros memory. exists (mkStats 2 1 (Some (u "跑"))).
  split; [reflexivity|discriminate].
Qed.

Lemma quiz_keeps_counts_witness :
  let memory := [(u "ora", mkStats 3 1 (Some (u "走")))] in
  let words := [(u "ora", u "走"); (u "pelan", u "慢")] in
  let inputs := [Line (u "ora"); Line (u "pelam")] in
  wf_memory memory /\
  wf_memory (after_quiz words inputs memory) /\
  grows memory (after_quiz words inputs memory).
Proof.
  intros memory words inputs.
  assert (H : wf_memory memory).
  { repeat constructor; simpl; lia. }
  split; [exact H|].
  exact (proj1 (@quiz_keeps_counts BasicLatin) words inputs memory H).
Defined.

Lemma quit_word_never_correct_witness :
  (u "q" = u "q" \/ u "q" = u "Q") /\
  times_correct
    (after_quiz [(u "q", u "問")] [Line (u "q")] [(u "q", mkStats 2 0 None)])
    (u "q") = 0%Z.
Proof.
  split; [left; reflexivity|].
  exact (proj2 (@quit_word_never_correct BasicLatin (u "q")
                  (or_introl eq_refl))
           [(u "q", u "問")] [Line (u "q")] [(u "q", mkStats 2 0 None)]).
Defined.

(** ** The order of floats *)

Lemma float_lt_rank (x y : float) :
  is_nan x = false -> is_nan y = false ->
  (float_lt x y = true <-> lex_lt (float_rank x) (float_rank y)).
Proof.
  unfold float_lt, SFltb.
  destruct x as [sx|sx| |sx mx ex], y as [sy|sy| |sy my ey];
    try discriminate; intros _ _; simpl;
    try (destruct sx); try (destruct sy); simpl;
    try (split; [discriminate|lia]); try (split; [reflexivity|lia]);
    repeat match goal with
      | |- context [Z.compare ?a ?b] => destruct (Z.compare_spec a b)
      | |- context [Pos.compare_cont Eq ?a ?b] =>
          change (Pos.compare_cont Eq a b) with (Pos.compare a b);
          destruct (Pos.compare_spec a b)
      end;
    simpl; split; try discriminate; try reflexivity; try lia.
Qed.

Lemma float_lt_asym (x y : float) :
  is_nan x = false -> is_nan y = false ->
  float_lt x y = true -> float_lt y x = false.
Proof.
  intros Hx Hy H. apply (float_lt_rank _ _ Hx Hy) in H.
  destruct (float_lt y x) eqn:E; [|reflexivity].
  apply (float_lt_rank _ _ Hy Hx) in E.
  unfold lex_lt in *. destruct (float_rank x) as [[? ?] ?].
  destruct (float_rank y) as [[? ?] ?]. lia.
Qed.

Lemma float_lt_negtrans (x y z : float) :
  is_nan x = false -> is_nan y = false -> is_nan z = false ->
  float_lt x y = false -> float_lt y z = false -> float_lt x z = false.
Proof.
  intros Hx Hy Hz Hxy Hyz.
  destruct (float_lt x z) eqn:E; [|reflexivity].
  apply (float_lt_rank _ _ Hx Hz) in E.
  assert (Nxy : ~ lex_lt (float_rank x) (float_rank y)).
  { intros H. apply (float_lt_rank _ _ Hx Hy) in H. congruence. }
  assert (Nyz : ~ lex_lt (float_rank y) (float_rank z)).
  { intros H. apply (float_lt_rank _ _ Hy Hz) in H. congruence. }
  unfold lex_lt in *. destruct (float_rank x) as [[? ?] ?].
  destruct (float_rank y) as [[? ?] ?]. destruct (float_rank z) as [[? ?] ?].
  lia.
Qed.

(** ** Rounding to binary64 *)

Local Open Scope Z_scope.

Lemma digits2_pos_size (p : positive) : digits2_pos p = Pos.size p.
Proof. induction p; simpl; congruence. Qed.

Lemma Zdigits2_log2 (p : positive) :
  Zdigits2 (Zpos p) = Z.log2 (Zpos p) + 1.
Proof.
  destruct p; simpl; rewrite ?digits2_pos_size; lia.
Qed.

Lemma Zdigits2_nonneg (m : Z) : 0 <= Zdigits2 m.
Proof. destruct m; simpl; lia. Qed.

Lemma Zdigits2_le (m n : Z) : 0 <= m <= n -> Zdigits2 m <= Zdigits2 n.
Proof.
  intros [Hm Hn]. destruct m as [|p|p]; [apply Zdigits2_nonneg| |lia].
  destruct n as [|q|q]; try lia. rewrite !Zdigits2_log2.
  pose proof (Z.log2_le_mono (Zpos p) (Zpos q) Hn). lia.
Qed.

Lemma Zdigits2_pow2 (s : Z) : 0 <= s -> Zdigits2 (2 ^ s) = s + 1.
Proof.
  intros Hs. pose proof (Z.pow_pos_nonneg 2 s ltac:(lia) Hs) as Hp.
  destruct (2 ^ s) as [|p|p] eqn:E; try lia.
  rewrite Zdigits2_log2, <- E, Z.log2_pow2 by exact Hs. reflexivity.
Qed.

Lemma Zdigits2_succ (m : Z) : 0 <= m -> Zdigits2 (m + 1) <= Zdigits2 m + 1.
Proof.
  intros Hm. destruct m as [|p|p]; [simpl; lia| |lia].
  change (Zpos p + 1) with (Z.succ (Zpos p)).
  destruct (Z.succ (Zpos p)) as [|q|q] eqn:E; try lia.
  rewrite !Zdigits2_log2, <- E.
  pose proof (Z.log2_succ_le (Zpos p)). lia.
Qed.

Lemma shr_1_digits (r : shr_record) :
  0 <= shr_m r ->
  0 <= shr_m (shr_1 r) /\
  Zdigits2 (shr_m (shr_1 r)) = Z.max 0 (Zdigits2 (shr_m r) - 1).
Proof.
  destruct r as [m r s]. cbn [shr_m]. intros Hm.
  destruct m as [|[p|p|]|p];
    cbn [shr_1 shr_m Zdigits2 digits2_pos]; rewrite ?Pos2Z.inj_succ; lia.
Qed.

Lemma iter_shr_1_digits (n : positive) : forall r,
  0 <= shr_m r ->
  0 <= shr_m (iter_pos shr_1 n r) /\
  Zdigits2 (shr_m (iter_pos shr_1 n r))
  = Z.max 0 (Zdigits2 (shr_m r) - Zpos n).
Proof.
  induction n as [n IH|n IH|]; intros r Hr; simpl.
  - destruct (shr_1_digits r Hr) as [H0 D0].
    destruct (IH _ H0) as [H1 D1]. destruct (IH _ H1) as [H2 D2].
    split; [exact H2|]. rewrite D2, D1, D0. lia.
  - destruct (IH _ Hr) as [H1 D1]. destruct (IH _ H1) as [H2 D2].
    split; [exact H2|]. rewrite D2, D1. lia.
  - apply shr_1_digits, Hr.
Qed.

Lemma shr_record_of_loc_m (m : Z) (l : location) :
  shr_m (shr_record_of_loc m l) = m.
Proof. destruct l as [|[]]; reflexivity. Qed.

(** One alignment step: the mantissa stays non-negative, the exponent is
    raised to [fexp], and the magnitude does not grow. *)
Lemma shr_fexp_bounds (m e : Z) (l : location) :
  0 <= m ->
  let r := shr_fexp prec emax m e l in
  0 <= shr_m (fst r) /\
  snd r = Z.max e (fexp prec emax (Zdigits2 m + e)) /\
  Zdigits2 (shr_m (fst r)) + snd r <= Z.max (snd r) (Zdigits2 m + e).
Proof.
  intros Hm. unfold shr_fexp, shr.
  pose proof (Zdigits2_nonneg m) as Hd.
  destruct (fexp prec emax (Zdigits2 m + e) - e) as [|n|n] eqn:E; simpl;
    rewrite ?shr_record_of_loc_m; try (split; [exact Hm|lia]).
  destruct (iter_shr_1_digits n (shr_record_of_loc m l)) as [H D].
  { rewrite shr_record_of_loc_m. exact Hm. }
  rewrite shr_record_of_loc_m in D. split; [exact H|]. rewrite D. lia.
Qed.

Lemma round_nearest_even_bounds (m : Z) (l : location) :
  0 <= m ->
  0 <= round_nearest_even m l /\
  Zdigits2 (round_nearest_even m l) <= Zdigits2 m + 1.
Proof.
  intros Hm. pose proof (Zdigits2_succ Hm) as Hs.
  unfold round_nearest_even.
  destruct l as [|[]]; try destruct (Z.even m); split; lia.
Qed.

(** What [binary_round_aux] can return on a non-negative mantissa: never a
    NaN, and an infinity only if the exponent has to exceed the largest. *)
Lemma binary_round_aux_cases (s : bool) (m e : Z) (l : location) :
  0 <= m ->
  match binary_round_aux prec emax s m e l with
  | S754_nan => False
  | S754_infinity _ =>
      exists e1 d,
        e1 = Z.max e (fexp prec emax (Zdigits2 m + e)) /\
        d <= Z.max e1 (Zdigits2 m + e) + 1 /\
        emax - prec < Z.max e1 (fexp prec emax d)
  | _ => True
  end.
Proof.
  intros Hm. unfold binary_round_aux.
  pose proof (shr_fexp_bounds e l Hm) as (H1 & E1 & D1).
  destruct (shr_fexp prec emax m e l) as [mrs1 e1]. simpl in H1, E1, D1.
  pose proof (round_nearest_even_bounds (loc_of_shr_record mrs1) H1)
    as [H2 D2].
  pose proof (shr_fexp_bounds e1 loc_Exact H2) as (H3 & E3 & D3).
  destruct (shr_fexp prec emax _ e1 loc_Exact) as [mrs2 e2].
  simpl in H3, E3, D3.
  destruct (shr_m mrs2) as [|p|p]; [exact I| |lia].
  destruct (e2 <=? emax - prec) eqn:Ele; [exact I|].
  apply Z.leb_gt in Ele.
  exists e1, (Zdigits2 (round_nearest_even (shr_m mrs1)
                         (loc_of_shr_record mrs1)) + e1).
  split; [exact E1|]. split; [lia|]. lia.
Qed.

Lemma binary_round_aux_not_nan (s : bool) (m e : Z) (l : location) :
  0 <= m -> is_nan (binary_round_aux prec emax s m e l) = false.
Proof.
  intros Hm. pose proof (binary_round_aux_cases s e l Hm) as H.
  destruct (binary_round_aux prec emax s m e l); [reflexivity..|contradiction|reflexivity].
Qed.

Lemma binary_normalize_not_nan (m e : Z) (sz : bool) :
  is_nan (binary_normalize prec emax m e sz) = false.
Proof.
  unfold binary_normalize, binary_round.
  destruct m as [|p|p]; [reflexivity| |];
    destruct (shl_align _ _ _) as [mz ez];
    apply binary_round_aux_not_nan; lia.
Qed.

Lemma float_sub_one_not_nan (q : float) :
  is_finite q = true -> is_nan (float_sub float_one q) = false.
Proof.
  destruct q as [s|s| |s m e]; try discriminate; intros _.
  - reflexivity.
  - unfold float_sub, float_one, SFsub. apply binary_normalize_not_nan.
Qed.

Lemma div_eucl_fst (a b : Z) : fst (Z.div_eucl a b) = a / b.
Proof. unfold Z.div. destruct (Z.div_eucl a b). reflexivity. Qed.

(** The quotient and exponent [SFdiv] rounds, for integer operands. *)
Lemma SFdiv_core_bounds (m1 m2 : positive) :
  let r := SFdiv_core_binary prec emax (Zpos m1) 0 (Zpos m2) 0 in
  0 <= fst (fst r) /\
  (Zpos m1 <= Zpos m2 ->
   snd (fst r) <= -53 /\ Zdigits2 (fst (fst r)) + snd (fst r) <= 1).
Proof.
  unfold SFdiv_core_binary.
  set (e' := Z.min (fexp prec emax
                      (Zdigits2 (Zpos m1) + 0 - (Zdigits2 (Zpos m2) + 0)))
               (0 - 0)).
  set (m' := match 0 - 0 - e' with
             | Zpos _ => Z.shiftl (Zpos m1) (0 - 0 - e')
             | Z0 => Zpos m1
             | Zneg _ => 0
             end).
  pose proof (div_eucl_fst m' (Zpos m2)) as Hq.
  destruct (Z.div_eucl m' (Zpos m2)) as [q r]. simpl in Hq. simpl.
  assert (Hm' : 0 <= m').
  { unfold m'. destruct (0 - 0 - e'); try lia.
    apply Z.shiftl_nonneg. lia. }
  split.
  - subst q. apply Z.div_pos; lia.
  - intros Hle.
    pose proof (Zdigits2_le (conj (Pos2Z.is_nonneg m1) Hle)) as Hd.
    assert (He : -1074 <= e' <= -53).
    { unfold e', fexp, emin, prec, emax. lia. }
    split; [lia|].
    assert (Hs : m' = Zpos m1 * 2 ^ (- e')).
    { unfold m'. replace (0 - 0 - e') with (- e') by lia.
      destruct (- e') as [|p|p] eqn:E; try lia.
      rewrite Z.shiftl_mul_pow2 by lia. reflexivity. }
    assert (Hp : 0 < 2 ^ (- e')) by (apply Z.pow_pos_nonneg; lia).
    assert (Hq2 : q <= 2 ^ (- e')).
    { subst q. apply Z.div_le_upper_bound; [lia|]. rewrite Hs. nia. }
    assert (Hq0 : 0 <= q) by (subst q; apply Z.div_pos; lia).
    pose proof (Zdigits2_le (conj Hq0 Hq2)) as Hdq.
    rewrite Zdigits2_pow2 in Hdq by lia. lia.
Qed.

Lemma SFdiv_int_cases (s1 s2 : bool) (m1 m2 : positive) :
  let q := SFdiv prec emax (S754_finite s1 m1 0) (S754_finite s2 m2 0) in
  is_nan q = false /\
  (Zpos m1 <= Zpos m2 -> is_finite q = true).
Proof.
  unfold SFdiv.
  pose proof (SFdiv_core_bounds m1 m2) as [H0 Hle].
  destruct (SFdiv_core_binary prec emax (Zpos m1) 0 (Zpos m2) 0)
    as [[mz ez] lz]. simpl in H0, Hle.
  pose proof (binary_round_aux_cases (xorb s1 s2) ez lz H0) as Hc.
  destruct (binary_round_aux prec emax (xorb s1 s2) mz ez lz)
    as [s|s| |s m e]; try contradiction; split; try reflexivity.
  intros H. destruct (Hle H) as [He Hd].
  destruct Hc as (e1 & d & E1 & D & Hbig). exfalso.
  unfold fexp, emin, prec, emax in *. lia.
Qed.

Lemma int_true_divide_finite (a b : Z) (q : float) :
  int_true_divide a b = Some q -> is_finite q = true.
Proof.
  unfold int_true_divide.
  destruct a as [|pa|pa], b as [|pb|pb]; try discriminate;
    try (intros [= <-]; reflexivity);
    match goal with
    | |- context [SFdiv prec emax (S754_finite ?s1 ?m1 0)
                    (S754_finite ?s2 ?m2 0)] =>
        pose proof (SFdiv_int_cases s1 s2 m1 m2) as [Hn _];
        destruct (SFdiv prec emax (S754_finite s1 m1 0)
                    (S754_finite s2 m2 0))
    end; try discriminate; intros [= <-]; reflexivity.
Qed.

Lemma int_true_divide_ratio (c a : Z) :
  0 <= c <= a -> 0 < a -> exists q, int_true_divide c a = Some q.
Proof.
  intros [Hc Hca] Ha. unfold int_true_divide.
  destruct c as [|pc|pc], a as [|pa|pa]; try lia.
  - eexists. reflexivity.
  - pose proof (SFdiv_int_cases false false pc pa) as [_ Hf].
    specialize (Hf Hca). cbn [Z.ltb Z.compare Z.abs Z.to_pos].
    destruct (SFdiv prec emax _ _); try discriminate; eexists; reflexivity.
Qed.

Local Close Scope Z_scope.

(** ** Sorting *)

Section SortFacts.

Variables (A Key : Type) (lt : Key -> Key -> bool) (key : A -> Key).

(** The keys on which [lt] is a strict weak order. *)
Variable ordered : Key -> Prop.
Hypothesis lt_asym :
  forall x y, ordered x -> ordered y -> lt x y = true -> lt y x = false.
Hypothesis lt_negtrans :
  forall x y z, ordered x -> ordered y -> ordered z ->
    lt x y = false -> lt y z = false -> lt x z = false.

Lemma insert_desc_perm (x : A) (l : list A) :
  Permutation (insert_desc lt key x l) (x :: l).
Proof.
  induction l as [|y l IH]; simpl; [reflexivity|].
  destruct (lt (key x) (key y)); [|reflexivity].
  rewrite IH. apply perm_swap.
Qed.

Lemma sort_desc_perm (l : list A) : Permutation (sort_desc lt key l) l.
Proof.
  induction l as [|x l IH]; simpl; [reflexivity|].
  rewrite insert_desc_perm. now constructor.
Qed.

Lemma insert_desc_sorted (x : A) (l : list A) :
  ordered (key x) -> Forall (fun y => ordered (key y)) l ->
  StronglySorted (not_below lt key) l ->
  StronglySorted (not_below lt key) (insert_desc lt key x l).
Proof.
  intros Hx Hl Hs. induction Hs as [|y l Hs IH Hy]; simpl.
  - repeat constructor.
  - inversion Hl as [|? ? Hoy Hol]; subst.
    destruct (lt (key x) (key y)) eqn:E.
    + constructor; [apply IH, Hol|].
      apply (Permutation_Forall (Permutation_sym (insert_desc_perm x l))).
      constructor; [|exact Hy]. apply lt_asym; assumption.
    + constructor; [constructor; assumption|].
      constructor; [exact E|].
      rewrite Forall_forall in *. intros z Hz.
      apply (lt_negtrans Hx Hoy (Hol z Hz) E (Hy z Hz)).
Qed.

Lemma sort_desc_sorted (l : list A) :
  Forall (fun y => ordered (key y)) l ->
  StronglySorted (not_below lt key) (sort_desc lt key l).
Proof.
  induction 1 as [|x l Hx Hl IH]; simpl; [constructor|].
  apply insert_desc_sorted; [exact Hx| |exact IH].
  apply (Permutation_Forall (Permutation_sym (sort_desc_perm l))), Hl.
Qed.

(** The sort is stable: the items that tie with a key keep their order. *)
Lemma insert_desc_ties (k : Key) (x : A) (l : list A) :
  ordered k -> ordered (key x) -> Forall (fun y => ordered (key y)) l ->
  filter (ties lt key k) (insert_desc lt key x l) = filter (ties lt key k) (x :: l).
Proof.
  intros Hk Hx Hl. induction Hl as [|y l Hy Hl IH]; [reflexivity|].
  cbn [insert_desc]. destruct (lt (key x) (key y)) eqn:E; [|reflexivity].
  cbn [filter] in *. rewrite IH.
  destruct (ties lt key k x) eqn:Tx; [|reflexivity].
  destruct (ties lt key k y) eqn:Ty; [|reflexivity]. exfalso.
  unfold ties in Tx, Ty. apply andb_true_iff in Tx as [T1 T2].
  apply andb_true_iff in Ty as [T3 T4]. apply negb_true_iff in T1, T2, T3, T4.
  pose proof (lt_negtrans Hx Hk Hy T2 T3). congruence.
Qed.

Lemma sort_desc_stable (k : Key) (l : list A) :
  ordered k -> Forall (fun y => ordered (key y)) l ->
  filter (ties lt key k) (sort_desc lt key l) = filter (ties lt key k) l.
Proof.
  intros Hk Hl. induction Hl as [|x l Hx Hl IH]; [reflexivity|].
  cbn [sort_desc fold_right]. fold (sort_desc lt key l).
  rewrite insert_desc_ties; [|exact Hk|exact Hx|].
  - cbn [filter]. rewrite IH. reflexivity.
  - apply (Permutation_Forall (Permutation_sym (sort_desc_perm l))), Hl.
Qed.

End SortFacts.

(** ** The selector *)

Lemma error_rate_not_nan (st : stats) (r : float) :
  error_rate st = Some r -> is_nan r = false.
Proof.
  unfold error_rate. destruct (0 <? asked st)%Z.
  - destruct (int_true_divide (correct st) (asked st)) as [q|] eqn:E;
      [|discriminate].
    intros [= <-]. apply float_sub_one_not_nan.
    apply (int_true_divide_finite _ _ E).
  - intros [= <-]. reflexivity.
Qed.

Lemma error_rate_total (st : stats) :
  (0 <= correct st <= asked st)%Z -> exists r, error_rate st = Some r.
Proof.
  intros H. unfold error_rate. destruct (0 <? asked st)%Z eqn:E.
  - apply Z.ltb_lt in E.
    destruct (@int_true_divide_ratio (correct st) (asked st) H E) as [q ->].
    eexists. reflexivity.
  - eexists. reflexivity.
Qed.

Lemma stats_for_ok (memory : memory_t) (w : str) :
  wf_memory memory -> counts_ok (stats_for memory w).
Proof.
  intros H. unfold stats_for. destruct (mem_get memory w) eqn:E.
  - apply (mem_get_Forall counts_ok w H E).
  - unfold counts_ok. simpl. lia.
Qed.

Lemma file_items_spec (memory : memory_t) (vocab : dict str str) :
  wf_memory memory ->
  exists items,
    file_items vocab memory = Some items /\
    List.map word_meaning items = vocab /\
    Forall (rated memory) items.
Proof.
  intros Hwf. induction vocab as [|[w m] vocab (items & E & Hmap & Hr)].
  - exists []. repeat split. constructor.
  - simpl. destruct (@error_rate_total (stats_for memory w) (stats_for_ok w Hwf))
      as [r Er].
    rewrite Er, E. exists ((r, w, m) :: items).
    split; [reflexivity|]. split; [simpl; now rewrite Hmap|].
    constructor; [exact Er|exact Hr].
Qed.

Lemma memory_items_spec (memory records : memory_t) :
  Forall (fun kv => (0 <= correct (snd kv))%Z) records ->
  (forall w st, In (w, st) records -> mem_get memory w = Some st) ->
  exists items,
    memory_items records = Some items /\
    List.map word_meaning items
    = List.map (fun kv => (fst kv, meaning_or_empty (snd kv)))
        (filter missed records) /\
    Forall (rated memory) items.
Proof.
  intros Hnn. induction Hnn as [|[w st] records Hst Hnn IH]; intros Hget.
  - exists []. repeat split. constructor.
  - destruct IH as (items & E & Hmap & Hr).
    { intros w' st' Hin. apply Hget. now right. }
    cbn [memory_items filter]. unfold missed at 1. cbn [snd fst].
    destruct ((0 <? asked st) && (correct st <? asked st))%Z eqn:Em.
    + apply andb_true_iff in Em as [Ea Ec].
      apply Z.ltb_lt in Ea, Ec. simpl in Hst.
      destruct (@int_true_divide_ratio (correct st) (asked st)) as [q Eq];
        [lia|lia|].
      rewrite Eq, E. eexists. split; [reflexivity|].
      split; [simpl; now rewrite Hmap|].
      constructor; [|exact Hr]. unfold rated, rate_of, stats_for.
      cbn [fst snd]. rewrite (Hget w st (or_introl eq_refl)).
      unfold error_rate. apply Z.ltb_lt in Ea. rewrite Ea, Eq. reflexivity.
    + exists items. repeat split; assumption.
Qed.

Lemma rated_ordered (memory : memory_t) (items : list (float * str * str)) :
  Forall (rated memory) items ->
  Forall (fun x => is_nan (rate_key x) = false) items.
Proof.
  apply Forall_impl. intros x Hx. apply (error_rate_not_nan _ Hx).
Qed.

Lemma StronglySorted_map (A B : Type) (R : A -> A -> Prop)
    (R' : B -> B -> Prop) (f : A -> B) (l : list A) :
  (forall a b, In a l -> In b l -> R a b -> R' (f a) (f b)) ->
  StronglySorted R l -> StronglySorted R' (List.map f l).
Proof.
  intros Himp Hs. induction Hs as [|x l Hs IH Hx]; simpl; constructor.
  - apply IH. intros a b Ha Hb. apply Himp; now right.
  - rewrite Forall_forall in *. intros y Hy.
    apply in_map_iff in Hy as (z & <- & Hz).
    apply Himp; [now left|now right|]. apply Hx, Hz.
Qed.

(** Sorting rated items and dropping the rates gives a list in decreasing
    order of rate. *)
Lemma sorted_by_rate (memory : memory_t) (items : list (float * str * str)) :
  Forall (rated memory) items ->
  StronglySorted (rate_not_below memory)
    (List.map word_meaning (sort_desc float_lt rate_key items)).
Proof.
  intros Hr.
  assert (Hr' : Forall (rated memory) (sort_desc float_lt rate_key items)).
  { apply (Permutation_Forall
             (Permutation_sym (sort_desc_perm float_lt rate_key items))), Hr. }
  apply StronglySorted_map with (R := not_below float_lt rate_key).
  - rewrite Forall_forall in Hr'. intros a b Ha Hb Hab.
    exists (rate_key a), (rate_key b).
    split; [apply (Hr' a Ha)|]. split; [apply (Hr' b Hb)|exact Hab].
  - apply sort_desc_sorted with (ordered := fun k => is_nan k = false).
    + intros x y. apply float_lt_asym.
    + intros x y z. apply float_lt_negtrans.
    + apply (rated_ordered Hr).
Qed.

Lemma sorted_precedes (A : Type) (R : A -> A -> Prop) (l : list A) (a b : A) :
  StronglySorted R l -> In a l -> In b l -> a <> b -> ~ R a b ->
  exists l1 l2 l3, l = l1 ++ b :: l2 ++ a :: l3.
Proof.
  intros Hs Ha Hb Hab Hn. induction Hs as [|x l Hs IH Hx]; [destruct Ha|].
  destruct Ha as [->|Ha], Hb as [->|Hb].
  - congruence.
  - rewrite Forall_forall in Hx. destruct (Hn (Hx b Hb)).
  - apply in_split in Ha as (l2 & l3 & ->). now exists [], l2, l3.
  - destruct (IH Ha Hb) as (l1 & l2 & l3 & ->). now exists (x :: l1), l2, l3.
Qed.

Lemma slice_to_positive (A : Type) (items : list A) (limit : Z) :
  (0 < limit)%Z -> slice_to items limit = firstn (Z.to_nat limit) items.
Proof.
  intros H. unfold slice_to. apply Z.lt_le_incl, Z.leb_le in H.
  now rewrite H.
Qed.

(** C2, with the limit as the code reads it.  In file mode, on a memory
    whose records satisfy [0 <= correct <= asked], [select_words] returns
    the pairs of the vocabulary, each once, in decreasing order of the rate
    [1.0 - (correct/asked if asked>0 else 0)] of the word's record, a word
    without a record counting as never asked and so getting the rate [1.0].
    A positive limit cuts the result to its first [limit] items, and a limit
    of 0 is no limit.  A word with 10 right answers out of 10 comes after a
    word never asked. *)
Theorem select_words_file_mode (vocab : dict str str) (memory : memory_t) :
  vocab <> [] -> wf_memory memory ->
  exists selected,
    select_words vocab memory None = Some selected /\
    Permutation selected vocab /\
    StronglySorted (rate_not_below memory) selected /\
    (forall w, mem_get memory w = None -> rate_of memory w = Some float_one) /\
    (forall limit, (0 < limit)%Z ->
       select_words vocab memory (Some limit)
       = Some (firstn (Z.to_nat limit) selected)) /\
    select_words vocab memory (Some 0%Z) = Some selected /\
    (forall a b ma mb sa sb,
       In (a, ma) vocab -> In (b, mb) vocab ->
       mem_get memory a = Some sa -> asked sa = 10%Z -> correct sa = 10%Z ->
       mem_get memory b = Some sb -> asked sb = 0%Z -> correct sb = 0%Z ->
       exists l1 l2 l3, selected = l1 ++ (b, mb) :: l2 ++ (a, ma) :: l3).
Proof.
  intros Hne Hwf.
  destruct (file_items_spec vocab Hwf) as (items & E & Hmap & Hr).
  set (sorted := sort_desc float_lt rate_key items).
  assert (Hsel : forall limit,
            select_words vocab memory limit
            = Some (List.map word_meaning
                      match limit with
                      | Some l => if (l =? 0)%Z then sorted
                                  else slice_to sorted l
                      | None => sorted
                      end)).
  { intros limit. unfold select_words.
    destruct vocab; [congruence|]. rewrite E. reflexivity. }
  assert (Hperm : Permutation (List.map word_meaning sorted) vocab).
  { rewrite <- Hmap. apply Permutation_map, sort_desc_perm. }
  assert (Hsorted : StronglySorted (rate_not_below memory)
                      (List.map word_meaning sorted)).
  { apply sorted_by_rate, Hr. }
  exists (List.map word_meaning sorted).
  split; [apply Hsel|]. split; [exact Hperm|]. split; [exact Hsorted|].
  split; [|split; [|split]].
  - intros w Hw. unfold rate_of, stats_for. rewrite Hw. reflexivity.
  - intros limit Hl. rewrite Hsel.
    rewrite (proj2 (Z.eqb_neq limit 0)) by lia.
    rewrite slice_to_positive by exact Hl. now rewrite firstn_map.
  - apply Hsel.
  - intros a b ma mb sa sb Ha Hb Ea Haa Hca Eb Hab Hcb.
    assert (Ra : rate_of memory a = Some (S754_zero false)).
    { unfold rate_of, stats_for. rewrite Ea. unfold error_rate.
      rewrite Haa, Hca. reflexivity. }
    assert (Rb : rate_of memory b = Some float_one).
    { unfold rate_of, stats_for. rewrite Eb. unfold error_rate.
      rewrite Hab. reflexivity. }
    apply (sorted_precedes Hsorted).
    + apply (Permutation_in _ (Permutation_sym Hperm)), Ha.
    + apply (Permutation_in _ (Permutation_sym Hperm)), Hb.
    + intros [= -> _]. congruence.
    + intros (ra & rb & Hra & Hrb & Hlt). cbn [fst] in Hra, Hrb.
      rewrite Ra in Hra. rewrite Rb in Hrb.
      injection Hra as <-. injection Hrb as <-. discriminate Hlt.
Qed.

(** C4.  In memory-only mode, on a memory whose [correct] counts are not
    negative, [select_words] returns exactly the stored words with
    [asked > 0] and [correct < asked], each once and paired with the meaning
    of its record or with the empty string, in decreasing order of
    [1.0 - correct/asked].  A word whose record has no miss outstanding, as
    one with 5 right answers out of 5, is not in the result. *)
Theorem select_words_memory_mode (memory : memory_t) :
  NoDup (dict_keys memory) ->
  Forall (fun kv => (0 <= correct (snd kv))%Z) memory ->
  exists selected,
    select_words [] memory None = Some selected /\
    Permutation selected
      (List.map (fun kv => (fst kv, meaning_or_empty (snd kv)))
         (filter missed memory)) /\
    StronglySorted (rate_not_below memory) selected /\
    (forall w m,
       In (w, m) selected <->
       exists st, mem_get memory w = Some st /\
         (0 < asked st)%Z /\ (correct st < asked st)%Z /\
         m = meaning_or_empty st) /\
    (forall w st,
       mem_get memory w = Some st -> asked st = 5%Z -> correct st = 5%Z ->
       ~ In w (List.map fst selected)).
Proof.
  intros Hnd Hnn.
  destruct (@memory_items_spec memory memory Hnn) as (items & E & Hmap & Hr).
  { intros w st. apply (In_dict_get _ str_eqb_eq _ _ _ Hnd). }
  set (selected := List.map word_meaning (sort_desc float_lt rate_key items)).
  assert (Hperm : Permutation selected
            (List.map (fun kv => (fst kv, meaning_or_empty (snd kv)))
               (filter missed memory))).
  { rewrite <- Hmap. apply Permutation_map, sort_desc_perm. }
  assert (Hin : forall w m,
            In (w, m) selected <->
            exists st, mem_get memory w = Some st /\
              (0 < asked st)%Z /\ (correct st < asked st)%Z /\
              m = meaning_or_empty st).
  { intros w m. split.
    - intros H. apply (Permutation_in _ Hperm) in H.
      apply in_map_iff in H as ([w' st] & [= <- <-] & H).
      apply filter_In in H as [H Hm]. exists st.
      split; [apply (In_dict_get _ str_eqb_eq _ _ _ Hnd H)|].
      unfold missed in Hm. cbn [snd] in Hm.
      apply andb_true_iff in Hm as [Ha Hc]. apply Z.ltb_lt in Ha, Hc. auto.
    - intros (st & Hg & Ha & Hc & ->).
      apply (Permutation_in _ (Permutation_sym Hperm)).
      apply in_map_iff. exists (w, st). split; [reflexivity|].
      apply filter_In. split; [apply (dict_get_In _ str_eqb_eq _ _ Hg)|].
      unfold missed. cbn [snd]. apply andb_true_iff.
      split; apply Z.ltb_lt; assumption. }
  exists selected. split; [|split; [exact Hperm|split; [|split]]].
  - unfold select_words. rewrite E. reflexivity.
  - apply sorted_by_rate, Hr.
  - exact Hin.
  - intros w st Hg Ha Hc Hw. apply in_map_iff in Hw as ([w' m] & <- & Hw).
    apply Hin in Hw as (st' & Hg' & _ & Hlt & _). cbn [fst] in Hg.
    rewrite Hg in Hg'. injection Hg' as <-. lia.
Qed.

Lemma select_words_file_mode_witness :
  let vocab := [(u "A", u "m1"); (u "B", u "m2")] in
  let memory := [(u "A", mkStats 10 10 None); (u "B", mkStats 0 0 None)] in
  (vocab <> [] /\ wf_memory memory) /\
  select_words vocab memory None = Some [(u "B", u "m2"); (u "A", u "m1")] /\
  exists selected,
    select_words vocab memory None = Some selected /\
    Permutation selected vocab /\
    StronglySorted (rate_not_below memory) selected.
Proof.
  intros vocab memory.
  assert (Hne : vocab <> []) by discriminate.
  assert (Hwf : wf_memory memory).
  { repeat constructor; simpl; lia. }
  split; [split; assumption|]. split; [reflexivity|].
  destruct (select_words_file_mode Hne Hwf) as (sel & H1 & H2 & H3 & _).
  exists sel. repeat split; assumption.
Defined.

(** C2, as the spec puts it, fails: a limit of 0 is given and nothing is
    cut. *)
Lemma select_words_limit_counterexample :
  let vocab := [(u "A", u "m1"); (u "B", u "m2")] in
  exists selected,
    select_words vocab [] None = Some selected /\
    select_words vocab [] (Some 0%Z) = Some selected /\
    select_words vocab [] (Some 0%Z) <> Some (firstn 0 selected).
Proof.
  intros vocab. exists vocab. repeat split. discriminate.
Qed.

Lemma select_words_memory_mode_witness :
  let memory := [(u "A", mkStats 5 5 (Some (u "m1")));
                 (u "B", mkStats 4 1 (Some (u "m2")));
                 (u "C", mkStats 4 0 None)] in
  (NoDup (dict_keys memory) /\
   Forall (fun kv => (0 <= correct (snd kv))%Z) memory) /\
  select_words [] memory None = Some [(u "C", []); (u "B", u "m2")] /\
  exists selected,
    select_words [] memory None = Some selected /\
    ~ In (u "A") (List.map fst selected).
Proof.
  intros memory.
  assert (Hnd : NoDup (dict_keys memory)).
  { repeat constructor; simpl; intuition discriminate. }
  assert (Hnn : Forall (fun kv => (0 <= correct (snd kv))%Z) memory).
  { repeat constructor; simpl; lia. }
  split; [split; assumption|]. split; [reflexivity|].
  destruct (select_words_memory_mode Hnd Hnn) as (sel & H1 & _ & _ & _ & H5).
  exists sel. split; [exact H1|].
  apply (H5 (u "A") (mkStats 5 5 (Some (u "m1")))); reflexivity.
Defined.

(** ** UTF-8 *)

Lemma Some_eq (A : Type) (x y : A) : Some x = Some y -> x = y.
Proof. congruence. Qed.

Section Utf8Facts.

#[local] Ltac Zify.zify_post_hook ::= Z.to_euclidean_division_equations.

Lemma utf8_char_decode (c : char) (bs rest : bytes) (s : str) :
  utf8_char c = Some bs -> utf8_decode rest = Some s ->
  utf8_decode (bs ++ rest) = Some (c :: s).
Proof.
  unfold utf8_char. intros Hc Hr.
  destruct (N.ltb_spec c 0x80).
  { apply Some_eq in Hc. subst bs. cbn [app utf8_decode].
    rewrite (proj2 (N.ltb_lt c 0x80)) by assumption. now rewrite Hr. }
  destruct (N.ltb_spec c 0x800).
  { apply Some_eq in Hc. subst bs. cbn [app utf8_decode].
    rewrite (proj2 (N.ltb_ge _ 0x80)) by lia.
    replace ((0xC2 <=? 0xC0 + c / 64) && (0xC0 + c / 64 <=? 0xDF))%N
      with true by (symmetry; apply andb_true_iff; split; apply N.leb_le; lia).
    replace (is_cont (0x80 + c mod 64)) with true
      by (symmetry; apply andb_true_iff; split; apply N.leb_le; lia).
    rewrite Hr. do 2 f_equal. lia. }
  destruct (N.ltb_spec c 0x10000).
  { destruct (is_surrogate c) eqn:Es; [discriminate|].
    apply Some_eq in Hc. subst bs. cbn [app utf8_decode].
    rewrite (proj2 (N.ltb_ge _ 0x80)) by lia.
    replace ((0xC2 <=? 0xE0 + c / 4096) && (0xE0 + c / 4096 <=? 0xDF))%N
      with false by (symmetry; apply andb_false_iff; right; apply N.leb_gt; lia).
    replace ((0xE0 <=? 0xE0 + c / 4096) && (0xE0 + c / 4096 <=? 0xEF))%N
      with true by (symmetry; apply andb_true_iff; split; apply N.leb_le; lia).
    replace ((0xE0 + c / 4096 - 0xE0) * 4096 + (0x80 + (c / 64) mod 64 - 0x80) * 64
             + (0x80 + c mod 64 - 0x80))%N with c by lia.
    replace (is_cont (0x80 + (c / 64) mod 64)) with true
      by (symmetry; apply andb_true_iff; split; apply N.leb_le; lia).
    replace (is_cont (0x80 + c mod 64)) with true
      by (symmetry; apply andb_true_iff; split; apply N.leb_le; lia).
    rewrite (proj2 (N.leb_le 0x800 c)) by assumption.
    rewrite Es, Hr. reflexivity. }
  destruct (N.ltb_spec c 0x110000); [|discriminate].
  apply Some_eq in Hc. subst bs. cbn [app utf8_decode].
  rewrite (proj2 (N.ltb_ge _ 0x80)) by lia.
  replace ((0xC2 <=? 0xF0 + c / 262144) && (0xF0 + c / 262144 <=? 0xDF))%N
    with false by (symmetry; apply andb_false_iff; right; apply N.leb_gt; lia).
  replace ((0xE0 <=? 0xF0 + c / 262144) && (0xF0 + c / 262144 <=? 0xEF))%N
    with false by (symmetry; apply andb_false_iff; right; apply N.leb_gt; lia).
  replace ((0xF0 <=? 0xF0 + c / 262144) && (0xF0 + c / 262144 <=? 0xF4))%N
    with true by (symmetry; apply andb_true_iff; split; apply N.leb_le; lia).
  replace ((0xF0 + c / 262144 - 0xF0) * 262144
           + (0x80 + (c / 4096) mod 64 - 0x80) * 4096
           + (0x80 + (c / 64) mod 64 - 0x80) * 64
           + (0x80 + c mod 64 - 0x80))%N with c by lia.
  replace (is_cont (0x80 + (c / 4096) mod 64)) with true
    by (symmetry; apply andb_true_iff; split; apply N.leb_le; lia).
  replace (is_cont (0x80 + (c / 64) mod 64)) with true
    by (symmetry; apply andb_true_iff; split; apply N.leb_le; lia).
  replace (is_cont (0x80 + c mod 64)) with true
    by (symmetry; apply andb_true_iff; split; apply N.leb_le; lia).
  rewrite (proj2 (N.leb_le 0x10000 c)) by assumption.
  rewrite (proj2 (N.ltb_lt c 0x110000)) by assumption.
  rewrite Hr. reflexivity.
Qed.

Lemma utf8_encode_decode (s : str) (bs : bytes) :
  utf8_encode s = Some bs -> utf8_decode bs = Some s.
Proof.
  revert bs. induction s as [|c s IH]; intros bs; cbn [utf8_encode].
  - intros [= <-]. reflexivity.
  - destruct (utf8_char c) as [cb|] eqn:Ec; [|discriminate].
    destruct (utf8_encode s) as [rest|]; [|discriminate].
    intros [= <-]. apply utf8_char_decode; [exact Ec|now apply IH].
Qed.

Lemma utf8_char_encodable (c : char) :
  encodable c = true -> exists bs, utf8_char c = Some bs.
Proof.
  unfold encodable, utf8_char, is_surrogate. intros H.
  destruct (N.ltb_spec c 0x80); [eexists; reflexivity|].
  destruct (N.ltb_spec c 0x800); [eexists; reflexivity|].
  destruct (N.ltb_spec c 0x10000).
  - replace ((0xD800 <=? c) && (c <=? 0xDFFF))%N with false;
      [eexists; reflexivity|].
    symmetry. apply andb_false_iff.
    apply orb_true_iff in H as [H|H].
    + left. apply N.leb_gt. now apply N.ltb_lt.
    + right. apply andb_true_iff in H as [H _]. apply N.leb_gt.
      now apply N.ltb_lt.
  - apply orb_true_iff in H as [H|H].
    + apply N.ltb_lt in H. lia.
    + apply andb_true_iff in H as [_ H]. rewrite H. eexists. reflexivity.
Qed.

Lemma utf8_encode_encodable (s : str) :
  forallb encodable s = true -> exists bs, utf8_encode s = Some bs.
Proof.
  induction s as [|c s IH]; cbn [forallb utf8_encode].
  - intros _. eexists. reflexivity.
  - intros H. apply andb_true_iff in H as [Hc Hs].
    destruct (utf8_char_encodable _ Hc) as [cb ->].
    destruct (IH Hs) as [rest ->]. eexists. reflexivity.
Qed.

End Utf8Facts.

(** ** Strings in JSON *)

Lemma small_char_cases (c : char) (P : char -> Prop) :
  (c < 0x20)%N ->
  (forall n, In n (List.map N.of_nat (seq 0 32)) -> P n) -> P c.
Proof.
  intros Hc HP. apply HP. apply in_map_iff.
  exists (N.to_nat c). split; [apply N2Nat.id|].
  apply in_seq. lia.
Qed.

Lemma hex4_escape_u (c : char) :
  (c < 0x20)%N ->
  exists h1 h2 h3 h4,
    escape_u c = [0x5C; 0x75; h1; h2; h3; h4]%N /\ hex4 h1 h2 h3 h4 = Some c.
Proof.
  intros Hc. apply (small_char_cases (fun c => exists h1 h2 h3 h4,
    escape_u c = [0x5C; 0x75; h1; h2; h3; h4]%N /\ hex4 h1 h2 h3 h4 = Some c)
    Hc).
  intros n Hn. simpl in Hn.
  repeat (destruct Hn as [<-|Hn];
          [do 4 eexists; split; reflexivity|]).
  destruct Hn.
Qed.

Lemma scanstring_escaped (s rest : str) :
  scanstring (flat_map escape_char s ++ 0x22%N :: rest) = Some (s, rest).
Proof.
  induction s as [|c s IH]; [reflexivity|].
  cbn [flat_map]. rewrite <- app_assoc. unfold escape_char at 1.
  repeat match goal with
         | |- context [if (c =? ?k)%N then _ else _] =>
             destruct (N.eqb_spec c k);
             [subst c; cbn; rewrite IH; reflexivity|]
         end.
  destruct (N.ltb_spec c 0x20) as [Hlt|Hge].
  - destruct (hex4_escape_u Hlt) as (h1 & h2 & h3 & h4 & -> & Hh).
    cbn [app scanstring N.eqb Pos.eqb]. rewrite Hh, IH.
    replace (is_high_surrogate c) with false; [reflexivity|].
    unfold is_high_surrogate. symmetry. apply andb_false_iff. left.
    apply N.leb_gt. lia.
  - cbn [app scanstring].
    rewrite (proj2 (N.eqb_neq c 0x22)), (proj2 (N.eqb_neq c 0x5C))
      by assumption.
    rewrite (proj2 (N.leb_gt c 0x1F)) by lia. rewrite IH. reflexivity.
Qed.

(** ** Integers in JSON *)

Lemma nzhead_head (d : uint) :
  match nzhead d with
  | D0 _ => False
  | _ => True
  end.
Proof. induction d; simpl; auto. Qed.

Lemma to_uint_head (p : positive) : head_nonzero (Pos.to_uint p).
Proof.
  pose proof (DecimalPos.Unsigned.to_of (Pos.to_uint p)) as H.
  rewrite DecimalPos.Unsigned.of_to in H. cbn [N.to_uint] in H.
  pose proof (DecimalPos.Unsigned.to_uint_nonzero p) as Hz.
  pose proof (nzhead_head (Pos.to_uint p)) as Hh.
  unfold unorm in H. destruct (nzhead (Pos.to_uint p)) eqn:E;
    rewrite H in *; try exact I; contradiction.
Qed.

Lemma value_end_digits (rest : str) :
  value_end rest = true -> scan_digits rest = (Nil, rest).
Proof.
  destruct rest as [|c r]; [reflexivity|]. cbn [value_end scan_digits].
  intros H. apply orb_true_iff in H as [H|H]; apply N.eqb_eq in H; subst c;
    reflexivity.
Qed.

Lemma value_end_float (rest : str) :
  value_end rest = true -> float_follows rest = false.
Proof.
  destruct rest as [|c [|d r]]; try reflexivity. cbn [value_end].
  intros H. apply orb_true_iff in H as [H|H]; apply N.eqb_eq in H; subst c;
    reflexivity.
Qed.

Lemma scan_digits_chars (d : uint) (rest : str) :
  value_end rest = true -> scan_digits (uint_chars d ++ rest) = (d, rest).
Proof.
  intros H. induction d; cbn [uint_chars app];
    [apply value_end_digits, H|..];
    cbn [scan_digits digit_of N.eqb Pos.eqb]; rewrite IHd; reflexivity.
Qed.

Lemma scan_integer_chars (d : uint) (rest : str) :
  d = Decimal.zero \/ head_nonzero d -> value_end rest = true ->
  scan_integer (uint_chars d ++ rest) = Some (d, rest).
Proof.
  intros [->|Hd] H; [reflexivity|].
  pose proof (scan_digits_chars d rest H) as Hs.
  destruct d; try contradiction; cbn [uint_chars app] in *;
    unfold scan_integer; cbn [N.eqb Pos.eqb is_digit digit_of];
    rewrite Hs; reflexivity.
Qed.

Lemma to_int_shape (z : Z) :
  match Z.to_int z with
  | Pos d | Neg d => d = Decimal.zero \/ head_nonzero d
  end.
Proof.
  destruct z; simpl; [left; reflexivity| |]; right; apply to_uint_head.
Qed.

Lemma uint_chars_not_minus (d : uint) (rest : str) :
  d = Decimal.zero \/ head_nonzero d ->
  exists c r, uint_chars d ++ rest = c :: r /\ (c =? 0x2D)%N = false.
Proof.
  intros [->|H]; [do 2 eexists; split; reflexivity|].
  destruct d; try contradiction; do 2 eexists; split; reflexivity.
Qed.

Section IntFacts.

Variable max_str_digits : nat.

Lemma match_number_repr (z : Z) (text rest : str) :
  int_repr max_str_digits z = Some text -> value_end rest = true ->
  match_number max_str_digits (text ++ rest) = Some (JInt z, rest).
Proof.
  unfold int_repr. intros Hr He.
  pose proof (to_int_shape z) as Hs. pose proof (DecimalZ.of_to z) as Hz.
  destruct (Z.to_int z) as [d|d]; destruct (too_long max_str_digits d) eqn:El;
    try discriminate; injection Hr as <-; unfold match_number.
  - destruct (uint_chars_not_minus rest Hs) as (c & r & E & Hc).
    rewrite E, Hc, <- E. rewrite (scan_integer_chars rest Hs He).
    rewrite (value_end_float rest He), El, Hz. reflexivity.
  - cbn [app N.eqb Pos.eqb]. rewrite (scan_integer_chars rest Hs He).
    rewrite (value_end_float rest He), El, Hz. reflexivity.
Qed.

End IntFacts.

(** ** Objects in JSON *)

Lemma skip_ws_value (text rest : str) :
  starts_value text -> skip_ws (text ++ rest) = text ++ rest.
Proof. intros (c & r & -> & H). simpl. now rewrite H. Qed.

Lemma skip_ws_spaces (n : nat) (s : str) :
  skip_ws (repeat 0x20%N n ++ s) = skip_ws s.
Proof. induction n as [|n IH]; [reflexivity|exact IH]. Qed.

Lemma skip_ws_indent (level : nat) (s : str) :
  skip_ws (newline_indent level ++ s) = skip_ws s.
Proof. unfold newline_indent. cbn [app skip_ws is_json_ws N.eqb Pos.eqb orb].
  apply skip_ws_spaces. Qed.

Lemma basestring_starts (k : str) : starts_value (encode_basestring k).
Proof. do 2 eexists. split; reflexivity. Qed.

Lemma dict_set_fresh (K V : Type) (eqb : K -> K -> bool) (d : dict K V)
    (k : K) (v : V) :
  (forall a b, eqb a b = true <-> a = b) ->
  ~ In k (dict_keys d) -> dict_set eqb d k v = d ++ [(k, v)].
Proof.
  intros Hspec. induction d as [|[k0 v0] d IH]; simpl; intros H.
  - reflexivity.
  - rewrite (eqb_diff _ Hspec) by (intros ->; tauto).
    rewrite IH by tauto. reflexivity.
Qed.

(** Storing the pairs of a dictionary one after the other builds it. *)
Lemma dict_of_items (V : Type) (items : dict str V) : forall rval,
  NoDup (dict_keys (rval ++ items)) ->
  fold_left (fun d kv => dict_set str_eqb d (fst kv) (snd kv)) items rval
  = rval ++ items.
Proof.
  induction items as [|[k v] items IH]; intros rval H; simpl.
  - now rewrite app_nil_r.
  - unfold dict_keys in H. rewrite map_app in H. simpl in H.
    pose proof (NoDup_remove_2 _ _ _ H) as Hk.
    rewrite dict_set_fresh; [|exact str_eqb_eq|].
    + rewrite IH; [now rewrite <- app_assoc|].
      unfold dict_keys. rewrite !map_app, <- app_assoc. exact H.
    + intros Hin. apply Hk. apply in_or_app. now left.
Qed.

Section MembersFacts.

Variables (enc : json -> option str) (scan_value : str -> option (json * str)).

Lemma encode_members_length (level : nat) (items : list (str * json)) :
  forall body, encode_members enc level items = Some body ->
    length items <= length body.
Proof.
  induction items as [|[k v] items IH]; intros body; cbn [encode_members].
  - intros _. simpl. lia.
  - destruct (enc v); [|discriminate].
    destruct (encode_members enc level items) as [more|]; [|discriminate].
    intros [= <-]. specialize (IH more eq_refl).
    cbn [length]. rewrite !length_app. cbn [length]. rewrite !length_app.
    lia.
Qed.

Lemma encode_members_starts (level : nat) (items : list (str * json))
    (body : str) :
  items <> [] -> encode_members enc level items = Some body ->
  starts_value body.
Proof.
  destruct items as [|[k v] items]; [congruence|]. intros _. simpl.
  destruct (enc v); [|discriminate].
  destruct (encode_members enc level items); [|discriminate].
  intros [= <-]. do 2 eexists. split; reflexivity.
Qed.

Lemma parse_pairs_members (level close : nat) (rest : str)
    (items : list (str * json)) :
  (forall k v text rest',
     In (k, v) items -> enc v = Some text -> value_end rest' = true ->
     starts_value text /\ scan_value (text ++ rest') = Some (v, rest')) ->
  forall rval fuel body,
    items <> [] ->
    encode_members enc level items = Some body ->
    length items <= fuel ->
    parse_pairs scan_value fuel rval
      (body ++ newline_indent close ++ 0x7D%N :: rest)
    = Some (JDict (fold_left
                     (fun d kv => dict_set str_eqb d (fst kv) (snd kv))
                     items rval), rest).
Proof.
  induction items as [|[k v] items IH]; intros Hval rval fuel body Hne;
    [congruence|].
  cbn [encode_members]. destruct (enc v) as [value|] eqn:Ev; [|discriminate].
  destruct (encode_members enc level items) as [more|] eqn:Em;
    [|discriminate].
  intros [= <-] Hfuel. destruct fuel as [|fuel]; [simpl in Hfuel; lia|].
  unfold encode_basestring. cbn [app parse_pairs N.eqb Pos.eqb].
  rewrite <- !app_assoc. cbn [app]. rewrite scanstring_escaped.
  change (u ": ") with [0x3A; 0x20]%N.
  cbn [app skip_ws is_json_ws N.eqb Pos.eqb orb].
  destruct items as [|kv items'].
  - simpl in Em. injection Em as <-. rewrite <- !app_assoc. cbn [app].
    destruct (Hval k v value (newline_indent close ++ 0x7D%N :: rest)
                (or_introl eq_refl) Ev eq_refl) as [Hs Hscan].
    rewrite (skip_ws_value _ Hs), Hscan. rewrite skip_ws_indent.
    cbn [skip_ws is_json_ws N.eqb Pos.eqb orb]. reflexivity.
  - rewrite <- !app_assoc. change (u "," ++ ?x) with (0x2C%N :: x).
    match goal with
    | |- context [skip_ws (value ++ ?r)] =>
        destruct (Hval k v value r (or_introl eq_refl) Ev eq_refl)
          as [Hs Hscan]
    end.
    rewrite (skip_ws_value _ Hs), Hscan.
    cbn [app skip_ws is_json_ws N.eqb Pos.eqb orb].
    rewrite skip_ws_indent.
    assert (Hne' : kv :: items' <> []) by discriminate.
    rewrite (skip_ws_value _ (encode_members_starts level Hne' Em)).
    apply IH; [|discriminate|reflexivity|simpl in *; lia].
    intros k' v' text rest' Hin. apply (Hval k' v'). now right.
Qed.

End MembersFacts.

(** ** Documents *)

Lemma uint_chars_first (d : uint) :
  d = Decimal.zero \/ head_nonzero d ->
  exists c r, uint_chars d = c :: r /\ In c number_start.
Proof.
  intros [->|H]; [exists 0x30%N, []; split; [reflexivity|simpl; tauto]|].
  destruct d; try contradiction; do 2 eexists;
    (split; [reflexivity|simpl; tauto]).
Qed.

Lemma depth_member (items : list (str * json)) (k : str) (v : json)
    (n : nat) :
  depth (JDict items) <= S n -> In (k, v) items -> depth v <= n.
Proof.
  cbn [depth]. intros H Hin. apply le_S_n in H.
  induction items as [|[k0 v0] items IH]; [destruct Hin|].
  destruct Hin as [[= -> ->]|Hin]; [lia|]. apply IH; [lia|exact Hin].
Qed.

Lemma json_ok_member (items : list (str * json)) (k : str) (v : json) :
  json_ok (JDict items) -> In (k, v) items -> json_ok v.
Proof.
  cbn [json_ok]. intros [_ H] Hin.
  induction items as [|[k0 v0] items IH]; [destruct Hin|].
  destruct H as [H0 H]. destruct Hin as [[= -> ->]|Hin]; [exact H0|].
  apply IH; assumption.
Qed.

Lemma length_middle (A : Type) (a b c : list A) :
  length b <= length (a ++ b ++ c).
Proof. rewrite !length_app. lia. Qed.

Section Documents.

Variable max_str_digits : nat.

Lemma int_repr_first (z : Z) (text : str) :
  int_repr max_str_digits z = Some text ->
  exists c r, text = c :: r /\ In c number_start.
Proof.
  unfold int_repr. pose proof (to_int_shape z) as Hs.
  destruct (Z.to_int z) as [d|d]; destruct (too_long max_str_digits d);
    try discriminate; intros [= <-].
  - apply uint_chars_first, Hs.
  - do 2 eexists. split; [reflexivity|simpl; tauto].
Qed.

Lemma encode_starts (level : nat) (o : json) (text : str) :
  encode max_str_digits level o = Some text -> starts_value text.
Proof.
  destruct o as [z|s|[|kv items]]; cbn [encode].
  - intros H. apply int_repr_first in H as (c & r & -> & Hc).
    exists c, r. split; [reflexivity|].
    simpl in Hc. repeat (destruct Hc as [<-|Hc]; [reflexivity|]). destruct Hc.
  - intros [= <-]. apply basestring_starts.
  - intros [= <-]. do 2 eexists. split; reflexivity.
  - destruct (encode_members _ _ _); [|discriminate].
    intros [= <-]. do 2 eexists. split; reflexivity.
Qed.

(** Reading back what [encode] wrote gives the document, whatever follows
    it, given fuel for its depth. *)
Lemma scan_once_encode (fuel : nat) : forall o level text rest,
  depth o <= fuel -> json_ok o ->
  encode max_str_digits level o = Some text -> value_end rest = true ->
  scan_once max_str_digits fuel (text ++ rest) = Some (o, rest).
Proof.
  induction fuel as [|fuel IH]; intros o level text rest Hd Hok He Hr.
  { destruct o; simpl in Hd; lia. }
  destruct o as [z|s|[|kv items]]; cbn [encode] in He.
  - pose proof (int_repr_first _ He) as (c & r & E & Hc).
    pose proof (match_number_repr _ _ rest He Hr) as Hm.
    rewrite E in *. cbn [app scan_once].
    simpl in Hc.
    repeat (destruct Hc as [<-|Hc]; [exact Hm|]). destruct Hc.
  - injection He as <-. unfold encode_basestring.
    cbn [app scan_once N.eqb Pos.eqb]. rewrite <- app_assoc. cbn [app].
    rewrite scanstring_escaped. reflexivity.
  - injection He as <-. reflexivity.
  - destruct (encode_members _ _ _) as [body|] eqn:Em; [|discriminate].
    assert (Et : text = u "{" ++ newline_indent (S level) ++ body
                        ++ newline_indent level ++ u "}") by congruence.
    subst text. clear He.
    assert (Hne : kv :: items <> []) by discriminate.
    pose proof (encode_members_starts _ _ Hne Em) as Hs.
    pose proof (encode_members_length _ _ _ Em) as Hl.
    change (u "{") with [0x7B%N]. change (u "}") with [0x7D%N].
    cbn [app scan_once N.eqb Pos.eqb]. rewrite <- !app_assoc.
    rewrite skip_ws_indent, (skip_ws_value _ Hs).
    destruct Hs as (c & r & Eb & Hc). rewrite Eb. cbn [app].
    assert (Hq : c = 0x22%N).
    { destruct kv as [k v]. cbn [encode_members] in Em.
      destruct (encode _ _ v); [|discriminate].
      destruct (encode_members _ _ items); [|discriminate].
      injection Em as Em. rewrite Eb in Em. unfold encode_basestring in Em.
      cbn [app] in Em. congruence. }
    rewrite Hq. cbn [N.eqb Pos.eqb]. rewrite <- Hq.
    change (c :: r ++ ?x) with ((c :: r) ++ x). rewrite <- Eb.
    cbn [app].
    rewrite (parse_pairs_members (encode max_str_digits (S level))
               (scan_once max_str_digits fuel) (S level) level rest
               (items := kv :: items)) with (body := body).
    + rewrite dict_of_items; [reflexivity|]. apply Hok.
    + intros k v text rest' Hin Hev Hr'. split; [apply (encode_starts _ _ Hev)|].
      apply (IH v (S level)); auto.
      * eapply depth_member; eassumption.
      * eapply json_ok_member; eassumption.
    + exact Hne.
    + exact Em.
    + apply (Nat.le_trans _ _ _ Hl), length_middle.
Qed.

End Documents.

(** ** What is written can be encoded *)

Lemma json_encodable_member (items : list (str * json)) (k : str) (v : json) :
  json_encodable (JDict items) -> In (k, v) items ->
  forallb encodable k = true /\ json_encodable v.
Proof.
  cbn [json_encodable]. intros H Hin.
  induction items as [|[k0 v0] items IH]; [destruct Hin|].
  destruct H as (Hk & Hv & H). destruct Hin as [[= -> ->]|Hin]; [auto|].
  apply IH; assumption.
Qed.

Lemma escape_char_encodable (c : char) :
  encodable c = true -> forallb encodable (escape_char c) = true.
Proof.
  intros Hc. unfold escape_char.
  repeat match goal with
         | |- context [if (c =? ?k)%N then _ else _] =>
             destruct (N.eqb_spec c k); [reflexivity|]
         end.
  destruct (N.ltb_spec c 0x20) as [Hlt|Hge].
  - apply (small_char_cases
             (fun c => forallb encodable (escape_u c) = true) Hlt).
    intros m Hm. simpl in Hm.
    repeat (destruct Hm as [<-|Hm]; [reflexivity|]). destruct Hm.
  - simpl. now rewrite Hc.
Qed.

Lemma basestring_encodable (s : str) :
  forallb encodable s = true ->
  forallb encodable (encode_basestring s) = true.
Proof.
  intros H. unfold encode_basestring. cbn [forallb].
  rewrite forallb_app. cbn. rewrite andb_true_r.
  induction s as [|c s IH]; [reflexivity|]. cbn [flat_map forallb] in *.
  apply andb_true_iff in H as [Hc Hs]. rewrite forallb_app.
  rewrite (escape_char_encodable _ Hc), (IH Hs). reflexivity.
Qed.

Lemma uint_chars_encodable (d : uint) :
  forallb encodable (uint_chars d) = true.
Proof. induction d; cbn [uint_chars forallb]; try rewrite IHd; reflexivity. Qed.

Lemma newline_indent_encodable (level : nat) :
  forallb encodable (newline_indent level) = true.
Proof.
  unfold newline_indent. cbn [forallb].
  induction (2 * level) as [|n IH]; [reflexivity|exact IH].
Qed.

Section Encodable.

Variable max_str_digits : nat.

Lemma int_repr_encodable (z : Z) (text : str) :
  int_repr max_str_digits z = Some text -> forallb encodable text = true.
Proof.
  unfold int_repr.
  destruct (Z.to_int z) as [d|d]; destruct (too_long max_str_digits d);
    try discriminate; intros [= <-]; cbn [forallb];
    rewrite uint_chars_encodable; reflexivity.
Qed.

Lemma encode_members_encodable (enc : json -> option str) (level : nat)
    (items : list (str * json)) :
  (forall k v text, In (k, v) items -> enc v = Some text ->
     forallb encodable k = true /\ forallb encodable text = true) ->
  forall body, encode_members enc level items = Some body ->
    forallb encodable body = true.
Proof.
  induction items as [|[k v] items IH]; intros Hval body;
    cbn [encode_members].
  - intros [= <-]. reflexivity.
  - destruct (enc v) as [value|] eqn:Ev; [|discriminate].
    destruct (encode_members enc level items) as [more|] eqn:Em;
      [|discriminate].
    intros Hb. apply Some_eq in Hb. subst body.
    destruct (Hval k v value (or_introl eq_refl) Ev) as [Hk Hv].
    rewrite !forallb_app, (basestring_encodable _ Hk), Hv.
    rewrite IH with (body := more);
      [|intros k' v' t Hin; apply (Hval k' v'); now right|reflexivity].
    destruct items; [reflexivity|].
    rewrite forallb_app, newline_indent_encodable. reflexivity.
Qed.

Lemma encode_encodable (fuel : nat) : forall o level text,
  depth o <= fuel -> json_encodable o ->
  encode max_str_digits level o = Some text ->
  forallb encodable text = true.
Proof.
  induction fuel as [|fuel IH]; intros o level text Hd Hok He.
  { destruct o; simpl in Hd; lia. }
  destruct o as [z|s|[|kv items]]; cbn [encode] in He.
  - apply (int_repr_encodable _ He).
  - injection He as <-. apply basestring_encodable, Hok.
  - injection He as <-. reflexivity.
  - destruct (encode_members _ _ _) as [body|] eqn:Em; [|discriminate].
    assert (Et : text = u "{" ++ newline_indent (S level) ++ body
                        ++ newline_indent level ++ u "}") by congruence.
    subst text. clear He.
    rewrite !forallb_app, !newline_indent_encodable.
    rewrite (@encode_members_encodable (encode max_str_digits (S level))
               (S level) (kv :: items)) with (body := body);
      [reflexivity| |exact Em].
    intros k v text Hin Hev.
    destruct (json_encodable_member _ _ _ Hok Hin) as [Hk Hv].
    split; [exact Hk|]. apply (IH v (S level)); auto.
    eapply depth_member; eassumption.
Qed.

End Encodable.

(** ** The memory file *)

Lemma json_to_stats_inv (st : stats) :
  json_to_stats (stats_to_json st) = Some st.
Proof. destruct st as [a c [m|]]; reflexivity. Qed.

Lemma json_to_memory_inv (memory : memory_t) :
  json_to_memory (memory_to_json memory) = Some memory.
Proof.
  unfold memory_to_json, json_to_memory.
  induction memory as [|[w st] memory IH]; [reflexivity|].
  cbn [List.map json_to_records fst snd].
  rewrite json_to_stats_inv, IH. reflexivity.
Qed.

Lemma dict_keys_map (K V W : Type) (f : V -> W) (d : dict K V) :
  dict_keys (List.map (fun kv => (fst kv, f (snd kv))) d) = dict_keys d.
Proof.
  unfold dict_keys. rewrite map_map. reflexivity.
Qed.

Lemma stats_to_json_ok (st : stats) : json_ok (stats_to_json st).
Proof.
  destruct st as [a c [m|]]; cbn; (split; [|tauto]);
    repeat constructor; simpl; intuition discriminate.
Qed.

Lemma memory_to_json_ok (memory : memory_t) :
  NoDup (dict_keys memory) -> json_ok (memory_to_json memory).
Proof.
  intros H. unfold memory_to_json. cbn [json_ok].
  rewrite dict_keys_map. split; [exact H|]. clear H.
  induction memory as [|[w st] memory IH]; [exact I|].
  cbn [List.map fst snd]. split; [apply stats_to_json_ok|exact IH].
Qed.

Lemma memory_to_json_depth (memory : memory_t) :
  depth (memory_to_json memory) <= 3.
Proof.
  unfold memory_to_json. cbn [depth]. apply le_n_S.
  induction memory as [|[w st] memory IH]; [simpl; lia|].
  cbn [List.map fst snd].
  assert (depth (stats_to_json st) = 2) as ->
    by (destruct st as [a c [m|]]; reflexivity).
  lia.
Qed.

Lemma memory_to_json_encodable (memory : memory_t) :
  memory_encodable memory -> json_encodable (memory_to_json memory).
Proof.
  unfold memory_to_json. cbn [json_encodable].
  induction 1 as [|[w st] memory [Hw Hm] _ IH]; [exact I|].
  cbn [List.map fst snd] in *. split; [exact Hw|]. split; [|exact IH].
  destruct st as [a c [m|]]; cbn; cbn in Hm; tauto.
Qed.

Section Store.

Variable max_str_digits : nat.

Lemma int_repr_fits (z : Z) :
  int_fits max_str_digits z = true ->
  exists text, int_repr max_str_digits z = Some text.
Proof.
  unfold int_fits, int_repr.
  destruct (Z.to_int z); destruct (too_long max_str_digits _);
    try discriminate; eexists; reflexivity.
Qed.

Lemma encode_stats (level : nat) (st : stats) :
  int_fits max_str_digits (asked st) = true ->
  int_fits max_str_digits (correct st) = true ->
  exists text, encode max_str_digits level (stats_to_json st) = Some text.
Proof.
  intros Ha Hc. destruct (int_repr_fits _ Ha) as [ta Ea].
  destruct (int_repr_fits _ Hc) as [tc Ec].
  destruct st as [a c [m|]]; cbn [stats_to_json asked correct meaning app
    encode encode_members] in *; rewrite Ea, Ec; eexists; reflexivity.
Qed.

Lemma encode_members_total (enc : json -> option str) (level : nat)
    (items : list (str * json)) :
  (forall k v, In (k, v) items -> exists text, enc v = Some text) ->
  exists body, encode_members enc level items = Some body.
Proof.
  induction items as [|[k v] items IH]; intros H; cbn [encode_members].
  - eexists. reflexivity.
  - destruct (H k v (or_introl eq_refl)) as [value ->].
    destruct IH as [more ->]; [|eexists; reflexivity].
    intros k' v' Hin. apply (H k' v'). now right.
Qed.

Lemma encode_memory (memory : memory_t) :
  counts_fit max_str_digits memory ->
  exists text,
    encode max_str_digits 0 (memory_to_json memory) = Some text.
Proof.
  intros Hfit. unfold memory_to_json.
  destruct memory as [|kv memory]; [eexists; reflexivity|].
  cbn [List.map encode].
  destruct (@encode_members_total (encode max_str_digits 1) 1
              (List.map (fun kv => (fst kv, stats_to_json (snd kv)))
                 (kv :: memory))) as [body Eb].
  - intros k v Hin. apply in_map_iff in Hin as ([w st] & [= <- <-] & Hin).
    unfold counts_fit in Hfit. rewrite Forall_forall in Hfit.
    destruct (Hfit _ Hin) as [Ha Hc]. apply encode_stats; assumption.
  - cbn [List.map] in Eb. rewrite Eb. eexists. reflexivity.
Qed.

Lemma encode_object_text (level : nat) (items : list (str * json))
    (text : str) :
  encode max_str_digits level (JDict items) = Some text ->
  exists r, text = 0x7B%N :: r /\ 1 <= length r.
Proof.
  destruct items as [|kv items]; cbn [encode].
  - intros H. apply Some_eq in H. subst text. eexists. split; [reflexivity|].
    simpl. lia.
  - destruct (encode_members _ _ _) as [body|]; [|discriminate].
    intros H. apply Some_eq in H. subst text.
    exists (newline_indent (S level) ++ body ++ newline_indent level ++ u "}").
    split; [reflexivity|]. unfold newline_indent. simpl. lia.
Qed.

Lemma loads_encode (o : json) (text : str) :
  (exists items, o = JDict items) -> depth o <= 3 -> json_ok o ->
  encode max_str_digits 0 o = Some text ->
  loads max_str_digits text = Some o.
Proof.
  intros [items ->] Hd Hok He.
  destruct (encode_object_text _ _ He) as (r & Et & Hr).
  assert (Hfuel : depth (JDict items) <= S (length text)).
  { rewrite Et. cbn [length]. unfold str, char in *. lia. }
  pose proof (@scan_once_encode max_str_digits (S (length text)) _ 0 text []
                Hfuel Hok He eq_refl) as Hs.
  rewrite app_nil_r in Hs. unfold loads. rewrite Et in *.
  cbn [N.eqb Pos.eqb skip_ws is_json_ws orb]. rewrite Hs. reflexivity.
Qed.

End Store.

(** C8, for what a UTF-8 file can hold.  For a memory whose words and
    meanings hold no surrogate code point and whose counts are within the
    interpreter's limit for converting integers to decimal text,
    [save_memory] succeeds and what the module then loads from the file is
    the memory, record for record and in the same order. *)
Theorem save_load_roundtrip (max_str_digits : nat) (memory : memory_t) :
  NoDup (dict_keys memory) ->
  memory_encodable memory ->
  counts_fit max_str_digits memory ->
  exists data,
    save_memory max_str_digits memory = Some data /\
    load_memory max_str_digits (Some data) = Some memory.
Proof.
  intros Hnd Henc Hfit.
  destruct (encode_memory Hfit) as [text E].
  destruct (@utf8_encode_encodable text) as [data Ed].
  { apply (@encode_encodable max_str_digits 3 _ 0 text
             (memory_to_json_depth memory)
             (memory_to_json_encodable Henc) E). }
  exists data. split.
  - unfold save_memory. rewrite E. exact Ed.
  - unfold load_memory. rewrite (utf8_encode_decode _ Ed).
    rewrite (@loads_encode max_str_digits (memory_to_json memory) text);
      [apply json_to_memory_inv|eexists; reflexivity
      |apply memory_to_json_depth|apply memory_to_json_ok, Hnd|exact E].
Qed.

(** Without a limit on the conversion every count fits. *)
Lemma counts_fit_unlimited (memory : memory_t) : counts_fit 0 memory.
Proof.
  apply Forall_forall. intros kv _. unfold int_fits.
  split; destruct (Z.to_int _); reflexivity.
Qed.

Lemma save_load_roundtrip_witness :
  let memory := [(u "ora", mkStats 3 1 (Some (u "走")));
                 (u "pelan", mkStats 12 12 None)] in
  (NoDup (dict_keys memory) /\ memory_encodable memory /\
   counts_fit 4300 memory) /\
  exists data,
    save_memory 4300 memory = Some data /\
    load_memory 4300 (Some data) = Some memory.
Proof.
  intros memory.
  assert (Hnd : NoDup (dict_keys memory)).
  { repeat constructor; simpl; intuition discriminate. }
  assert (Henc : memory_encodable memory).
  { repeat constructor. }
  assert (Hfit : counts_fit 4300 memory).
  { repeat constructor. }
  split; [repeat split; assumption|].
  exact (save_load_roundtrip Hnd Henc Hfit).
Defined.

(** C8, as the spec puts it, fails: a word that holds a lone surrogate, as
    [json.load] returns for the escape [\ud800], cannot be written to the
    UTF-8 file, and [save_memory] raises. *)
Lemma save_surrogate_counterexample :
  let memory := [([0xD800%N], mkStats 1 0 None)] in
  wf_memory memory /\ NoDup (dict_keys memory) /\
  save_memory 4300 memory = None /\ save_memory 0 memory = None.
Proof.
  intros memory. split; [repeat constructor; simpl; lia|].
  split; [repeat constructor; simpl; tauto|]. split; reflexivity.
Qed.

(** ** Tokens *)

Lemma split_from_no_space (s : str) :
  no_space (fst (split_from s)) = true /\
  Forall (fun t => no_space t = true) (snd (split_from s)).
Proof.
  induction s as [|c s [IHc IHo]]; simpl; [split; [reflexivity|constructor]|].
  destruct (split_from s) as [cur out]. simpl in IHc, IHo.
  destruct (isspace c) eqn:Ec; simpl.
  - split; [reflexivity|]. destruct cur; simpl; [exact IHo|].
    constructor; assumption.
  - unfold no_space in *. simpl. rewrite Ec. simpl. split; assumption.
Qed.

Lemma split_no_space (s : str) : Forall (fun t => no_space t = true) (split s).
Proof.
  unfold split. destruct (split_from_no_space s) as [Hc Ho].
  destruct (split_from s) as [cur out]. simpl in Hc, Ho.
  destruct cur; simpl; [exact Ho|]. constructor; assumption.
Qed.

Lemma split_is_token (s : str) : Forall is_token (split s).
Proof.
  pose proof (split_tokens s) as H1. pose proof (split_no_space s) as H2.
  induction H1 as [|t ts Ht _ IH]; [constructor|].
  inversion H2; subst. constructor; [split; assumption|auto].
Qed.

Lemma split_from_app (x s : str) :
  no_space x = true ->
  split_from (x ++ s) = (x ++ fst (split_from s), snd (split_from s)).
Proof.
  induction x as [|c x IH]; simpl; intros H.
  - now destruct (split_from s).
  - apply andb_true_iff in H as [Hc Hx]. rewrite (IH Hx).
    apply negb_true_iff in Hc. rewrite Hc. reflexivity.
Qed.

Lemma split_token_space (x s : str) (c : char) :
  is_token x -> isspace c = true -> split (x ++ c :: s) = x :: split s.
Proof.
  intros [Hne Hx] Hc. unfold split. rewrite split_from_app by exact Hx. simpl.
  destruct (split_from s) as [cur out]. rewrite Hc. simpl.
  rewrite app_nil_r. destruct x; [congruence|reflexivity].
Qed.

Lemma split_token (x : str) : is_token x -> split x = [x].
Proof.
  intros [Hne Hx]. unfold split.
  rewrite <- (app_nil_r x) at 1. rewrite split_from_app by exact Hx. simpl.
  rewrite app_nil_r. destruct x; [congruence|reflexivity].
Qed.

(** Splitting undoes joining with a space. *)
Lemma split_join (ts : list str) :
  Forall is_token ts -> split (join (u " ") ts) = ts.
Proof.
  induction 1 as [|t ts Ht Hts IH]; [reflexivity|].
  destruct ts as [|t' ts]; [now apply split_token|].
  change (join (u " ") (t :: t' :: ts))
    with (t ++ 0x20%N :: join (u " ") (t' :: ts)).
  rewrite split_token_space by (assumption || reflexivity).
  now rewrite IH.
Qed.

Lemma Forall_firstn_skipn (A : Type) (P : A -> Prop) (l : list A) (n : nat) :
  Forall P l -> Forall P (firstn n l) /\ Forall P (skipn n l).
Proof.
  intros H. rewrite <- (firstn_skipn n l) in H. now apply Forall_app in H.
Qed.

Lemma Forall_removelast (A : Type) (P : A -> Prop) (l : list A) :
  Forall P l -> Forall P (removelast l).
Proof.
  induction 1 as [|x l Hx Hl IH]; [constructor|]. simpl.
  destruct l; [constructor|]. constructor; assumption.
Qed.

Lemma removelast_last (A : Type) (l : list A) (d : A) :
  l <> [] -> removelast l ++ [last l d] = l.
Proof. intros H. symmetry. now apply app_removelast_last. Qed.

Lemma contains_chinese_app (a b : str) :
  _contains_chinese (a ++ b) = _contains_chinese a || _contains_chinese b.
Proof. apply existsb_app. Qed.

(** A joined list holds an ideograph exactly when one of its parts does. *)
Lemma contains_chinese_join (ts : list str) :
  _contains_chinese (join (u " ") ts) = existsb _contains_chinese ts.
Proof.
  induction ts as [|t ts IH]; [reflexivity|].
  destruct ts as [|t' ts]; [simpl; now rewrite orb_false_r|].
  change (join (u " ") (t :: t' :: ts))
    with (t ++ 0x20%N :: join (u " ") (t' :: ts)).
  rewrite contains_chinese_app.
  change (_contains_chinese (0x20%N :: join (u " ") (t' :: ts)))
    with (_contains_chinese (join (u " ") (t' :: ts))).
  rewrite IH. reflexivity.
Qed.

Lemma chinese_start_from_shift (parts : list str) : forall k,
  chinese_start_from (S k) parts = option_map S (chinese_start_from k parts).
Proof.
  induction parts as [|p parts IH]; intros k; simpl; [reflexivity|].
  destruct (_contains_chinese p); [reflexivity|apply IH].
Qed.

(** Where the scan of [parse_line] stops: at the head when it holds an
    ideograph, behind it when a later token does. *)
Lemma chinese_start_cons (p : str) (parts : list str) :
  chinese_start (p :: parts)
  = if _contains_chinese p then Some 0
    else option_map S (chinese_start parts).
Proof.
  unfold chinese_start. simpl. destruct (_contains_chinese p); [reflexivity|].
  apply chinese_start_from_shift.
Qed.

Lemma chinese_start_None (parts : list str) :
  chinese_start parts = None <-> existsb _contains_chinese parts = false.
Proof.
  induction parts as [|p parts IH]; [simpl; tauto|].
  rewrite chinese_start_cons. simpl.
  destruct (_contains_chinese p); simpl; [split; discriminate|].
  rewrite <- IH. destruct (chinese_start parts); simpl; split; congruence.
Qed.

Lemma chinese_start_found (parts : list str) (i : nat) :
  chinese_start parts = Some i ->
  i < length parts /\ existsb _contains_chinese (skipn i parts) = true /\
  existsb _contains_chinese (firstn i parts) = false /\
  _contains_chinese (hd [] (skipn i parts)) = true.
Proof.
  revert i. induction parts as [|p parts IH]; intros i.
  { discriminate. }
  rewrite chinese_start_cons. destruct (_contains_chinese p) eqn:Ep.
  - intros [= <-]. simpl. rewrite Ep. repeat split; auto with arith.
  - destruct (chinese_start parts) as [j|]; [|discriminate].
    intros [= <-]. destruct (IH j eq_refl) as (H1 & H2 & H3 & H4).
    simpl. rewrite Ep. repeat split; auto with arith.
Qed.

Lemma last_Forall (A : Type) (P : A -> Prop) (l : list A) (d : A) :
  Forall P l -> l <> [] -> P (last l d).
Proof.
  induction 1 as [|x l Hx Hl IH]; intros Hne; [congruence|].
  destruct l as [|y l]; [exact Hx|]. apply IH. discriminate.
Qed.

Lemma last_cons_cons (A : Type) (x y : A) (l : list A) (d : A) :
  last (x :: y :: l) d = last (y :: l) d.
Proof. reflexivity. Qed.

Lemma nonempty_true (t : str) : t <> [] -> nonempty t = true.
Proof. destruct t; [congruence|reflexivity]. Qed.

(** ** The branches of the line parser *)

Section ParserBranches.

Context {U : UnicodeData}.

(** The entry of a line, by the place of the first token with an
    ideograph. *)
Lemma parse_line_cases (line : str) (n : Z) (f : str) :
  let e := parse_line line n f in
  let parts := tokens line in
  match parts with
  | [] => e = mkVocabEntry n line [] [] [] false f
  | _ :: _ =>
      match chinese_start parts with
      | None => e = mkVocabEntry n line [] (clean line) [] false f
      | Some 0 =>
          if _is_pos_marker (last parts [])
          then e = mkVocabEntry n line [] (join (u " ") (removelast parts))
                     (last parts []) false f
          else e = mkVocabEntry n line [] (clean line) [] false f
      | Some (S i) =>
          if (1 <? length (skipn (S i) parts))
             && _is_pos_marker (last (skipn (S i) parts) [])
          then e = mkVocabEntry n line (join (u " ") (firstn (S i) parts))
                     (join (u " ") (removelast (skipn (S i) parts)))
                     (last (skipn (S i) parts) []) true f
          else e = mkVocabEntry n line (join (u " ") (firstn (S i) parts))
                     (join (u " ") (skipn (S i) parts)) [] true f
      end
  end.
Proof.
  unfold parse_line, tokens. cbv zeta.
  destruct (clean line) as [|c cl]; [reflexivity|].
  destruct (split (c :: cl)) as [|p ps]; [reflexivity|].
  destruct (chinese_start (p :: ps)) as [[|i]|]; [| |reflexivity].
  - destruct (_is_pos_marker _); reflexivity.
  - destruct (_ && _); reflexivity.
Qed.

End ParserBranches.

(** ** What [parse_line] makes of a line *)

Section EntryFacts.

Context {U : UnicodeData}.

(** X1.  An entry is defined exactly when the first token of the cleaned
    line holds no ideograph and a later token does; the flag agrees with the
    word, which is empty exactly for the undefined entries; and every entry
    carries the line number, the line as read and the path it was given. *)
Theorem parse_line_defined_iff (line : str) (n : Z) (f : str) :
  let e := parse_line line n f in
  (is_defined e = true <->
   exists w rest, tokens line = w :: rest /\ _contains_chinese w = false /\
     existsb _contains_chinese rest = true) /\
  (is_defined e = false <-> selik_word e = []) /\
  line_number e = n /\ original_line e = line /\ file_path e = f.
Proof.
  cbv zeta. split; [|split].
  - pose proof (parse_line_cases line n f) as H. cbv zeta in H.
    destruct (tokens line) as [|p ps] eqn:Et.
    { rewrite H. simpl. split; [discriminate|]. intros (w & r & E & _).
      discriminate. }
    rewrite chinese_start_cons in H.
    destruct (_contains_chinese p) eqn:Ep.
    + assert (Hd : is_defined (parse_line line n f) = false).
      { destruct (_is_pos_marker _); rewrite H; reflexivity. }
      rewrite Hd. split; [discriminate|].
      intros (w & r & [= <- <-] & Hw & _). congruence.
    + destruct (chinese_start ps) as [i|] eqn:Ec; simpl in H.
      * assert (Hd : is_defined (parse_line line n f) = true).
        { destruct (_ && _); rewrite H; reflexivity. }
        rewrite Hd. split; [intros _|reflexivity].
        exists p, ps. repeat split; auto.
        destruct (existsb _contains_chinese ps) eqn:E; [reflexivity|].
        apply chinese_start_None in E. congruence.
      * rewrite H. simpl. split; [discriminate|].
        intros (w & r & [= <- <-] & _ & Hr).
        apply chinese_start_None in Ec. congruence.
  - rewrite parse_line_word.
    destruct (selik_word (parse_line line n f)); simpl;
      split; congruence.
  - unfold parse_line. cbv zeta.
    destruct (clean line); [auto|]. destruct (split _); [auto|].
    destruct (chinese_start _) as [[|i]|]; [| |auto].
    + destruct (_is_pos_marker _); auto.
    + destruct (_ && _); auto.
Qed.

Lemma parse_line_parts (line : str) (n : Z) (f : str) :
  let e := parse_line line n f in
  split (selik_word e) ++ split (chinese_meaning e)
    ++ (if nonempty (part_of_speech e) then [part_of_speech e] else [])
  = tokens line.
Proof.
  cbv zeta. pose proof (parse_line_cases line n f) as H. cbv zeta in H.
  pose proof (split_is_token (clean line)) as Htok. fold (tokens line) in Htok.
  destruct (tokens line) as [|p ps] eqn:Et; [rewrite H; reflexivity|].
  assert (Hne : p :: ps <> []) by discriminate.
  destruct (chinese_start (p :: ps)) as [[|i]|] eqn:Ec.
  - destruct (_is_pos_marker _) eqn:Em; rewrite H;
      cbn [selik_word chinese_meaning part_of_speech].
    + rewrite split_join by now apply Forall_removelast.
      destruct (last_Forall [] Htok Hne) as [Hl _].
      rewrite nonempty_true by exact Hl. now apply removelast_last.
    + unfold tokens in Et. rewrite Et. simpl. now rewrite app_nil_r.
  - destruct (Forall_firstn_skipn (S i) Htok) as [Hf Hs].
    apply chinese_start_found in Ec as (Hi & _).
    assert (Hsne : skipn (S i) (p :: ps) <> []).
    { intros E. apply (f_equal (@length _)) in E.
      rewrite length_skipn in E. simpl in E, Hi. lia. }
    destruct (_ && _) eqn:Em; rewrite H;
      cbn [selik_word chinese_meaning part_of_speech].
    + rewrite !split_join by (try apply Forall_removelast; assumption).
      destruct (last_Forall [] Hs Hsne) as [Hl _].
      rewrite nonempty_true by exact Hl.
      rewrite removelast_last by exact Hsne. apply firstn_skipn.
    + rewrite !split_join by assumption. cbn [nonempty].
      rewrite app_nil_r. apply firstn_skipn.
  - rewrite H. unfold tokens in Et. simpl. rewrite Et. now rewrite app_nil_r.
Qed.

(** X2.  Nothing of a line is lost: the tokens of the word, the tokens of
    the meaning and the part of speech, in this order, are the tokens of
    the line without its number. *)
Theorem parse_line_keeps_tokens (line : str) (n : Z) (f : str) :
  let e := parse_line line n f in
  split (selik_word e) ++ split (chinese_meaning e)
    ++ (if nonempty (part_of_speech e) then [part_of_speech e] else [])
  = tokens line.
Proof. apply parse_line_parts. Qed.

(** X3.  A part of speech is recorded exactly when the last token is a
    marker and some token holds an ideograph; it is then that last token,
    and the meaning before it still holds an ideograph.  So a line without
    Chinese keeps its marker in the meaning. *)
Theorem parse_line_pos (line : str) (n : Z) (f : str) :
  let e := parse_line line n f in
  (part_of_speech e <> [] <->
   _is_pos_marker (last (tokens line) []) = true /\
   existsb _contains_chinese (tokens line) = true) /\
  (part_of_speech e <> [] ->
   part_of_speech e = last (tokens line) [] /\
   _contains_chinese (chinese_meaning e) = true).
Proof.
  cbv zeta. pose proof (parse_line_cases line n f) as H. cbv zeta in H.
  pose proof (split_is_token (clean line)) as Htok. fold (tokens line) in Htok.
  destruct (tokens line) as [|p ps] eqn:Et.
  { rewrite H. simpl. split; [split; [congruence|]|congruence].
    intros [_ ?]; discriminate. }
  assert (Hne : p :: ps <> []) by discriminate.
  destruct (chinese_start (p :: ps)) as [[|i]|] eqn:Ec.
  - pose proof (chinese_start_found _ Ec) as (_ & Hex & _ & Hhd).
    simpl in Hex, Hhd.
    destruct (_is_pos_marker (last (p :: ps) [])) eqn:Em; rewrite H;
      cbn [chinese_meaning part_of_speech].
    + destruct (last_Forall [] Htok Hne) as [Hl _].
      split; [split; [intros _|intros _; exact Hl]; split; [reflexivity|exact Hex]|].
      intros _. split; [reflexivity|]. rewrite contains_chinese_join.
      destruct ps as [|q ps].
      { simpl in Em. rewrite (chinese_not_marker _ Hhd) in Em. discriminate. }
      simpl. rewrite Hhd. reflexivity.
    + split; [split; [congruence|intros [? _]; discriminate]|congruence].
  - pose proof (chinese_start_found _ Ec) as (Hi & Hex & _ & Hhd).
    assert (Hall : existsb _contains_chinese (p :: ps) = true).
    { rewrite <- (firstn_skipn (S i) (p :: ps)), existsb_app, Hex.
      apply orb_true_r. }
    destruct (Forall_firstn_skipn (S i) Htok) as [_ Hs].
    pose proof (@last_skipn_lt str (p :: ps) [] (S i) Hi) as Hlast.
    destruct (skipn (S i) (p :: ps)) as [|x mp] eqn:Es.
    { apply (f_equal (@length _)) in Es. rewrite length_skipn in Es.
      simpl in Es, Hi. lia. }
    simpl in Hhd.
    destruct (_ && _) eqn:Em; rewrite H;
      cbn [chinese_meaning part_of_speech].
    + apply andb_true_iff in Em as [Hlen Hm].
      assert (Hl : last (x :: mp) [] <> []).
      { apply (last_Forall [] Hs). discriminate. }
      rewrite <- Hlast.
      split; [split; [intros _; split; [exact Hm|exact Hall]|intros _; exact Hl]|].
      intros _. split; [reflexivity|]. rewrite contains_chinese_join.
      destruct mp as [|y mp]; [discriminate Hlen|].
      simpl. rewrite Hhd. reflexivity.
    + split; [split; [congruence|]|congruence].
      intros [Hm _]. rewrite <- Hlast in Hm. rewrite Hm in Em.
      rewrite andb_true_r in Em. destruct mp as [|y mp]; [|discriminate Em].
      simpl in Hm. rewrite (chinese_not_marker _ Hhd) in Hm. discriminate.
  - rewrite H. simpl. apply chinese_start_None in Ec.
    split; [split; [congruence|]|congruence].
    intros [_ Hx]. simpl in Hx, Ec. congruence.
Qed.

End EntryFacts.

(** ** Part-of-speech markers *)

Section MarkerFacts.

Context {U : UnicodeData}.

Lemma markers_lower (t : str) :
  str_in t pos_markers = true -> lower t = t.
Proof.
  unfold str_in. rewrite existsb_exists. intros (m & Hin & E).
  apply str_eqb_eq in E. subst t.
  repeat (destruct Hin as [<-|Hin];
          [rewrite lower_ascii by reflexivity; reflexivity|]).
  destruct Hin.
Qed.

(** X4.  The second test of [_is_pos_marker] never decides: a text is a
    marker exactly when its lower-cased form is one of the eight markers.
    On ASCII text that is the marker list up to the case of the letters. *)
Theorem is_pos_marker_lower :
  (forall text, _is_pos_marker text = str_in (lower text) pos_markers) /\
  (forall text, forallb is_ascii text = true ->
     _is_pos_marker text = str_in (List.map ascii_lower text) pos_markers).
Proof.
  assert (H : forall text,
             _is_pos_marker text = str_in (lower text) pos_markers).
  { intros text. unfold _is_pos_marker.
    destruct (str_in text pos_markers) eqn:E; [|apply orb_false_r].
    rewrite (markers_lower _ E), E. reflexivity. }
  split; [exact H|]. intros text Ha. rewrite H, lower_ascii by exact Ha.
  reflexivity.
Qed.

End MarkerFacts.

(** ** Loading a file *)

Section LoadFacts.

Context {U : UnicodeData}.

Lemma load_lines_length (f : str) (lines : list str) : forall n,
  length (load_lines f n lines)
  = length (filter (fun l => negb (blank l)) lines).
Proof.
  induction lines as [|l lines IH]; intros n; simpl; [reflexivity|].
  unfold blank. destruct (strip l); simpl; rewrite IH; reflexivity.
Qed.

Lemma load_lines_In (f : str) (lines : list str) : forall n e,
  In e (load_lines f n lines) <->
  exists i line, nth_error lines i = Some line /\ strip line <> [] /\
    e = parse_line line (n + Z.of_nat i) f.
Proof.
  induction lines as [|l lines IH]; intros n e; simpl.
  { split; [tauto|]. intros ([|i] & line & H & _); discriminate. }
  assert (Hshift : forall i, (n + 1 + Z.of_nat i = n + Z.of_nat (S i))%Z)
    by (intros; lia).
  destruct (strip l) eqn:El.
  - rewrite IH. split.
    + intros (i & line & Hn & Hs & ->). exists (S i), line.
      rewrite <- Hshift. auto.
    + intros ([|i] & line & Hn & Hs & ->); simpl in Hn.
      * injection Hn as <-. congruence.
      * exists i, line. rewrite Hshift. auto.
  - simpl. rewrite IH. split.
    + intros [<-|(i & line & Hn & Hs & ->)].
      * exists 0, l. rewrite Z.add_0_r, El. repeat split. discriminate.
      * exists (S i), line. rewrite <- Hshift. auto.
    + intros ([|i] & line & Hn & Hs & ->); simpl in Hn.
      * injection Hn as <-. left. now rewrite Z.add_0_r.
      * right. exists i, line. rewrite Hshift. auto.
Qed.

Lemma parse_line_number (line : str) (n : Z) (f : str) :
  line_number (parse_line line n f) = n.
Proof.
  unfold parse_line. cbv zeta.
  destruct (clean line); [auto|]. destruct (split _); [auto|].
  destruct (chinese_start _) as [[|i]|]; [| |auto].
  - destruct (_is_pos_marker _); auto.
  - destruct (_ && _); auto.
Qed.

Lemma load_lines_from (f : str) (lines : list str) : forall n,
  Forall (fun e => (n <= line_number e)%Z) (load_lines f n lines).
Proof.
  induction lines as [|l lines IH]; intros n; simpl; [constructor|].
  assert (Hrest : Forall (fun e => (n <= line_number e)%Z)
                    (load_lines f (n + 1) lines)).
  { eapply Forall_impl; [|apply IH]. simpl. intros; lia. }
  destruct (strip l); [exact Hrest|]. constructor; [|exact Hrest].
  rewrite parse_line_number. lia.
Qed.

Lemma load_lines_sorted (f : str) (lines : list str) : forall n,
  StronglySorted (fun e1 e2 => (line_number e1 < line_number e2)%Z)
    (load_lines f n lines).
Proof.
  induction lines as [|l lines IH]; intros n; simpl; [constructor|].
  destruct (strip l); [apply IH|]. constructor; [apply IH|].
  eapply Forall_impl; [|apply load_lines_from].
  simpl. intros e He. rewrite parse_line_number. lia.
Qed.

(** X5.  [load_file] returns the number of entries it appended, one for
    each line that is not blank; the entries the analyzer had stay in front;
    the new ones come in the order of the file, each numbered with the
    position of its line in the file counted from 1, blank lines included;
    and the duplicate tables are not touched.  A file that cannot be read
    changes nothing and counts 0. *)
Theorem load_file_entries (a : VocabAnalyzer) (f : str) (lines : list str) :
  let a' := fst (load_file a f (Some lines)) in
  let count := snd (load_file a f (Some lines)) in
  exists loaded,
    entries a' = entries a ++ loaded /\
    count = Z.of_nat (length loaded) /\
    length loaded = length (filter (fun l => negb (blank l)) lines) /\
    (forall e, In e loaded <->
       exists i line, nth_error lines i = Some line /\ blank line = false /\
         e = parse_line line (Z.of_nat i + 1) f) /\
    StronglySorted (fun e1 e2 => (line_number e1 < line_number e2)%Z)
      loaded /\
    selik_duplicates a' = selik_duplicates a /\
    meaning_duplicates a' = meaning_duplicates a /\
    undefined_entries a' = undefined_entries a /\
    load_file a f None = (a, 0%Z).
Proof.
  cbv zeta. exists (load_lines f 1 lines). simpl.
  split; [reflexivity|]. split; [reflexivity|].
  split; [apply load_lines_length|].
  split; [|split; [apply load_lines_sorted|auto]].
  intros e. rewrite load_lines_In. unfold blank.
  split; intros (i & line & Hn & Hs & ->); exists i, line;
    (split; [exact Hn|]); rewrite (Z.add_comm 1).
  - split; [|reflexivity]. destruct (strip line); [congruence|reflexivity].
  - split; [|reflexivity]. destruct (strip line); [discriminate|discriminate].
Qed.

End LoadFacts.

Lemma parse_line_pos_witness :
  let e := parse_line (u "3. ora pelan 走 v.") 3 (u "selik.txt") in
  part_of_speech e <> [] /\
  part_of_speech e = last (tokens (u "3. ora pelan 走 v.")) [] /\
  _contains_chinese (chinese_meaning e) = true.
Proof.
  intros e.
  assert (H : part_of_speech e <> []) by (vm_compute; discriminate).
  split; [exact H|].
  exact (proj2 (@parse_line_pos BasicLatin (u "3. ora pelan 走 v.") 3
                  (u "selik.txt")) H).
Defined.

Lemma is_pos_marker_lower_witness :
  forallb is_ascii (u "ADJ.") = true /\
  _is_pos_marker (u "ADJ.")
  = str_in (List.map ascii_lower (u "ADJ.")) pos_markers.
Proof.
  split; [reflexivity|].
  apply (proj2 (@is_pos_marker_lower BasicLatin)). reflexivity.
Defined.

(** ** The report *)

Section Clusters.

Variables (K E : Type) (eqb : K -> K -> bool) (key : E -> K).
Hypothesis eqb_spec : forall a b, eqb a b = true <-> a = b.

Lemma with_key_nil (k : K) (es : list E) :
  with_key eqb key k es = [] <-> ~ In k (List.map key es).
Proof.
  unfold with_key. induction es as [|e es IH]; simpl; [tauto|].
  destruct (eqb (key e) k) eqn:Ek.
  - apply eqb_spec in Ek. split; [discriminate|]. intros H. tauto.
  - rewrite IH. split; [|tauto]. intros H [Hk|Hk]; [|tauto].
    apply eqb_spec in Hk. congruence.
Qed.

Lemma with_key_NoDup (es : list E) :
  NoDup (List.map key es) <->
  forall k, length (with_key eqb key k es) <= 1.
Proof.
  induction es as [|e es IH]; simpl.
  - split; [intros _ k; simpl; lia|constructor].
  - split.
    + intros H k. inversion H as [|? ? Hn Hd]; subst.
      unfold with_key. simpl. fold (with_key eqb key k es).
      destruct (eqb (key e) k) eqn:Ek.
      * apply eqb_spec in Ek. subst k.
        apply with_key_nil in Hn. rewrite Hn. simpl. lia.
      * now apply IH.
    + intros H. constructor.
      * apply with_key_nil. specialize (H (key e)).
        unfold with_key in *. simpl in H.
        rewrite (proj2 (eqb_spec _ _) eq_refl) in H. simpl in H.
        destruct (filter _ es); [reflexivity|simpl in H; lia].
      * apply IH. intros k. specialize (H k). unfold with_key in *.
        simpl in H. destruct (eqb (key e) k); simpl in H; lia.
Qed.

End Clusters.

(** No key is reported when no two entries share one. *)
Lemma clusters_nil (K : Type) (eqb : K -> K -> bool)
    (key : VocabEntry -> K) (es : list VocabEntry) :
  (forall a b, eqb a b = true <-> a = b) ->
  filter (fun kv : K * list VocabEntry => 1 <? length (snd kv))
    (group_by eqb key es []) = []
  <-> NoDup (List.map key es).
Proof.
  intros Hspec. destruct (clusters_spec eqb key es Hspec) as [_ Hin].
  rewrite (@with_key_NoDup _ _ eqb key Hspec es). split.
  - intros E k. rewrite E in Hin. specialize (Hin k (with_key eqb key k es)).
    simpl in Hin. destruct (le_lt_dec (length (with_key eqb key k es)) 1);
      [assumption|]. exfalso. apply Hin. auto.
  - intros H. destruct (filter _ _) as [|[k xs] d]; [reflexivity|].
    destruct (proj1 (Hin k xs) (or_introl eq_refl)) as [-> Hl].
    specialize (H k). lia.
Qed.

Lemma filter_negb_nil (A : Type) (f : A -> bool) (l : list A) :
  filter (fun x => negb (f x)) l = [] <-> Forall (fun x => f x = true) l.
Proof.
  induction l as [|x l IH]; simpl; [split; [constructor|reflexivity]|].
  destruct (f x) eqn:E; simpl.
  - rewrite IH. split; [now constructor|now inversion 1].
  - split; [discriminate|]. inversion 1; congruence.
Qed.

Section ReportFacts.

Context {U : UnicodeData}.

(** The verdict of the report is its last line and nothing else. *)
Lemma print_results_verdict (a : VocabAnalyzer) (v : report) :
  v = AllUnique \/ v = IssuesFound ->
  (In v (print_results a) <->
   v = match undefined_entries a, selik_duplicates a, meaning_duplicates a
       with
       | [], [], [] => AllUnique
       | _, _, _ => IssuesFound
       end).
Proof.
  intros Hv. unfold print_results. rewrite !in_app_iff. split.
  - intros [H|[H|[H|[H|[H|H]]]]].
    + destruct H as [<-|[]]; destruct Hv; discriminate.
    + destruct (undefined_entries a) as [|e es].
      * destruct H as [<-|[]]; destruct Hv; discriminate.
      * destruct H as [<-|H]; [destruct Hv; discriminate|].
        apply in_map_iff in H as (x & <- & _). destruct Hv; discriminate.
    + destruct (selik_duplicates a) as [|e es].
      * destruct H as [<-|[]]; destruct Hv; discriminate.
      * destruct H as [<-|H]; [destruct Hv; discriminate|].
        apply in_flat_map in H as (x & _ & [<-|H]);
          [destruct Hv; discriminate|].
        apply in_map_iff in H as (y & <- & _). destruct Hv; discriminate.
    + destruct (meaning_duplicates a) as [|e es].
      * destruct H as [<-|[]]; destruct Hv; discriminate.
      * destruct H as [<-|H]; [destruct Hv; discriminate|].
        apply in_flat_map in H as (x & _ & [<-|H]);
          [destruct Hv; discriminate|].
        apply in_map_iff in H as (y & <- & _). destruct Hv; discriminate.
    + repeat (destruct H as [<-|H]; [destruct Hv; discriminate|]).
      destruct H.
    + destruct H as [<-|[]]. reflexivity.
  - intros ->. do 5 right. left. reflexivity.
Qed.

Lemma read_entries_cons (file : named_file) (files : list named_file) :
  read_entries (file :: files)
  = match snd file with
    | Some (Some lines) => load_lines (fst file) 1 lines
    | _ => []
    end ++ read_entries files.
Proof. reflexivity. Qed.

(** What the loading loop leaves: the entries of the readable files behind
    those the analyzer had, their number added to the total, and one line of
    output for each file. *)
Lemma load_files_spec (files : list named_file) : forall a total,
  let '(a', total', outs) := load_files files a total in
  entries a' = entries a ++ read_entries files /\
  total' = (total + Z.of_nat (length (read_entries files)))%Z /\
  selik_duplicates a' = selik_duplicates a /\
  meaning_duplicates a' = meaning_duplicates a /\
  Forall loading outs /\ length outs = length files.
Proof.
  induction files as [|[path [content|]] files IH]; intros a total.
  - simpl. rewrite app_nil_r, Z.add_0_r. repeat split; constructor.
  - cbn [load_files]. destruct (load_file a path content) as [a1 count] eqn:El.
    specialize (IH a1 (total + count)%Z).
    destruct (load_files files a1 (total + count)) as [[a' total'] outs].
    destruct IH as (He & Ht & Hs & Hm & Ho & Hl).
    rewrite read_entries_cons. cbn [fst snd].
    destruct content as [lines|]; simpl in El; injection El as <- <-.
    + simpl in He, Hs, Hm. rewrite He, Ht, Hs, Hm, length_app.
      rewrite <- app_assoc. repeat split; try lia.
      * constructor; [exact I|exact Ho].
      * simpl. lia.
    + simpl. rewrite He, Ht, Hs, Hm. repeat split; try lia.
      constructor; [exact I|exact Ho].
  - cbn [load_files]. specialize (IH a total).
    destruct (load_files files a total) as [[a' total'] outs].
    destruct IH as (He & Ht & Hs & Hm & Ho & Hl).
    rewrite read_entries_cons. cbn [fst snd app].
    repeat split; try assumption.
    + constructor; [exact I|exact Ho].
    + simpl. lia.
Qed.

Lemma read_entries_has_word (files : list named_file) :
  Forall has_word (read_entries files).
Proof.
  induction files as [|[path [[lines|]|]] files IH]; try exact IH.
  - constructor.
  - rewrite read_entries_cons. apply Forall_app. split; [|exact IH].
    apply load_lines_has_word.
Qed.

End ReportFacts.

Section VerdictFacts.

Context {U : UnicodeData}.

Lemma analyze_undefined (a : VocabAnalyzer) :
  undefined_entries (analyze a)
  = filter (fun e => negb (is_defined e)) (entries a).
Proof. reflexivity. Qed.

(** The three tables of the analysis are empty exactly for unique
    entries. *)
Lemma analyze_clean (a : VocabAnalyzer) :
  ready a ->
  (undefined_entries (analyze a) = [] /\ selik_duplicates (analyze a) = [] /\
   meaning_duplicates (analyze a) = [])
  <-> unique_entries (entries a).
Proof.
  intros Hr. rewrite analyze_undefined, (analyze_selik Hr),
    (analyze_meaning Hr), filter_negb_nil.
  unfold unique_entries. split.
  - intros (Hd & Hs & Hm). rewrite (filter_all _ Hd) in Hs, Hm.
    split; [exact Hd|].
    split; [apply (@clusters_nil _ str_eqb selik_word _ str_eqb_eq), Hs
           |apply (@clusters_nil _ key_eqb meaning_key _ key_eqb_eq), Hm].
  - intros (Hd & Hs & Hm). rewrite (filter_all _ Hd).
    split; [exact Hd|].
    split; [apply (@clusters_nil _ str_eqb selik_word _ str_eqb_eq), Hs
           |apply (@clusters_nil _ key_eqb meaning_key _ key_eqb_eq), Hm].
Qed.

Lemma verdict_all_unique (a : VocabAnalyzer) :
  match undefined_entries a, selik_duplicates a, meaning_duplicates a with
  | [], [], [] => AllUnique
  | _, _, _ => IssuesFound
  end = AllUnique
  <-> undefined_entries a = [] /\ selik_duplicates a = [] /\
      meaning_duplicates a = [].
Proof.
  destruct (undefined_entries a), (selik_duplicates a),
    (meaning_duplicates a); split; try discriminate; auto;
    intros (? & ? & ?); discriminate.
Qed.

Lemma verdict_issues (a : VocabAnalyzer) :
  match undefined_entries a, selik_duplicates a, meaning_duplicates a with
  | [], [], [] => AllUnique
  | _, _, _ => IssuesFound
  end = IssuesFound
  <-> ~ (undefined_entries a = [] /\ selik_duplicates a = [] /\
         meaning_duplicates a = []).
Proof.
  destruct (undefined_entries a), (selik_duplicates a),
    (meaning_duplicates a); split; try discriminate; auto;
    try (intros _ (? & ? & ?); discriminate).
  intros H. exfalso. apply H. auto.
Qed.

(** X6.  The analyzer, run on files, ends its report with the line that
    all entries are properly defined and unique exactly when the files that
    could be read hold at least one entry, every entry is defined, no two
    share a word and no two share a meaning with its part of speech;
    with the line that issues were found exactly when they hold an entry
    and are not like that; and stops with the notice that no entries were
    loaded, before any analysis, exactly when they hold none. *)
Theorem analyzer_main_verdict (files : list named_file) :
  let es := read_entries files in
  (In NoEntriesLoaded (analyzer_main files) <-> files <> [] /\ es = []) /\
  (In (Result AllUnique) (analyzer_main files)
   <-> es <> [] /\ unique_entries es) /\
  (In (Result IssuesFound) (analyzer_main files)
   <-> es <> [] /\ ~ unique_entries es).
Proof.
  cbv zeta. destruct files as [|file files].
  { simpl. split; [|split]; (split; [intros [E|[]]; discriminate|]);
      intros [E _]; congruence. }
  unfold analyzer_main.
  pose proof (load_files_spec (file :: files) new_analyzer 0) as Hspec.
  destruct (load_files (file :: files) new_analyzer 0) as [[a total] outs].
  destruct Hspec as (He & Ht & Hs & Hm & Ho & _).
  cbn [new_analyzer entries selik_duplicates meaning_duplicates app]
    in He, Hs, Hm.
  rewrite Z.add_0_l in Ht.
  assert (Hout : forall o, In o outs -> loading o).
  { now apply Forall_forall. }
  assert (Hr : ready a).
  { repeat split; [exact Hs|exact Hm|].
    rewrite He. apply read_entries_has_word. }
  destruct (total =? 0)%Z eqn:E0.
  - apply Z.eqb_eq in E0.
    assert (Hnil : read_entries (file :: files) = []).
    { destruct (read_entries (file :: files)); [reflexivity|].
      simpl in Ht. lia. }
    rewrite Hnil. split; [|split].
    + rewrite in_app_iff. split; [intros _|intros _; right; now left].
      split; [discriminate|reflexivity].
    + rewrite in_app_iff. split; [|intros [H _]; congruence].
      intros [H|[H|[]]]; [apply Hout in H; destruct H|discriminate].
    + rewrite in_app_iff. split; [|intros [H _]; congruence].
      intros [H|[H|[]]]; [apply Hout in H; destruct H|discriminate].
  - apply Z.eqb_neq in E0.
    assert (Hne : read_entries (file :: files) <> []).
    { intros E. rewrite E in Ht. simpl in Ht. lia. }
    assert (Hres : forall v, v = AllUnique \/ v = IssuesFound ->
              (In (Result v)
                 (outs ++ [Analyzing;
                           Found (length (filter is_defined (entries a)))
                             (length (undefined_entries (analyze a)))]
                  ++ List.map Result (print_results (analyze a)))
               <-> In v (print_results (analyze a)))).
    { intros v Hv. rewrite !in_app_iff, in_map_iff. split.
      - intros [H|[H|(x & [= <-] & H)]]; [| |exact H].
        + apply Hout in H. destruct H.
        + destruct H as [H|[H|[]]]; discriminate.
      - intros H. right. right. exists v. auto. }
    rewrite <- He. split; [|split].
    + rewrite !in_app_iff, in_map_iff. split; [|intros [_ H]; congruence].
      intros [H|[H|(x & H & _)]]; [| |discriminate].
      * apply Hout in H. destruct H.
      * destruct H as [H|[H|[]]]; discriminate.
    + rewrite Hres by auto. rewrite print_results_verdict by auto.
      split.
      * intros H. symmetry in H. apply verdict_all_unique in H.
        split; [congruence|]. now apply analyze_clean.
      * intros [_ H]. symmetry. apply verdict_all_unique.
        now apply analyze_clean.
    + rewrite Hres by auto. rewrite print_results_verdict by auto.
      split.
      * intros H. symmetry in H. apply verdict_issues in H.
        split; [congruence|]. intros Hu. apply H. now apply analyze_clean.
      * intros [_ H]. symmetry. apply verdict_issues.
        intros Hu. apply H. now apply analyze_clean.
Qed.

End VerdictFacts.

(** ** Patterns with groups *)

Section CaptureFacts.

Variable R : Type.

(** What a greedy repetition hands on was read off the text: a run of
    characters of the class, and the rest. *)
Lemma rx_star_taking_sound (p : char -> bool) (k : str -> str -> option R)
    (s : str) : forall taken x,
  rx_star_taking p k taken s = Some x ->
  exists run rest, s = run ++ rest /\ forallb p run = true /\
    k (taken ++ run) rest = Some x.
Proof.
  induction s as [|c s IH]; intros taken x; cbn [rx_star_taking].
  - intros H. exists [], []. rewrite !app_nil_r. auto.
  - assert (Hstop : k taken (c :: s) = Some x ->
             exists run rest, c :: s = run ++ rest /\
               forallb p run = true /\ k (taken ++ run) rest = Some x).
    { intros H. exists [], (c :: s). rewrite !app_nil_r. auto. }
    destruct (p c) eqn:Ec; [|exact Hstop].
    destruct (rx_star_taking p k (taken ++ [c]) s) as [y|] eqn:E;
      [|exact Hstop].
    intros [= <-]. destruct (IH _ _ E) as (run & rest & -> & Hrun & Hk).
    exists (c :: run), rest. rewrite <- app_assoc in Hk. simpl.
    rewrite Ec. auto.
Qed.

Lemma rx_group_plus_sound (p : char -> bool) (k : str -> str -> option R)
    (s : str) (x : R) :
  rx_group_plus p k s = Some x ->
  exists run rest, s = run ++ rest /\ run <> [] /\ forallb p run = true /\
    k run rest = Some x.
Proof.
  unfold rx_group_plus. destruct s as [|c s]; [discriminate|].
  destruct (p c) eqn:Ec; [|discriminate]. intros H.
  apply rx_star_taking_sound in H as (run & rest & -> & Hrun & Hk).
  exists (c :: run), rest. simpl. rewrite Ec.
  repeat split; auto. discriminate.
Qed.

Lemma rx_star_sound (p : char -> bool) (k : str -> option R) (s : str)
    (x : R) :
  rx_star p k s = Some x ->
  exists run rest, s = run ++ rest /\ forallb p run = true /\
    k rest = Some x.
Proof. apply rx_star_taking_sound. Qed.

Lemma rx_plus_sound (p : char -> bool) (k : str -> option R) (s : str)
    (x : R) :
  rx_plus p k s = Some x ->
  exists run rest, s = run ++ rest /\ run <> [] /\ forallb p run = true /\
    k rest = Some x.
Proof. apply rx_group_plus_sound. Qed.

Lemma rx_char_sound (ch : char) (k : str -> option R) (s : str) (x : R) :
  rx_char ch k s = Some x -> exists rest, s = ch :: rest /\ k rest = Some x.
Proof.
  unfold rx_char. destruct s as [|c s]; [discriminate|].
  unfold char_eqb. destruct (c =? ch)%N eqn:E; [|discriminate].
  apply N.eqb_eq in E. subst c. intros H. now exists s.
Qed.

(** The greedy choice stands when the rest of the pattern accepts it. *)
Lemma rx_star_taking_greedy (p : char -> bool) (k : str -> str -> option R)
    (run rest : str) (x : R) : forall taken,
  forallb p run = true ->
  match rest with c :: _ => p c = false | [] => True end ->
  k (taken ++ run) rest = Some x ->
  rx_star_taking p k taken (run ++ rest) = Some x.
Proof.
  induction run as [|c run IH]; intros taken Hrun Hrest Hk.
  - rewrite app_nil_r in Hk. simpl.
    destruct rest as [|c rest]; [exact Hk|]. cbn [rx_star_taking].
    now rewrite Hrest.
  - simpl in Hrun. apply andb_true_iff in Hrun as [Hc Hrun].
    cbn [app rx_star_taking]. rewrite Hc.
    rewrite (IH (taken ++ [c])); auto. now rewrite <- app_assoc.
Qed.

(** The repetition gives back its last character when the rest of the
    pattern needs it. *)
Lemma rx_star_taking_back (p : char -> bool) (k : str -> str -> option R)
    (run rest : str) (c : char) (x : R) : forall taken,
  forallb p run = true -> p c = true ->
  match rest with c' :: _ => p c' = false | [] => True end ->
  k (taken ++ run ++ [c]) rest = None ->
  k (taken ++ run) (c :: rest) = Some x ->
  rx_star_taking p k taken (run ++ c :: rest) = Some x.
Proof.
  induction run as [|a run IH]; intros taken Hrun Hc Hrest Hno Hk.
  - rewrite app_nil_r in Hk. cbn [app rx_star_taking]. rewrite Hc.
    assert (E : rx_star_taking p k (taken ++ [c]) rest = None).
    { destruct rest as [|c' rest]; cbn [rx_star_taking]; [exact Hno|].
      rewrite Hrest. exact Hno. }
    rewrite E. exact Hk.
  - simpl in Hrun. apply andb_true_iff in Hrun as [Ha Hrun].
    cbn [app rx_star_taking]. rewrite Ha.
    rewrite (IH (taken ++ [a])); auto; rewrite <- app_assoc; assumption.
Qed.

End CaptureFacts.

(** ** Stripping *)

Lemma lstrip_id (s : str) : starts_ws s = false -> lstrip s = s.
Proof. destruct s as [|c s]; simpl; [reflexivity|]. now intros ->. Qed.

Lemma lstrip_app_ws (ws s : str) :
  forallb isspace ws = true -> lstrip (ws ++ s) = lstrip s.
Proof.
  induction ws as [|c ws IH]; simpl; [reflexivity|].
  intros H. apply andb_true_iff in H as [-> H]. now apply IH.
Qed.

Lemma rstrip_id (s : str) : ends_ws s = false -> rstrip s = s.
Proof.
  intros H. unfold rstrip. rewrite lstrip_id by exact H.
  apply rev_involutive.
Qed.

Lemma forallb_rev (A : Type) (p : A -> bool) (l : list A) :
  forallb p (rev l) = forallb p l.
Proof.
  induction l as [|x l IH]; [reflexivity|]. simpl.
  rewrite forallb_app, IH. simpl. rewrite andb_true_r. apply andb_comm.
Qed.

Lemma rstrip_app_ws (s ws : str) :
  forallb isspace ws = true -> rstrip (s ++ ws) = rstrip s.
Proof.
  intros H. unfold rstrip. rewrite rev_app_distr, lstrip_app_ws;
    [reflexivity|]. now rewrite forallb_rev.
Qed.

Lemma strip_id (s : str) :
  starts_ws s = false -> ends_ws s = false -> strip s = s.
Proof.
  intros H1 H2. unfold strip. rewrite lstrip_id by exact H1.
  now apply rstrip_id.
Qed.

Lemma strip_strip (s : str) : strip (strip s) = strip s.
Proof. apply strip_id; [apply strip_starts|apply strip_ends]. Qed.

Lemma lstrip_all_ws (ws : str) : forallb isspace ws = true -> lstrip ws = [].
Proof.
  intros H. rewrite <- (app_nil_r ws). now rewrite lstrip_app_ws.
Qed.

(** Whitespace around a text is stripped. *)
Lemma strip_around (a s b : str) :
  forallb isspace a = true -> forallb isspace b = true ->
  strip (a ++ s ++ b) = strip s.
Proof.
  intros Ha Hb. unfold strip. rewrite lstrip_app_ws by exact Ha.
  destruct (lstrip_suffix s) as (ws & E & Hws).
  pose proof (lstrip_starts s) as Hst.
  destruct (lstrip s) as [|c r] eqn:El.
  - rewrite app_nil_r in E. subst s. rewrite lstrip_app_ws by exact Hws.
    now rewrite lstrip_all_ws.
  - rewrite E at 1. rewrite <- app_assoc, lstrip_app_ws by exact Hws.
    rewrite lstrip_id by exact Hst. now apply rstrip_app_ws.
Qed.

Lemma forallb_lstrip (p : char -> bool) (s : str) :
  forallb p s = true -> forallb p (lstrip s) = true.
Proof.
  intros H. destruct (lstrip_suffix s) as (ws & E & _).
  rewrite E, forallb_app in H. now apply andb_true_iff in H.
Qed.

Lemma forallb_rstrip (p : char -> bool) (s : str) :
  forallb p s = true -> forallb p (rstrip s) = true.
Proof.
  intros H. destruct (rstrip_prefix s) as (ws & E & _).
  rewrite E, forallb_app in H. now apply andb_true_iff in H.
Qed.

Lemma forallb_strip (p : char -> bool) (s : str) :
  forallb p s = true -> forallb p (strip s) = true.
Proof. intros H. now apply forallb_rstrip, forallb_lstrip. Qed.

(** ** The pattern of the vocabulary *)

Section VocabFacts.

Context {U : UnicodeData}.

Lemma pattern_match_shape (line word meaning : str) :
  pattern_match line = Some (word, meaning) ->
  exists ws0 digits ws1 ws2 ending,
    line = ws0 ++ digits ++ 0x2E%N :: ws1 ++ word ++ ws2 ++ meaning ++ ending /\
    forallb isspace ws0 = true /\
    digits <> [] /\ forallb isdecimal digits = true /\
    forallb isspace ws1 = true /\
    word <> [] /\ forallb is_letter_or_space word = true /\
    ws2 <> [] /\ forallb isspace ws2 = true /\
    meaning <> [] /\ forallb not_newline meaning = true /\
    at_end ending = true.
Proof.
  intros E. unfold pattern_match in E.
  apply rx_star_sound in E as (ws0 & s1 & -> & Hws0 & E).
  apply rx_plus_sound in E as (digits & s2 & -> & Hd & Hdigits & E).
  apply rx_char_sound in E as (s3 & -> & E).
  apply rx_star_sound in E as (ws1 & s4 & -> & Hws1 & E).
  apply rx_group_plus_sound in E as (word' & s5 & -> & Hw & Hword & E).
  apply rx_plus_sound in E as (ws2 & s6 & -> & Hs & Hws2 & E).
  apply rx_group_plus_sound in E as (meaning' & ending & -> & Hm & Hmeaning & E).
  destruct (at_end ending) eqn:Hend; [|discriminate].
  injection E as <- <-.
  exists ws0, digits, ws1, ws2, ending. repeat split; auto.
Qed.

(** X7.  A line enters the vocabulary only if it reads: whitespace, decimal
    digits, a full stop, whitespace, a run of ASCII letters and spaces,
    whitespace, a run of characters without a newline up to the end of the
    line.  Its word is the run of letters and spaces, stripped, so it holds
    nothing but ASCII letters and spaces, and its meaning is the last run,
    stripped. *)
Theorem vocab_entry_shape (line w m : str) :
  vocab_entry line = Some (w, m) ->
  exists ws0 digits ws1 word ws2 meaning ending,
    line = ws0 ++ digits ++ 0x2E%N :: ws1 ++ word ++ ws2 ++ meaning ++ ending /\
    forallb isspace ws0 = true /\
    digits <> [] /\ forallb isdecimal digits = true /\
    forallb isspace ws1 = true /\
    word <> [] /\ forallb is_letter_or_space word = true /\
    ws2 <> [] /\ forallb isspace ws2 = true /\
    meaning <> [] /\ forallb not_newline meaning = true /\
    at_end ending = true /\
    w = strip word /\ m = strip meaning /\
    forallb is_letter_or_space w = true.
Proof.
  unfold vocab_entry.
  destruct (pattern_match line) as [[word meaning]|] eqn:E; [|discriminate].
  intros [= <- <-].
  apply pattern_match_shape in E
    as (ws0 & digits & ws1 & ws2 & ending & H).
  exists ws0, digits, ws1, word, ws2, meaning, ending.
  repeat split; try apply H. apply forallb_strip, H.
Qed.

End VocabFacts.

Lemma vocab_entry_shape_witness :
  vocab_entry (u "3. ora pelan 走 v.") = Some (u "ora pelan", u "走 v.") /\
  exists ws0 digits ws1 word ws2 meaning ending,
    u "3. ora pelan 走 v."
    = ws0 ++ digits ++ 0x2E%N :: ws1 ++ word ++ ws2 ++ meaning ++ ending /\
    forallb isspace ws0 = true /\
    digits <> [] /\ forallb isdecimal digits = true /\
    forallb isspace ws1 = true /\
    word <> [] /\ forallb is_letter_or_space word = true /\
    ws2 <> [] /\ forallb isspace ws2 = true /\
    meaning <> [] /\ forallb not_newline meaning = true /\
    at_end ending = true /\
    u "ora pelan" = strip word /\ u "走 v." = strip meaning /\
    forallb is_letter_or_space (u "ora pelan") = true.
Proof.
  split; [reflexivity|].
  apply (@vocab_entry_shape BasicLatin); reflexivity.
Defined.

(** ** Classes of characters *)

Ltac char_facts :=
  repeat match goal with
         | H : (_ && _) = true |- _ => apply andb_true_iff in H as [? ?]
         | H : (_ || _) = true |- _ => apply orb_true_iff in H as [?|?]
         | H : (_ && _) = false |- _ => apply andb_false_iff in H as [?|?]
         | H : (_ || _) = false |- _ => apply orb_false_iff in H as [? ?]
         | H : negb _ = true |- _ => apply negb_true_iff in H
         | H : negb _ = false |- _ => apply negb_false_iff in H
         | H : (_ <=? _)%N = true |- _ => apply N.leb_le in H
         | H : (_ <=? _)%N = false |- _ => apply N.leb_gt in H
         | H : (_ <? _)%N = true |- _ => apply N.ltb_lt in H
         | H : (_ <? _)%N = false |- _ => apply N.ltb_ge in H
         | H : (_ =? _)%N = true |- _ => apply N.eqb_eq in H
         | H : (_ =? _)%N = false |- _ => apply N.eqb_neq in H
         end.

Ltac char_goal :=
  repeat match goal with
         | |- (_ && _) = true => apply andb_true_iff; split
         | |- (_ || _) = false => apply orb_false_iff; split
         | |- negb _ = true => apply negb_true_iff
         | |- negb _ = false => apply negb_false_iff
         | |- (_ <=? _)%N = true => apply N.leb_le
         | |- (_ <=? _)%N = false => apply N.leb_gt
         | |- (_ <? _)%N = true => apply N.ltb_lt
         | |- (_ <? _)%N = false => apply N.ltb_ge
         | |- (_ =? _)%N = true => apply N.eqb_eq
         | |- (_ =? _)%N = false => apply N.eqb_neq
         end.

(** The space is the only whitespace of the word class. *)
Lemma space_of_word_class (c : char) :
  isspace c = true -> is_letter_or_space c = true -> c = 0x20%N.
Proof.
  unfold isspace, is_letter_or_space. intros H1 H2. char_facts; lia.
Qed.

Lemma digit_not_space (c : char) :
  ascii_isdigit c = true -> isspace c = false.
Proof.
  unfold ascii_isdigit, isspace. intros H. char_facts.
  char_goal; try lia; apply andb_false_iff;
    (left; apply N.leb_gt; lia) || (right; apply N.leb_gt; lia).
Qed.

Lemma digit_ascii (c : char) : ascii_isdigit c = true -> is_ascii c = true.
Proof.
  unfold ascii_isdigit, is_ascii. intros H. char_facts. char_goal. lia.
Qed.

Lemma space_class (c : char) : c = 0x20%N -> isspace c = true.
Proof. now intros ->. Qed.

Lemma space_word_class (c : char) : c = 0x20%N -> is_letter_or_space c = true.
Proof. now intros ->. Qed.

(** The spaces a run of whitespace begins with. *)
Lemma leading_spaces (ws : str) :
  exists sp rest, ws = sp ++ rest /\ forallb (N.eqb 0x20) sp = true /\
    match rest with c :: _ => c <> 0x20%N | [] => True end.
Proof.
  induction ws as [|c ws (sp & rest & -> & Hsp & Hrest)].
  - exists [], []. auto.
  - destruct (N.eqb 0x20 c) eqn:E.
    + exists (c :: sp), rest. cbn [forallb app]. rewrite E. auto.
    + exists [], (c :: sp ++ rest). repeat split; auto.
      apply N.eqb_neq in E. congruence.
Qed.

Lemma spaces_isspace (sp : str) :
  forallb (N.eqb 0x20) sp = true ->
  forallb isspace sp = true /\ forallb is_letter_or_space sp = true.
Proof.
  induction sp as [|c sp IH]; cbn [forallb]; [auto|].
  intros H. apply andb_true_iff in H as [Hc Hsp].
  apply N.eqb_eq in Hc. subst c. destruct (IH Hsp) as [-> ->]. auto.
Qed.

Lemma all_spaces_last (sp : str) :
  sp <> [] -> forallb (N.eqb 0x20) sp = true ->
  exists sp', sp = sp' ++ [0x20%N] /\ forallb (N.eqb 0x20) sp' = true.
Proof.
  intros Hne Hsp. destruct (exists_last Hne) as (sp' & c & ->).
  rewrite forallb_app in Hsp. apply andb_true_iff in Hsp as [Hsp' Hc].
  cbn [forallb] in Hc. rewrite andb_true_r in Hc. apply N.eqb_eq in Hc.
  subst c. now exists sp'.
Qed.

Lemma at_end_head (ending : str) :
  at_end ending = true ->
  match ending with c :: _ => not_newline c = false | [] => True end.
Proof.
  destruct ending as [|c [|c' r]]; simpl; [auto| |discriminate].
  unfold not_newline. now intros ->.
Qed.

Section StandardLines.

Context {U : UnicodeData}.

Variables (word meaning ending : str).

Hypothesis meaning_head :
  exists c r, meaning = c :: r /\ is_letter_or_space c = false /\
    isspace c = false.
Hypothesis meaning_line : forallb not_newline meaning = true.
Hypothesis ending_end : at_end ending = true.

(** The last group takes the meaning. *)
Lemma group_meaning (w : str) :
  rx_group_plus not_newline
    (fun meaning rest => if at_end rest then Some (w, meaning) else None)
    (meaning ++ ending)
  = Some (w, meaning).
Proof.
  destruct meaning_head as (c & r & E & _ & _). rewrite E in *.
  cbn [forallb] in meaning_line.
  apply andb_true_iff in meaning_line as [Hc Hr].
  cbn [app rx_group_plus]. rewrite Hc.
  apply rx_star_taking_greedy;
    [exact Hr|now apply at_end_head|cbn [app]; now rewrite ending_end].
Qed.

(** The whitespace before the meaning. *)
Lemma space_then_meaning (w ws : str) :
  ws <> [] -> forallb isspace ws = true ->
  rx_plus isspace
    (rx_group_plus not_newline
       (fun meaning rest => if at_end rest then Some (w, meaning) else None))
    (ws ++ meaning ++ ending)
  = Some (w, meaning).
Proof.
  intros Hne Hws. destruct ws as [|t tr]; [congruence|].
  cbn [forallb] in Hws. apply andb_true_iff in Hws as [Ht Htr].
  unfold rx_plus. cbn [app rx_group_plus]. rewrite Ht.
  apply rx_star_taking_greedy; [exact Htr| |apply group_meaning].
  destruct meaning_head as (c & r & -> & _ & Hc). exact Hc.
Qed.

Lemma no_space_no_meaning (w : str) :
  rx_plus isspace
    (rx_group_plus not_newline
       (fun meaning rest => if at_end rest then Some (w, meaning) else None))
    (meaning ++ ending)
  = None.
Proof.
  destruct meaning_head as (c & r & -> & _ & Hc).
  unfold rx_plus. cbn [app rx_group_plus]. now rewrite Hc.
Qed.

Hypothesis word_letters : forallb is_letter_or_space word = true.
Hypothesis word_nonempty : word <> [].

(** The first group takes the word and the spaces behind it that the
    whitespace after it can spare. *)
Lemma group_word (ws2 : str) :
  ws2 <> [] -> forallb isspace ws2 = true ->
  exists sp,
    forallb isspace sp = true /\
    rx_group_plus is_letter_or_space
      (fun word =>
         rx_plus isspace
           (rx_group_plus not_newline
              (fun meaning rest =>
                 if at_end rest then Some (word, meaning) else None)))
      (word ++ ws2 ++ meaning ++ ending)
    = Some (word ++ sp, meaning).
Proof.
  intros Hne Hws.
  destruct (leading_spaces ws2) as (sp & rest & -> & Hsp & Hrest).
  destruct (spaces_isspace _ Hsp) as [Hsp1 Hsp2].
  rewrite forallb_app in Hws. apply andb_true_iff in Hws as [_ Hrest_ws].
  destruct word as [|w0 wr] eqn:Ew; [congruence|].
  cbn [forallb] in word_letters.
  apply andb_true_iff in word_letters as [Hw0 Hwr].
  cbn [app rx_group_plus]. rewrite Hw0.
  destruct rest as [|t rest].
  - rewrite app_nil_r in *.
    destruct (all_spaces_last Hne Hsp) as (sp' & -> & Hsp').
    destruct (spaces_isspace _ Hsp') as [Hsp1' Hsp2'].
    exists sp'. split; [exact Hsp1'|].
    match goal with
    | |- rx_star_taking ?p ?k ?tk _ = _ =>
        transitivity
          (rx_star_taking p k tk ((wr ++ sp') ++ 0x20%N :: meaning ++ ending));
        [f_equal; rewrite <- !app_assoc; reflexivity|]
    end.
    apply rx_star_taking_back.
    + rewrite forallb_app, Hwr, Hsp2'. reflexivity.
    + reflexivity.
    + destruct meaning_head as (c & r & -> & Hc & _). exact Hc.
    + apply no_space_no_meaning.
    + apply (space_then_meaning _ (ws:=[0x20%N])); [discriminate|reflexivity].
  - exists sp. split; [exact Hsp1|].
    match goal with
    | |- rx_star_taking ?p ?k ?tk _ = _ =>
        transitivity
          (rx_star_taking p k tk
             ((wr ++ sp) ++ (t :: rest) ++ meaning ++ ending));
        [f_equal; rewrite <- !app_assoc; reflexivity|]
    end.
    apply rx_star_taking_greedy.
    + rewrite forallb_app, Hwr, Hsp2. reflexivity.
    + cbn [app]. cbn [forallb] in Hrest_ws.
      apply andb_true_iff in Hrest_ws as [Ht _].
      destruct (is_letter_or_space t) eqn:E; [|reflexivity].
      destruct (Hrest (space_of_word_class _ Ht E)).
    + apply (space_then_meaning ([w0] ++ wr ++ sp) (ws:=t :: rest));
        [discriminate|exact Hrest_ws].
Qed.

End StandardLines.

Section StandardEntry.

Context {U : UnicodeData}.

Lemma pattern_match_standard
    (line ws0 digits ws1 word ws2 meaning ending : str) :
  standard_line line ws0 digits ws1 word ws2 meaning ending ->
  exists sp,
    forallb isspace sp = true /\
    pattern_match line = Some (word ++ sp, meaning).
Proof.
  intros (-> & Hws0 & Hd & Hdigits & Hws1 & Hw & Hword & Hstrip & Hs & Hws2
          & Hhead & Hline & Hend).
  destruct (@group_word word meaning ending Hhead Hline Hend Hword Hw ws2
              Hs Hws2) as (sp & Hsp & Hg).
  exists sp. split; [exact Hsp|]. unfold pattern_match, rx_star.
  apply rx_star_taking_greedy; [exact Hws0| |].
  { destruct digits as [|d0 dr]; [congruence|]. cbn [forallb] in Hdigits.
    apply andb_true_iff in Hdigits as [Hd0 _]. cbn [app].
    now apply digit_not_space. }
  destruct digits as [|d0 dr]; [congruence|]. cbn [forallb] in Hdigits.
  apply andb_true_iff in Hdigits as [Hd0 Hdr].
  unfold rx_plus. cbn [app rx_group_plus].
  rewrite (isdecimal_ascii _ (digit_ascii _ Hd0)), Hd0.
  apply rx_star_taking_greedy.
  - clear -Hdr. induction dr as [|d dr IH]; [reflexivity|].
    cbn [forallb] in *. apply andb_true_iff in Hdr as [Hd Hdr].
    rewrite (isdecimal_ascii _ (digit_ascii _ Hd)), Hd. now apply IH.
  - now rewrite isdecimal_ascii.
  - cbn [rx_char]. unfold char_eqb. rewrite N.eqb_refl.
    apply rx_star_taking_greedy; [exact Hws1| |exact Hg].
    destruct word as [|w0 wr]; [congruence|]. cbn [app].
    pose proof (strip_starts (w0 :: wr)) as Hst. rewrite Hstrip in Hst.
    exact Hst.
Qed.

Lemma vocab_entry_of_standard
    (line ws0 digits ws1 word ws2 meaning ending : str) :
  standard_line line ws0 digits ws1 word ws2 meaning ending ->
  vocab_entry line = Some (word, strip meaning).
Proof.
  intros H. pose proof H as (_ & _ & _ & _ & _ & _ & _ & Hstrip & _).
  destruct (pattern_match_standard H) as (sp & Hsp & E).
  unfold vocab_entry. rewrite E. do 2 f_equal.
  rewrite <- Hstrip at 2.
  apply (@strip_around [] word sp); [reflexivity|exact Hsp].
Qed.

(** X8.  A standard line defines its word with its meaning: the quiz reads
    the word as written and the rest of the line, stripped, as the
    meaning. *)
Theorem vocab_entry_standard
    (line ws0 digits ws1 word ws2 meaning ending : str) :
  standard_line line ws0 digits ws1 word ws2 meaning ending ->
  vocab_entry line = Some (word, strip meaning).
Proof. apply vocab_entry_of_standard. Qed.

End StandardEntry.

Lemma vocab_entry_standard_witness :
  let line :=
    u "  12. ora pelan" ++ [0x20; 0x09]%N ++ u "走 v." ++ [0x0A%N] in
  standard_line line (u "  ") (u "12") (u " ") (u "ora pelan")
    [0x20; 0x09]%N (u "走 v.") [0x0A%N] /\
  vocab_entry line = Some (u "ora pelan", u "走 v.").
Proof.
  intros line.
  assert (H : standard_line line (u "  ") (u "12") (u " ") (u "ora pelan")
                [0x20; 0x09]%N (u "走 v.") [0x0A%N]).
  { repeat split; try reflexivity; try discriminate.
    eexists _, _. repeat split; reflexivity. }
  split; [exact H|]. exact (vocab_entry_standard H).
Defined.

(** ** The same line in the analyzer *)

Lemma re_star_greedy (p : char -> bool) (k : str -> option str)
    (run rest : str) (x : str) :
  forallb p run = true ->
  match rest with c :: _ => p c = false | [] => True end ->
  k rest = Some x -> re_star p k (run ++ rest) = Some x.
Proof.
  intros Hrun Hrest Hk. induction run as [|c run IH].
  - destruct rest as [|c rest]; simpl; [exact Hk|]. now rewrite Hrest.
  - simpl in Hrun. apply andb_true_iff in Hrun as [Hc Hrun].
    simpl. rewrite Hc, (IH Hrun). reflexivity.
Qed.

Lemma lstrip_app_nonempty (a b : str) :
  lstrip a <> [] -> lstrip (a ++ b) = lstrip a ++ b.
Proof.
  induction a as [|c a IH]; simpl; [congruence|].
  destruct (isspace c); [exact IH|reflexivity].
Qed.

Lemma rstrip_app_nonempty (a b : str) :
  rstrip b <> [] -> rstrip (a ++ b) = a ++ rstrip b.
Proof.
  unfold rstrip. intros H. rewrite rev_app_distr, lstrip_app_nonempty.
  - now rewrite rev_app_distr, rev_involutive.
  - intros E. rewrite E in H. now apply H.
Qed.

Lemma rstrip_head (c : char) (r : str) :
  isspace c = false -> exists r', rstrip (c :: r) = c :: r'.
Proof.
  intros Hc. destruct (rstrip_prefix (c :: r)) as (ws & E & Hws).
  destruct (rstrip (c :: r)) as [|c' r'] eqn:Er.
  - simpl in E. subst ws. simpl in Hws. rewrite Hc in Hws. discriminate.
  - injection E as <- _. now exists r'.
Qed.

Lemma split_from_app_space (a b : str) (c : char) :
  isspace c = true ->
  split_from (a ++ c :: b)
  = (fst (split_from a), snd (split_from a) ++ split b).
Proof.
  intros Hc. induction a as [|x a IH].
  - simpl. rewrite Hc. unfold split. now destruct (split_from b).
  - cbn [app split_from]. rewrite IH. destruct (split_from a) as [cur out].
    cbn [fst snd]. destruct (isspace x); [|reflexivity].
    cbn [fst snd]. f_equal. now destruct cur.
Qed.

(** [split] cuts at every whitespace character. *)
Lemma split_app_space (a b : str) (c : char) :
  isspace c = true -> split (a ++ c :: b) = split a ++ split b.
Proof.
  intros Hc. unfold split at 1 2. rewrite (split_from_app_space _ _ _ Hc).
  destruct (split_from a) as [cur out]. cbn [fst snd]. now destruct cur.
Qed.

Lemma split_all_ws (ws : str) : forallb isspace ws = true -> split ws = [].
Proof.
  induction ws as [|c ws IH]; [reflexivity|]. simpl. intros H.
  apply andb_true_iff in H as [Hc Hws].
  change (c :: ws) with ([] ++ c :: ws). rewrite (split_app_space _ _ _ Hc).
  now rewrite IH.
Qed.

Lemma split_app_ws (a ws b : str) :
  ws <> [] -> forallb isspace ws = true ->
  split (a ++ ws ++ b) = split a ++ split b.
Proof.
  intros Hne Hws. destruct ws as [|c ws]; [congruence|].
  simpl in Hws. apply andb_true_iff in Hws as [Hc Hws].
  cbn [app]. rewrite (split_app_space _ _ _ Hc). f_equal.
  clear -Hws. induction ws as [|x ws IH]; [reflexivity|].
  simpl in Hws. apply andb_true_iff in Hws as [Hx Hws].
  change ((x :: ws) ++ b) with ([] ++ x :: ws ++ b).
  rewrite (split_app_space _ _ _ Hx). now apply IH.
Qed.

Lemma split_rstrip (s : str) : split (rstrip s) = split s.
Proof.
  destruct (rstrip_prefix s) as (ws & E & Hws).
  destruct ws as [|c ws]; [rewrite app_nil_r in E; congruence|].
  rewrite E at 2. rewrite <- (app_nil_r (c :: ws)).
  rewrite split_app_ws by (discriminate || exact Hws).
  now rewrite app_nil_r.
Qed.

Lemma split_from_chars (p : char -> bool) (s : str) :
  forallb p s = true ->
  forallb p (fst (split_from s)) = true /\
  Forall (fun t => forallb p t = true) (snd (split_from s)).
Proof.
  induction s as [|c s IH]; simpl; [auto|]. intros H.
  apply andb_true_iff in H as [Hc Hs]. destruct (IH Hs) as [H1 H2].
  destruct (split_from s) as [cur out]. cbn [fst snd] in *.
  destruct (isspace c); cbn [fst snd].
  - split; [reflexivity|]. destruct cur; [exact H2|]. now constructor.
  - simpl. rewrite Hc, H1. auto.
Qed.

(** The tokens of a text are made of its characters. *)
Lemma split_chars (p : char -> bool) (s : str) :
  forallb p s = true -> Forall (fun t => forallb p t = true) (split s).
Proof.
  intros H. destruct (split_from_chars p s H) as [H1 H2]. unfold split.
  destruct (split_from s) as [cur out]. cbn [fst snd] in *.
  destruct cur; [exact H2|]. now constructor.
Qed.

Lemma letters_not_chinese (t : str) :
  forallb is_letter_or_space t = true -> _contains_chinese t = false.
Proof.
  unfold _contains_chinese. induction t as [|c t IH]; [reflexivity|].
  simpl. intros H. apply andb_true_iff in H as [Hc Ht].
  rewrite (IH Ht), orb_false_r. unfold is_letter_or_space in Hc.
  unfold is_chinese. char_facts; apply andb_false_iff; left;
    apply N.leb_gt; lia.
Qed.

Lemma chinese_start_app (a b : list str) :
  Forall (fun t => _contains_chinese t = false) a ->
  chinese_start (a ++ b)
  = option_map (fun i => length a + i) (chinese_start b).
Proof.
  induction 1 as [|t a Ht _ IH]; simpl.
  - now destruct (chinese_start b).
  - rewrite chinese_start_cons, Ht, IH. now destruct (chinese_start b).
Qed.

Section Agreement.

Context {U : UnicodeData}.

(** The cleaned line of a standard line: what follows the number. *)
Lemma clean_standard (line ws0 digits ws1 word ws2 meaning ending : str) :
  standard_line line ws0 digits ws1 word ws2 meaning ending ->
  clean line = word ++ ws2 ++ rstrip meaning.
Proof.
  intros (-> & Hws0 & Hd & Hdigits & Hws1 & Hw & Hword & Hstrip & Hs & Hws2
          & (c & r & -> & Hc1 & Hc2) & Hline & Hend).
  destruct digits as [|d0 dr]; [congruence|]. cbn [forallb] in Hdigits.
  apply andb_true_iff in Hdigits as [Hd0 Hdr].
  destruct word as [|w0 wr] eqn:Ew; [congruence|]. rewrite <- Ew in *.
  assert (Hw0 : starts_ws word = false).
  { rewrite <- Hstrip. apply strip_starts. }
  assert (Hending : forallb isspace ending = true).
  { destruct ending as [|e [|e' r']]; try reflexivity; try discriminate.
    simpl in Hend. apply N.eqb_eq in Hend. now subst e. }
  destruct (rstrip_head c r Hc2) as [r' Hr'].
  assert (Hstripped :
            strip (ws0 ++ (d0 :: dr) ++ 0x2E%N :: ws1 ++ word ++ ws2
                   ++ (c :: r) ++ ending)
            = (d0 :: dr) ++ 0x2E%N :: ws1 ++ word ++ ws2 ++ rstrip (c :: r)).
  { unfold strip. rewrite lstrip_app_ws by exact Hws0.
    rewrite lstrip_id by (cbn [app starts_ws]; now apply digit_not_space).
    assert (Hm : rstrip ((c :: r) ++ ending) = rstrip (c :: r))
      by now apply rstrip_app_ws.
    replace ((d0 :: dr) ++ 0x2E%N :: ws1 ++ word ++ ws2 ++ (c :: r) ++ ending)
      with (((d0 :: dr) ++ 0x2E%N :: ws1 ++ word ++ ws2)
            ++ (c :: r) ++ ending)
      by (rewrite <- !app_assoc; cbn [app]; now rewrite <- !app_assoc).
    rewrite rstrip_app_nonempty by (rewrite Hm, Hr'; discriminate).
    rewrite Hm. rewrite <- !app_assoc. cbn [app]. now rewrite <- !app_assoc. }
  unfold clean. rewrite Hstripped. unfold sub_number_prefix, number_prefix.
  cbn [app re_star]. rewrite (digit_not_space _ Hd0).
  cbn [re_plus]. rewrite (isdecimal_ascii _ (digit_ascii _ Hd0)), Hd0.
  rewrite (@re_star_greedy isdecimal _ dr _
             (word ++ ws2 ++ rstrip (c :: r))); [reflexivity| | |].
  - clear -Hdr. induction dr as [|d dr IH]; [reflexivity|].
    cbn [forallb] in *. apply andb_true_iff in Hdr as [Hd Hdr].
    rewrite (isdecimal_ascii _ (digit_ascii _ Hd)), Hd. now apply IH.
  - now rewrite isdecimal_ascii.
  - cbn [re_char]. unfold char_eqb. rewrite N.eqb_refl.
    rewrite re_star_isspace_end, lstrip_app_ws by exact Hws1.
    rewrite lstrip_id; [reflexivity|]. rewrite Ew in *. exact Hw0.
Qed.

Lemma tokens_standard (line ws0 digits ws1 word ws2 meaning ending : str) :
  standard_line line ws0 digits ws1 word ws2 meaning ending ->
  tokens line = split word ++ split meaning.
Proof.
  intros H. unfold tokens. rewrite (clean_standard H).
  destruct H as (_ & _ & _ & _ & _ & _ & _ & _ & Hs & Hws2 & _).
  rewrite split_app_ws by assumption. now rewrite split_rstrip.
Qed.

Lemma parse_standard_line
    (line ws0 digits ws1 word ws2 meaning ending : str) (n : Z) (f : str) :
  standard_line line ws0 digits ws1 word ws2 meaning ending ->
  _contains_chinese (hd [] (split meaning)) = true ->
  let e := parse_line line n f in
  vocab_entry line = Some (word, strip meaning) /\
  tokens line = split word ++ split meaning /\
  is_defined e = true /\
  selik_word e = join (u " ") (split word) /\
  (join (u " ") (split word) = word -> selik_word e = word) /\
  split (chinese_meaning e)
    ++ (if nonempty (part_of_speech e) then [part_of_speech e] else [])
  = split (strip meaning).
Proof.
  intros H Hch. cbv zeta.
  pose proof (tokens_standard H) as Htok.
  pose proof H as (_ & _ & _ & _ & _ & Hw & Hword & Hstrip & _).
  split; [exact (vocab_entry_of_standard H)|]. split; [exact Htok|].
  assert (Hwords : Forall (fun t => _contains_chinese t = false) (split word)).
  { eapply Forall_impl; [|apply (split_chars _ _ Hword)].
    apply letters_not_chinese. }
  assert (Hne : split word <> []).
  { intros E. pose proof (strip_starts word) as Hst. rewrite Hstrip in Hst.
    destruct word as [|w0 wr]; [congruence|]. simpl in Hst.
    unfold split in E. simpl in E. destruct (split_from wr) as [cur out].
    rewrite Hst in E. discriminate. }
  assert (Hstart : chinese_start (tokens line) = Some (length (split word))).
  { rewrite Htok, (chinese_start_app _ Hwords).
    destruct (split meaning) as [|t ts]; [discriminate Hch|].
    simpl in Hch. rewrite chinese_start_cons, Hch. simpl.
    now rewrite Nat.add_0_r. }
  pose proof (parse_line_cases line n f) as Hcases. cbv zeta in Hcases.
  rewrite Hstart in Hcases.
  assert (Hfirst : firstn (length (split word)) (tokens line) = split word).
  { rewrite Htok, firstn_app, Nat.sub_diag, firstn_all. simpl.
    apply app_nil_r. }
  destruct (length (split word)) as [|i] eqn:El.
  { destruct (split word); [congruence|discriminate]. }
  destruct (tokens line) as [|p ps] eqn:Et.
  { destruct (split word); [congruence|discriminate]. }
  assert (Hd : is_defined (parse_line line n f) = true
               /\ selik_word (parse_line line n f)
                  = join (u " ") (split word)).
  { destruct (_ && _); rewrite Hcases; cbn [is_defined selik_word];
      rewrite Hfirst; auto. }
  destruct Hd as [Hd Hsel]. split; [exact Hd|]. split; [exact Hsel|].
  split; [congruence|].
  pose proof (parse_line_parts line n f) as Hparts. cbv zeta in Hparts.
  rewrite Hsel, split_join in Hparts by apply split_is_token.
  rewrite Et, Htok in Hparts.
  replace (split (strip meaning)) with (split meaning).
  - now apply app_inv_head in Hparts.
  - unfold strip. rewrite split_rstrip.
    destruct H as (_ & _ & _ & _ & _ & _ & _ & _ & _ & _
                   & (c & r & -> & _ & Hc) & _).
    now rewrite lstrip_id.
Qed.

(** X9.  The two programs read a standard line alike.  When the first
    token of the meaning holds an ideograph, the analyzer finds a defined
    entry whose word is the tokens of the quiz's word joined by single
    spaces, so the same word when the word is written with single spaces;
    and its meaning and part of speech are, token for token, the meaning
    the quiz shows. *)
Theorem programs_agree_on_standard_line
    (line ws0 digits ws1 word ws2 meaning ending : str) (n : Z) (f : str) :
  standard_line line ws0 digits ws1 word ws2 meaning ending ->
  _contains_chinese (hd [] (split meaning)) = true ->
  let e := parse_line line n f in
  vocab_entry line = Some (word, strip meaning) /\
  tokens line = split word ++ split meaning /\
  is_defined e = true /\
  selik_word e = join (u " ") (split word) /\
  (join (u " ") (split word) = word -> selik_word e = word) /\
  split (chinese_meaning e)
    ++ (if nonempty (part_of_speech e) then [part_of_speech e] else [])
  = split (strip meaning).
Proof. apply parse_standard_line. Qed.

End Agreement.

Lemma programs_agree_on_standard_line_witness :
  let line :=
    u "  12. ora pelan" ++ [0x20; 0x09]%N ++ u "走 v." ++ [0x0A%N] in
  standard_line line (u "  ") (u "12") (u " ") (u "ora pelan")
    [0x20; 0x09]%N (u "走 v.") [0x0A%N] /\
  _contains_chinese (hd [] (split (u "走 v."))) = true /\
  join (u " ") (split (u "ora pelan")) = u "ora pelan" /\
  selik_word (parse_line line 12 (u "selik.txt")) = u "ora pelan".
Proof.
  intros line.
  assert (H : standard_line line (u "  ") (u "12") (u " ") (u "ora pelan")
                [0x20; 0x09]%N (u "走 v.") [0x0A%N]).
  { repeat split; try reflexivity; try discriminate.
    eexists _, _. repeat split; reflexivity. }
  split; [exact H|]. split; [reflexivity|]. split; [reflexivity|].
  destruct (@programs_agree_on_standard_line BasicLatin _ _ _ _ _ _ _ _ 12
              (u "selik.txt") H eq_refl) as (_ & _ & _ & _ & Hw & _).
  apply Hw. reflexivity.
Defined.

(** ** From the text to the report *)

Lemma strip_nonempty (s : str) (c : char) :
  In c s -> isspace c = false -> strip s <> [].
Proof.
  intros Hin Hc E. unfold strip in E.
  destruct (lstrip_suffix s) as (ws & Es & Hws).
  destruct (rstrip_prefix (lstrip s)) as (ws' & El & Hws').
  rewrite E in El. rewrite El in Es. simpl in Es. subst s.
  rewrite forallb_forall in Hws, Hws'.
  apply in_app_or in Hin as [Hin|Hin];
    [apply Hws in Hin|apply Hws' in Hin]; congruence.
Qed.

Lemma standard_line_not_blank
    (line ws0 digits ws1 word ws2 meaning ending : str) :
  standard_line line ws0 digits ws1 word ws2 meaning ending ->
  strip line <> [].
Proof.
  intros (-> & _ & Hd & Hdigits & _).
  destruct digits as [|d0 dr]; [congruence|]. cbn [forallb] in Hdigits.
  apply andb_true_iff in Hdigits as [Hd0 _].
  apply (@strip_nonempty _ d0); [|now apply digit_not_space].
  apply in_or_app. right. now left.
Qed.

Lemma two_members (A : Type) (x y : A) (l : list A) :
  x <> y -> In x l -> In y l -> 2 <= length l.
Proof.
  intros Hxy Hx Hy.
  apply (@NoDup_incl_length A [x; y] l).
  - repeat constructor; simpl; intuition.
  - intros z [<-|[<-|[]]]; assumption.
Qed.

Section DuplicateLines.

Context {U : UnicodeData}.

Lemma read_entries_In (files : list named_file) (path : str)
    (lines : list str) (i : nat) (line : str) :
  In (path, Some (Some lines)) files ->
  nth_error lines i = Some line -> strip line <> [] ->
  In (parse_line line (Z.of_nat i + 1) path) (read_entries files).
Proof.
  intros Hf Hn Hs. unfold read_entries. apply in_flat_map.
  exists (path, Some (Some lines)). split; [exact Hf|]. cbn [fst snd].
  apply load_lines_In. exists i, line. rewrite (Z.add_comm 1). auto.
Qed.

Lemma parse_line_path (line : str) (n : Z) (f : str) :
  file_path (parse_line line n f) = f.
Proof.
  unfold parse_line. cbv zeta.
  destruct (clean line); [auto|]. destruct (split _); [auto|].
  destruct (chinese_start _) as [[|k]|]; [| |auto].
  - destruct (_is_pos_marker _); auto.
  - destruct (_ && _); auto.
Qed.

Lemma parse_line_frame (line : str) (n : Z) (f : str) :
  line_number (parse_line line n f) = n /\
  file_path (parse_line line n f) = f /\
  original_line (parse_line line n f) = line /\
  strip (original_line (parse_line line n f)) = strip line.
Proof.
  unfold parse_line. cbv zeta.
  destruct (clean line); [auto|]. destruct (split _); [auto|].
  destruct (chinese_start _) as [[|k]|]; [| |auto].
  - destruct (_is_pos_marker _); auto.
  - destruct (_ && _); auto.
Qed.

(** What [main] prints of the report when entries were loaded. *)
Lemma analyzer_main_report (files : list named_file) :
  read_entries files <> [] ->
  exists a,
    entries a = read_entries files /\ ready a /\
    forall x, In x (print_results (analyze a)) ->
      In (Result x) (analyzer_main files).
Proof.
  intros Hne. unfold analyzer_main.
  destruct files as [|file files]; [now destruct Hne|].
  pose proof (load_files_spec (file :: files) new_analyzer 0) as Hspec.
  destruct (load_files (file :: files) new_analyzer 0) as [[a total] outs].
  destruct Hspec as (He & Ht & Hs & Hm & _ & _).
  cbn [new_analyzer entries selik_duplicates meaning_duplicates app]
    in He, Hs, Hm.
  rewrite Z.add_0_l in Ht.
  exists a. split; [exact He|]. split.
  { repeat split; [exact Hs|exact Hm|].
    rewrite He. apply read_entries_has_word. }
  intros x Hx. destruct (total =? 0)%Z eqn:E0.
  - apply Z.eqb_eq in E0.
    destruct (read_entries (file :: files)); [congruence|].
    simpl in Ht. lia.
  - rewrite !in_app_iff. right. right. now apply in_map.
Qed.

Lemma print_results_selik (a : VocabAnalyzer) (w : str)
    (es : list VocabEntry) :
  In (w, es) (selik_duplicates a) ->
  In (SelikGroup w (length es)) (print_results a).
Proof.
  intros H. unfold print_results. rewrite !in_app_iff.
  right. right. left.
  destruct (selik_duplicates a) as [|kv d] eqn:E; [destruct H|].
  right. apply in_flat_map. exists (w, es). split; [exact H|].
  now left.
Qed.

(** X10.  Duplicate words are found from the text.  When two different
    lines of the files given, in one file or in two, are standard lines
    with the same word, written with single spaces, and meanings whose first
    token holds an ideograph, the report lists that word among the duplicate
    Selik words, with the number of the entries that define it, which is
    2 at least. *)
Theorem duplicate_lines_reported (files : list named_file)
    (path1 path2 : str) (lines1 lines2 : list str) (i j : nat)
    (line1 line2 word : str)
    (ws0 digits ws1 ws2 meaning ending : str)
    (ws0' digits' ws1' ws2' meaning' ending' : str) :
  In (path1, Some (Some lines1)) files ->
  In (path2, Some (Some lines2)) files ->
  nth_error lines1 i = Some line1 -> nth_error lines2 j = Some line2 ->
  path1 <> path2 \/ i <> j ->
  standard_line line1 ws0 digits ws1 word ws2 meaning ending ->
  standard_line line2 ws0' digits' ws1' word ws2' meaning' ending' ->
  join (u " ") (split word) = word ->
  _contains_chinese (hd [] (split meaning)) = true ->
  _contains_chinese (hd [] (split meaning')) = true ->
  exists n,
    2 <= n /\ In (Result (SelikGroup word n)) (analyzer_main files).
Proof.
  intros Hf1 Hf2 Hn1 Hn2 Hdiff Hs1 Hs2 Hword Hc1 Hc2.
  set (e1 := parse_line line1 (Z.of_nat i + 1) path1).
  set (e2 := parse_line line2 (Z.of_nat j + 1) path2).
  assert (H1 : In e1 (read_entries files)).
  { eapply read_entries_In;
      [exact Hf1|exact Hn1|exact (standard_line_not_blank Hs1)]. }
  assert (H2 : In e2 (read_entries files)).
  { eapply read_entries_In;
      [exact Hf2|exact Hn2|exact (standard_line_not_blank Hs2)]. }
  destruct (parse_standard_line (Z.of_nat i + 1) path1 Hs1 Hc1)
    as (_ & _ & Hd1 & _ & Hw1 & _).
  destruct (parse_standard_line (Z.of_nat j + 1) path2 Hs2 Hc2)
    as (_ & _ & Hd2 & _ & Hw2 & _).
  specialize (Hw1 Hword). specialize (Hw2 Hword).
  fold e1 in Hd1, Hw1. fold e2 in Hd2, Hw2.
  assert (Hne : e1 <> e2).
  { intros E.
    pose proof (f_equal line_number E) as En.
    pose proof (f_equal file_path E) as Ep.
    unfold e1, e2 in En, Ep.
    rewrite !parse_line_number in En. rewrite !parse_line_path in Ep.
    destruct Hdiff as [Hp|Hi]; [congruence|lia]. }
  destruct (analyzer_main_report files) as (a & He & Hr & Hout).
  { intros E. rewrite E in H1. destruct H1. }
  set (es := with_key str_eqb selik_word word
               (filter is_defined (entries a))).
  assert (Hin : forall e, In e (read_entries files) ->
            is_defined e = true -> selik_word e = word -> In e es).
  { intros e Hin Hd Hw. unfold es, with_key.
    apply filter_In. split; [|now apply str_eqb_eq].
    apply filter_In. rewrite He. auto. }
  assert (Hlen : 2 <= length es).
  { apply (@two_members _ e1 e2 es Hne); [apply (Hin e1)|apply (Hin e2)];
      auto. }
  exists (length es). split; [exact Hlen|].
  apply Hout, print_results_selik. rewrite (analyze_selik Hr).
  apply (clusters_spec str_eqb selik_word _ str_eqb_eq). split;
    [reflexivity|exact Hlen].
Qed.

Lemma print_results_undefined (a : VocabAnalyzer) (e : VocabEntry) :
  In e (undefined_entries a) -> In (print_undefined e) (print_results a).
Proof.
  intros H. unfold print_results. rewrite !in_app_iff. right. left.
  destruct (undefined_entries a) as [|e0 es] eqn:E; [destruct H|].
  right. now apply in_map.
Qed.

Lemma tokens_not_blank (line : str) : tokens line <> [] -> strip line <> [].
Proof.
  intros H E. apply H. unfold tokens, clean. rewrite E. reflexivity.
Qed.

(** X11.  Undefined words are found from the text.  A line of a file
    given whose first token after the number holds an ideograph, a meaning
    without a word, is listed by the report among the undefined entries,
    with its file, the number of its line in the file, its meaning with the
    part of speech in brackets, and the line as written, stripped. *)
Theorem undefined_line_reported (files : list named_file) (path : str)
    (lines : list str) (i : nat) (line w : str) (rest : list str) :
  In (path, Some (Some lines)) files ->
  nth_error lines i = Some line ->
  tokens line = w :: rest -> _contains_chinese w = true ->
  let e := parse_line line (Z.of_nat i + 1) path in
  is_defined e = false /\ selik_word e = [] /\
  In (Result (UndefinedEntry path (Z.of_nat i + 1)
                (chinese_meaning e ++ pos_info (part_of_speech e))
                (strip line)))
    (analyzer_main files).
Proof.
  intros Hf Hn Htok Hw. cbv zeta.
  set (e := parse_line line (Z.of_nat i + 1) path).
  assert (Hblank : strip line <> []).
  { apply tokens_not_blank. rewrite Htok. discriminate. }
  assert (Hin : In e (read_entries files)).
  { eapply read_entries_In; [exact Hf|exact Hn|exact Hblank]. }
  assert (Hd : is_defined e = false /\ selik_word e = []).
  { pose proof (parse_line_cases line (Z.of_nat i + 1) path) as H.
    cbv zeta in H. fold e in H. rewrite Htok, chinese_start_cons, Hw in H.
    destruct (_is_pos_marker _); rewrite H; auto. }
  destruct Hd as [Hd Hsel]. split; [exact Hd|]. split; [exact Hsel|].
  destruct (analyzer_main_report files) as (a & He & Hr & Hout).
  { intros E. rewrite E in Hin. destruct Hin. }
  assert (Hp : print_undefined e
               = UndefinedEntry path (Z.of_nat i + 1)
                   (chinese_meaning e ++ pos_info (part_of_speech e))
                   (strip line)).
  { unfold print_undefined, e.
    rewrite parse_line_path, parse_line_number. f_equal.
    apply (proj2 (proj2 (proj2 (parse_line_frame line (Z.of_nat i + 1)
                                  path)))). }
  rewrite <- Hp. apply Hout, print_results_undefined.
  rewrite analyze_undefined. apply filter_In. split; [now rewrite He|].
  now rewrite Hd.
Qed.

End DuplicateLines.

Lemma undefined_line_reported_witness :
  let lines := [u "1. mira 看 v."; u ""; u "3. 見 v."] in
  let files := [(u "selik.txt", Some (Some lines))] in
  (tokens (u "3. 見 v.") = [u "見"; u "v."] /\
   _contains_chinese (u "見") = true) /\
  In (Result (UndefinedEntry (u "selik.txt") 3 (u "見 [v.]") (u "3. 見 v.")))
    (analyzer_main files).
Proof.
  intros lines files.
  assert (H1 : tokens (u "3. 見 v.") = [u "見"; u "v."]) by reflexivity.
  assert (H2 : _contains_chinese (u "見") = true) by reflexivity.
  split; [split; assumption|].
  exact (proj2 (proj2 (@undefined_line_reported BasicLatin files
                         (u "selik.txt") lines 2 (u "3. 見 v.") (u "見")
                         [u "v."] (or_introl eq_refl) eq_refl H1 H2))).
Defined.

Lemma duplicate_lines_reported_witness :
  let lines := [u "1. mira 看 v."; u "2. mira 見"] in
  let files := [(u "selik.txt", Some (Some lines))] in
  (standard_line (u "1. mira 看 v.") [] (u "1") (u " ") (u "mira") (u " ")
     (u "看 v.") [] /\
   standard_line (u "2. mira 見") [] (u "2") (u " ") (u "mira") (u " ")
     (u "見") []) /\
  exists n,
    2 <= n /\ In (Result (SelikGroup (u "mira") n)) (analyzer_main files).
Proof.
  intros lines files.
  assert (H1 : standard_line (u "1. mira 看 v.") [] (u "1") (u " ")
                 (u "mira") (u " ") (u "看 v.") []).
  { repeat split; try reflexivity; try discriminate.
    eexists _, _. repeat split; reflexivity. }
  assert (H2 : standard_line (u "2. mira 見") [] (u "2") (u " ")
                 (u "mira") (u " ") (u "見") []).
  { repeat split; try reflexivity; try discriminate.
    eexists _, _. repeat split; reflexivity. }
  split; [split; assumption|].
  apply (@duplicate_lines_reported BasicLatin files (u "selik.txt")
           (u "selik.txt") lines lines 0 1 (u "1. mira 看 v.")
           (u "2. mira 見") (u "mira") [] (u "1") (u " ") (u " ") (u "看 v.")
           [] [] (u "2") (u " ") (u " ") (u "見") []);
    try (left; reflexivity); try reflexivity; try assumption.
  right. discriminate.
Defined.

(** ** The vocabulary *)

Lemma find_app (A : Type) (p : A -> bool) (a b : list A) :
  find p (a ++ b)
  = match find p a with
    | Some x => Some x
    | None => find p b
    end.
Proof.
  induction a as [|x a IH]; simpl; [reflexivity|].
  destruct (p x); [reflexivity|exact IH].
Qed.

Lemma last_meaning_cons (e : str * str) (es : list (str * str)) (w : str) :
  last_meaning (e :: es) w
  = match last_meaning es w with
    | Some m => Some m
    | None => if str_eqb (fst e) w then Some (snd e) else None
    end.
Proof.
  unfold last_meaning. simpl. rewrite find_app. simpl.
  destruct (find _ (rev es)); [reflexivity|].
  destruct (str_eqb (fst e) w); reflexivity.
Qed.

Lemma assign_all_get (es : list (str * str)) (w : str) : forall vocab,
  dict_get str_eqb (assign_all es vocab) w
  = match last_meaning es w with
    | Some m => Some m
    | None => dict_get str_eqb vocab w
    end.
Proof.
  induction es as [|e es IH]; intros vocab; [reflexivity|].
  cbn [assign_all fold_left]. fold (assign_all es). rewrite IH.
  rewrite last_meaning_cons. destruct (last_meaning es w); [reflexivity|].
  rewrite (dict_get_set _ str_eqb_eq).
  destruct (str_eqb (fst e) w); reflexivity.
Qed.

Lemma assign_all_NoDup (es : list (str * str)) : forall vocab,
  NoDup (dict_keys vocab) -> NoDup (dict_keys (assign_all es vocab)).
Proof.
  induction es as [|e es IH]; intros vocab H; [exact H|].
  apply IH, (dict_set_NoDup _ str_eqb_eq), H.
Qed.

Lemma assign_all_app (a b : list (str * str)) (vocab : dict str str) :
  assign_all (a ++ b) vocab = assign_all b (assign_all a vocab).
Proof. apply fold_left_app. Qed.

Section VocabularyFacts.

Context {U : UnicodeData}.

Lemma vocab_lines_assign (lines : list str) : forall vocab,
  fold_left vocab_line lines vocab = assign_all (line_entries lines) vocab.
Proof.
  induction lines as [|l lines IH]; intros vocab; [reflexivity|].
  cbn [fold_left]. rewrite IH. unfold line_entries. cbn [flat_map].
  unfold vocab_line. destruct (vocab_entry l) as [[w m]|]; reflexivity.
Qed.

Lemma load_vocab_into_spec (files : list (str * vocab_file)) : forall vocab,
  readable files ->
  load_vocab_into vocab files
  = (Some (assign_all (vocab_entries files) vocab),
     List.map Warning (missing_names files)).
Proof.
  induction files as [|[fn file] files IH]; intros vocab Hr; [reflexivity|].
  inversion Hr as [|? ? Hfile Hfiles]; subst. cbn [snd] in Hfile.
  unfold vocab_entries, missing_names. cbn [flat_map load_vocab_into snd fst].
  fold (vocab_entries files). fold (missing_names files).
  destruct file as [| |lines]; [|congruence|].
  - rewrite (IH vocab Hfiles). reflexivity.
  - rewrite vocab_lines_assign, (IH _ Hfiles), assign_all_app. reflexivity.
Qed.

Lemma load_vocab_into_unreadable (files : list (str * vocab_file)) :
  forall vocab, ~ readable files -> fst (load_vocab_into vocab files) = None.
Proof.
  induction files as [|[fn file] files IH]; intros vocab Hr.
  { destruct Hr. constructor. }
  destruct file as [| |lines]; cbn [load_vocab_into].
  - specialize (IH vocab). destruct (load_vocab_into vocab files).
    apply IH. intros H. apply Hr. constructor; [discriminate|exact H].
  - reflexivity.
  - apply IH. intros H. apply Hr. constructor; [discriminate|exact H].
Qed.

(** X12.  When every file named is absent or can be read, [load_vocab]
    warns once for each absent file and returns a dictionary in which no
    word is listed twice and every word has the meaning of the last line
    that defines it, over all the files in the order given; a word no line
    defines is not in it.  When a file cannot be read, [load_vocab] raises
    and there is no vocabulary. *)
Theorem load_vocab_last_wins (files : list (str * vocab_file)) :
  (readable files ->
   exists vocab,
     load_vocab files = (Some vocab, List.map Warning (missing_names files)) /\
     NoDup (dict_keys vocab) /\
     forall w, dict_get str_eqb vocab w = last_meaning (vocab_entries files) w)
  /\ (~ readable files -> fst (load_vocab files) = None).
Proof.
  split.
  - intros Hr. exists (assign_all (vocab_entries files) []).
    split; [apply (load_vocab_into_spec [] Hr)|].
    split; [apply assign_all_NoDup; constructor|].
    intros w. rewrite assign_all_get.
    destruct (last_meaning (vocab_entries files) w); reflexivity.
  - apply load_vocab_into_unreadable.
Qed.

End VocabularyFacts.

Lemma load_vocab_last_wins_witness :
  let files :=
    [(u "a.txt", Missing);
     (u "b.txt", Lines [u "1. ora 走"; u "2. pelan 慢"; u "3. ora 行"])] in
  readable files /\
  exists vocab,
    load_vocab files = (Some vocab, [Warning (u "a.txt")]) /\
    NoDup (dict_keys vocab) /\
    dict_get str_eqb vocab (u "ora") = Some (u "行").
Proof.
  intros files.
  assert (Hr : readable files) by (repeat constructor; discriminate).
  split; [exact Hr|].
  destruct (proj1 (@load_vocab_last_wins BasicLatin files) Hr)
    as (vocab & Hl & Hnd & Hget).
  exists vocab. split; [exact Hl|]. split; [exact Hnd|].
  rewrite Hget. reflexivity.
Defined.

(** ** Lines without a word *)

Section Backtracking.

Variable R : Type.

Lemma rx_star_taking_none (p : char -> bool) (k : str -> str -> option R)
    (back rest : str) : forall taken,
  forallb p back = true ->
  match rest with c :: _ => p c = false | [] => True end ->
  (forall b1 b2, back = b1 ++ b2 -> k (taken ++ b1) (b2 ++ rest) = None) ->
  rx_star_taking p k taken (back ++ rest) = None.
Proof.
  induction back as [|c back IH]; intros taken Hback Hrest Hnone.
  - specialize (Hnone [] [] eq_refl). rewrite app_nil_r in Hnone.
    cbn [app] in *. destruct rest as [|c rest]; cbn [rx_star_taking];
      [exact Hnone|]. now rewrite Hrest.
  - cbn [forallb] in Hback. apply andb_true_iff in Hback as [Hc Hback].
    cbn [app rx_star_taking]. rewrite Hc, IH; [| exact Hback | exact Hrest |].
    + specialize (Hnone [] (c :: back) eq_refl).
      now rewrite app_nil_r in Hnone.
    + intros b1 b2 E. rewrite <- app_assoc.
      apply (Hnone (c :: b1) b2). now rewrite E.
Qed.

(** A repetition gives back as much as the rest of the pattern needs. *)
Lemma rx_star_taking_backtrack (p : char -> bool)
    (k : str -> str -> option R) (run back rest : str) (x : R) :
  forall taken,
  forallb p run = true -> forallb p back = true ->
  match rest with c :: _ => p c = false | [] => True end ->
  (forall b1 b2, back = b1 ++ b2 -> b1 <> [] ->
     k (taken ++ run ++ b1) (b2 ++ rest) = None) ->
  k (taken ++ run) (back ++ rest) = Some x ->
  rx_star_taking p k taken (run ++ back ++ rest) = Some x.
Proof.
  induction run as [|a run IH]; intros taken Hrun Hback Hrest Hnone Hk.
  - rewrite app_nil_r in Hk. cbn [app] in *.
    destruct back as [|c back].
    + cbn [app] in *. destruct rest as [|c rest]; cbn [rx_star_taking];
        [exact Hk|]. now rewrite Hrest.
    + cbn [forallb] in Hback. apply andb_true_iff in Hback as [Hc Hback].
      cbn [app rx_star_taking]. rewrite Hc.
      rewrite rx_star_taking_none; [exact Hk|exact Hback|exact Hrest|].
      intros b1 b2 E. rewrite <- app_assoc.
      apply (Hnone (c :: b1) b2); [now rewrite E|discriminate].
  - cbn [forallb] in Hrun. apply andb_true_iff in Hrun as [Ha Hrun].
    cbn [app rx_star_taking]. rewrite Ha.
    rewrite (IH (taken ++ [a])); auto.
    + intros b1 b2 E Hb. rewrite <- app_assoc. now apply Hnone.
    + now rewrite <- app_assoc.
Qed.

Lemma rx_star_taking_stop (p : char -> bool) (k : str -> str -> option R)
    (taken s : str) :
  match s with c :: _ => p c = false | [] => True end ->
  rx_star_taking p k taken s = k taken s.
Proof.
  destruct s as [|c s]; [reflexivity|]. cbn [rx_star_taking].
  now intros ->.
Qed.

End Backtracking.

Lemma app_cons_unique (A : Type) (x : A) (l1 r1 l2 r2 : list A) :
  ~ In x l1 -> ~ In x l2 -> l1 ++ x :: r1 = l2 ++ x :: r2 ->
  l1 = l2 /\ r1 = r2.
Proof.
  revert l2. induction l1 as [|a l1 IH]; intros [|b l2] H1 H2 E;
    simpl in *.
  - injection E as ->. auto.
  - injection E as -> _. tauto.
  - injection E as -> _. tauto.
  - injection E as -> E. destruct (IH l2) as [-> ->]; auto.
Qed.

Lemma strip_all_ws (ws : str) : forallb isspace ws = true -> strip ws = [].
Proof. intros H. unfold strip. now rewrite lstrip_all_ws. Qed.

Lemma repeat_space_class (n : nat) :
  forallb isspace (repeat 0x20%N n) = true /\
  forallb is_letter_or_space (repeat 0x20%N n) = true.
Proof.
  induction n as [|n [H1 H2]]; [auto|]. cbn [repeat forallb].
  rewrite H1, H2. auto.
Qed.

Section Wordless.

Context {U : UnicodeData}.

Variables (digits meaning ending : str).

Hypothesis digits_nonempty : digits <> [].
Hypothesis digits_ascii : forallb ascii_isdigit digits = true.
Hypothesis meaning_head :
  exists c r, meaning = c :: r /\ is_letter_or_space c = false /\
    isspace c = false.
Hypothesis meaning_line : forallb not_newline meaning = true.
Hypothesis ending_end : at_end ending = true.

Lemma digits_decimal : forallb isdecimal digits = true.
Proof.
  clear digits_nonempty. induction digits as [|d dr IH]; [reflexivity|].
  cbn [forallb] in *. apply andb_true_iff in digits_ascii as [Hd Hdr].
  rewrite (isdecimal_ascii _ (digit_ascii _ Hd)), Hd. now apply IH.
Qed.

(** With two spaces or more after the full stop, the word is made of
    spaces. *)
Lemma pattern_match_wordless (k : nat) :
  exists sp,
    forallb isspace sp = true /\
    pattern_match
      (digits ++ 0x2E%N :: repeat 0x20%N (k + 2) ++ meaning ++ ending)
    = Some (sp, meaning).
Proof.
  destruct (@group_word [0x20%N] meaning ending meaning_head meaning_line
              ending_end eq_refl ltac:(discriminate) [0x20%N]
              ltac:(discriminate) eq_refl) as (sp & Hsp & Hg).
  exists ([0x20%N] ++ sp). split; [cbn [app forallb]; now rewrite Hsp|].
  pose proof digits_decimal as Hdec.
  destruct digits as [|d0 dr]; [congruence|].
  cbn [forallb] in digits_ascii, Hdec.
  apply andb_true_iff in digits_ascii as [Hd0 Hdr].
  apply andb_true_iff in Hdec as [Hdec0 Hdecr].
  unfold pattern_match, rx_star at 1. cbn [app rx_star_taking].
  rewrite (digit_not_space _ Hd0).
  unfold rx_plus at 1. cbn [rx_group_plus]. rewrite Hdec0.
  apply rx_star_taking_greedy; [exact Hdecr|now rewrite isdecimal_ascii|].
  cbn [rx_char]. unfold char_eqb. rewrite N.eqb_refl.
  destruct (repeat_space_class k) as [Hk _].
  rewrite repeat_app, <- app_assoc. unfold rx_star.
  apply rx_star_taking_backtrack; [exact Hk|reflexivity| | |exact Hg].
  - pose proof meaning_head as (c & r & Em & _ & Hc). rewrite Em. exact Hc.
  - intros b1 b2 E Hb.
    destruct b1 as [|x [|y [|z b1]]]; [congruence| | |];
      cbn [app repeat] in E; [| |discriminate E].
    + injection E as <- <-. cbn [app rx_group_plus].
      change (is_letter_or_space 0x20%N) with true. cbv iota.
      rewrite rx_star_taking_stop;
        [eapply no_space_no_meaning; eassumption|].
      pose proof meaning_head as (c & r & Em & Hc & _). rewrite Em.
      exact Hc.
    + injection E as <- <- <-.
      pose proof meaning_head as (c & r & Em & Hc & _). rewrite Em.
      cbn [app rx_group_plus]. now rewrite Hc.
Qed.

(** The part of the line after the number cannot be cut into a word and
    whitespace when it begins with fewer than two spaces. *)
Lemma no_room_for_word (n : nat) (ws1 word ws2 rest : str) :
  n < 2 ->
  forallb isspace ws1 = true ->
  word <> [] -> forallb is_letter_or_space word = true ->
  ws2 <> [] -> forallb isspace ws2 = true ->
  repeat 0x20%N n ++ meaning ++ ending <> ws1 ++ word ++ ws2 ++ rest.
Proof.
  intros Hn Hws1 Hw Hword Hs Hws2 E.
  pose proof meaning_head as (c & r & Em & Hc1 & Hc2). rewrite Em in E.
  assert (Hlen : n < length (ws1 ++ word ++ ws2)).
  { rewrite !length_app. destruct word; [congruence|].
    destruct ws2; [congruence|]. simpl. lia. }
  assert (Hall : forall x, In x (ws1 ++ word ++ ws2) ->
            isspace x = true \/ is_letter_or_space x = true).
  { intros x Hx. rewrite forallb_forall in Hws1, Hword, Hws2.
    apply in_app_or in Hx as [Hx|Hx]; [left; auto|].
    apply in_app_or in Hx as [Hx|Hx]; [right; auto|left; auto]. }
  assert (Hc : nth_error (ws1 ++ word ++ ws2) n = Some c).
  { rewrite <- (nth_error_app1 _ (rest)) by exact Hlen.
    rewrite <- !app_assoc, <- E.
    rewrite nth_error_app2 by (rewrite repeat_length; lia).
    rewrite repeat_length, Nat.sub_diag. reflexivity. }
  apply nth_error_In in Hc. destruct (Hall c Hc); congruence.
Qed.

(** X13.  A line that gives a meaning and no word, the number followed by
    spaces and then by a text that starts with neither a letter nor
    whitespace, is skipped when fewer than two spaces follow the full stop;
    with two spaces or more it enters the vocabulary under the empty
    word. *)
Theorem line_without_word (n : nat) :
  vocab_entry (digits ++ 0x2E%N :: repeat 0x20%N n ++ meaning ++ ending)
  = if 2 <=? n then Some ([], strip meaning) else None.
Proof.
  destruct (2 <=? n) eqn:En.
  - apply Nat.leb_le in En.
    replace n with ((n - 2) + 2) by lia.
    destruct (pattern_match_wordless (n - 2)) as (sp & Hsp & E).
    unfold vocab_entry. rewrite E. now rewrite (strip_all_ws _ Hsp).
  - apply Nat.leb_gt in En. unfold vocab_entry.
    destruct (pattern_match _) as [[word meaning']|] eqn:E; [|reflexivity].
    exfalso. apply pattern_match_shape in E
      as (ws0 & digits' & ws1 & ws2 & ending' & E & Hws0 & Hd' & Hdigits'
          & Hws1 & Hw & Hword & Hs & Hws2 & _).
    destruct ws0 as [|c0 ws0].
    + cbn [app] in E. apply app_cons_unique in E as [_ E].
      * apply (@no_room_for_word n ws1 word ws2 (meaning' ++ ending') En
                 Hws1 Hw Hword Hs Hws2 E).
      * intros Hin. rewrite forallb_forall in digits_ascii.
        specialize (digits_ascii _ Hin). discriminate.
      * intros Hin. rewrite forallb_forall in Hdigits'.
        specialize (Hdigits' _ Hin).
        rewrite isdecimal_ascii in Hdigits' by reflexivity. discriminate.
    + destruct digits as [|d0 dr]; [congruence|].
      cbn [app forallb] in E, Hws0, digits_ascii. injection E as <- _.
      apply andb_true_iff in digits_ascii as [Hd0 _].
      apply andb_true_iff in Hws0 as [Hc0 _].
      rewrite (digit_not_space _ Hd0) in Hc0. discriminate.
Qed.

End Wordless.

Lemma line_without_word_witness :
  (u "3" <> [] /\ forallb ascii_isdigit (u "3") = true /\
   (exists c r, u "走" = c :: r /\ is_letter_or_space c = false /\
      isspace c = false) /\
   forallb not_newline (u "走") = true /\ at_end [] = true) /\
  vocab_entry (u "3.  走") = Some ([], u "走") /\
  vocab_entry (u "3. 走") = None.
Proof.
  assert (H1 : u "3" <> []) by discriminate.
  assert (H2 : forallb ascii_isdigit (u "3") = true) by reflexivity.
  assert (H3 : exists c r, u "走" = c :: r /\ is_letter_or_space c = false /\
                 isspace c = false)
    by (eexists _, _; repeat split; reflexivity).
  assert (H4 : forallb not_newline (u "走") = true) by reflexivity.
  assert (H5 : at_end [] = true) by reflexivity.
  split; [repeat split; assumption|]. split.
  - exact (@line_without_word BasicLatin (u "3") (u "走") [] H1 H2 H3 H4 H5 2).
  - exact (@line_without_word BasicLatin (u "3") (u "走") [] H1 H2 H3 H4 H5 1).
Defined.

(** ** The quiz as a whole *)





Section QuizRuns.

Context {U : UnicodeData}.


(** X15.  A quiz touches the records of the words it asks and no other:
    the record of every other word is as before; the words the memory had
    keep their places, the new ones follow, each a word of the quiz list
    that had no record; and no word comes to be listed twice. *)
Theorem quiz_touches_only_asked (words : list (str * str))
    (inputs : list reply) (memory : memory_t) :
  let memory' := after_quiz words inputs memory in
  (forall w, ~ In w (List.map fst words) ->
     mem_get memory' w = mem_get memory w) /\
  (exists new,
     dict_keys memory' = dict_keys memory ++ new /\
     forall w, In w new ->
       In w (List.map fst words) /\ mem_get memory w = None) /\
  (NoDup (dict_keys memory) -> NoDup (dict_keys memory')).
Proof.
  cbv zeta. rewrite after_quiz_eq. revert inputs memory.
  induction words as [|[w m] words IH]; intros inputs memory.
  - simpl. repeat split; auto. exists []. rewrite app_nil_r.
    split; [reflexivity|]. intros w [].
  - assert (Hstay :
      (forall w0, ~ In w0 (List.map fst ((w, m) :: words)) ->
         mem_get memory w0 = mem_get memory w0) /\
      (exists new,
         dict_keys memory = dict_keys memory ++ new /\
         forall w0, In w0 new ->
           In w0 (List.map fst ((w, m) :: words)) /\
           mem_get memory w0 = None) /\
      (NoDup (dict_keys memory) -> NoDup (dict_keys memory))).
    { repeat split; auto. exists []. rewrite app_nil_r.
      split; [reflexivity|]. intros w0 []. }
    destruct inputs as [|[s|] inputs]; try exact Hstay.
    destruct (is_quit (strip s)) eqn:Eq.
    { rewrite quiz_words_quit by exact Eq. exact Hstay. }
    rewrite quiz_words_answer by exact Eq. cbv zeta.
    set (st := scored (record_for memory w m) (str_eqb (strip s) w)).
    specialize (IH inputs (mem_set memory w st)).
    destruct (quiz_words words inputs (mem_set memory w st))
      as [[m2 outs] how].
    cbn [fst] in *. destruct IH as (Hframe & (new & Hkeys & Hnew) & Hnd).
    split; [|split].
    + intros w0 Hw0. simpl in Hw0. rewrite Hframe by tauto.
      rewrite mem_get_set. destruct (str_eqb w w0) eqn:E; [|reflexivity].
      apply str_eqb_eq in E. tauto.
    + unfold mem_set in Hkeys. rewrite dict_keys_set in Hkeys.
      fold (mem_get memory w) in Hkeys.
      assert (Hold : forall w0, In w0 new ->
                In w0 (List.map fst ((w, m) :: words)) /\
                mem_get memory w0 = None).
      { intros w0 Hw0. destruct (Hnew w0 Hw0) as [Hin Hnone].
        split; [now right|]. rewrite mem_get_set in Hnone.
        destruct (str_eqb w w0); [discriminate|exact Hnone]. }
      destruct (mem_get memory w) eqn:Eg.
      * exists new. split; [exact Hkeys|exact Hold].
      * exists (w :: new). rewrite <- app_assoc in Hkeys.
        split; [exact Hkeys|]. intros w0 [<-|Hw0]; [|now apply Hold].
        split; [now left|exact Eg].
    + intros H. apply Hnd. now apply (dict_set_NoDup _ str_eqb_eq).
Qed.




End QuizRuns.


(** ** The ends of the scale of error rates *)

Local Open Scope Z_scope.

Lemma new_location_exact (nb_steps : Z) :
  new_location nb_steps 0 = loc_Exact.
Proof.
  unfold new_location, new_location_even, new_location_odd.
  destruct (Z.even nb_steps); reflexivity.
Qed.

(** The quotient of an integer by itself is [1.0]. *)
Lemma SFdiv_same (p : positive) :
  SFdiv prec emax (S754_finite false p 0) (S754_finite false p 0)
  = float_one.
Proof.
  unfold SFdiv.
  assert (E : SFdiv_core_binary prec emax (Zpos p) 0 (Zpos p) 0
              = (2 ^ 53, -53, loc_Exact)).
  { unfold SFdiv_core_binary.
    replace (Zdigits2 (Zpos p) + 0 - (Zdigits2 (Zpos p) + 0)) with 0 by lia.
    change (Z.min (fexp prec emax 0) (0 - 0)) with (-53).
    change (0 - 0 - -53) with 53.
    rewrite Z.shiftl_mul_pow2 by lia.
    rewrite (Z.mul_comm (Zpos p)).
    pose proof (Z.div_mul (2 ^ 53) (Zpos p)) as Hq.
    pose proof (Z.mod_mul (2 ^ 53) (Zpos p)) as Hr.
    unfold Z.div in Hq. unfold Z.modulo in Hr.
    destruct (Z.div_eucl (2 ^ 53 * Zpos p) (Zpos p)) as [q r].
    rewrite Hq, Hr by lia. now rewrite new_location_exact. }
  rewrite E. reflexivity.
Qed.

Local Close Scope Z_scope.

Lemma error_rate_ends (st : stats) :
  ((asked st <= 0)%Z -> error_rate st = Some float_one) /\
  ((0 < asked st)%Z -> correct st = 0%Z -> error_rate st = Some float_one) /\
  ((0 < asked st)%Z -> correct st = asked st ->
   error_rate st = Some float_zero).
Proof.
  unfold error_rate. split; [|split].
  - intros H. apply Z.ltb_ge in H. rewrite H. reflexivity.
  - intros H Hc. pose proof H as H'. apply Z.ltb_lt in H'. rewrite H', Hc.
    destruct (asked st); try lia. reflexivity.
  - intros H Hc. pose proof H as H'. apply Z.ltb_lt in H'. rewrite H', Hc.
    destruct (asked st) as [|p|p]; try lia.
    unfold int_true_divide. cbn [Z.ltb Z.compare Z.abs Z.to_pos xorb].
    rewrite SFdiv_same. reflexivity.
Qed.

(** X17.  The ends of the scale.  A word never asked and a word asked but
    never answered right have the error rate [1.0]; a word answered right
    every time it was asked has the error rate [0.0], whatever the
    counts. *)
Theorem error_rate_extremes (st : stats) :
  ((asked st <= 0)%Z -> error_rate st = Some float_one) /\
  ((0 < asked st)%Z -> correct st = 0%Z -> error_rate st = Some float_one) /\
  ((0 < asked st)%Z -> correct st = asked st ->
   error_rate st = Some float_zero).
Proof. apply error_rate_ends. Qed.

Lemma error_rate_extremes_witness :
  let st := mkStats 7 7 None in
  ((0 < asked st)%Z /\ correct st = asked st) /\
  error_rate st = Some float_zero.
Proof.
  intros st. split; [split; [reflexivity|reflexivity]|].
  apply (proj2 (proj2 (error_rate_extremes st))); reflexivity.
Defined.

(** ** The order the selector keeps *)

Section Precedes.

Variable A : Type.

Lemma precedes_cons (a b y : A) (l : list A) :
  precedes a b (y :: l) <-> (y = a /\ In b l) \/ precedes a b l.
Proof.
  split.
  - intros ([|x l1] & l2 & l3 & E); simpl in E; injection E as -> ->.
    + left. split; [reflexivity|]. apply in_or_app. right. now left.
    + right. now exists l1, l2, l3.
  - intros [[-> Hb]|(l1 & l2 & l3 & ->)].
    + apply in_split in Hb as (l2 & l3 & ->). now exists [], l2, l3.
    + now exists (y :: l1), l2, l3.
Qed.

Lemma precedes_nil (a b : A) : ~ precedes a b [].
Proof. intros ([|x l1] & l2 & l3 & E); discriminate. Qed.

Lemma precedes_In (a b : A) (l : list A) :
  precedes a b l -> In a l /\ In b l.
Proof.
  intros (l1 & l2 & l3 & ->). split; apply in_or_app; right.
  - now left.
  - right. apply in_or_app. right. now left.
Qed.

Lemma precedes_map (B : Type) (f : A -> B) (a b : A) (l : list A) :
  precedes a b l -> precedes (f a) (f b) (List.map f l).
Proof.
  intros (l1 & l2 & l3 & ->).
  exists (List.map f l1), (List.map f l2), (List.map f l3).
  rewrite map_app. simpl. rewrite map_app. reflexivity.
Qed.

Lemma precedes_filter (p : A -> bool) (a b : A) (l : list A) :
  precedes a b l -> p a = true -> p b = true -> precedes a b (filter p l).
Proof.
  intros (l1 & l2 & l3 & ->) Ha Hb.
  exists (filter p l1), (filter p l2), (filter p l3).
  rewrite filter_app. simpl. rewrite Ha, filter_app. simpl. now rewrite Hb.
Qed.

(** An element of a mapped list that stands before another comes from
    elements that stand so. *)
Lemma precedes_map_inv (B : Type) (f : A -> B) (x y : B) (l : list A) :
  precedes x y (List.map f l) ->
  exists a b, f a = x /\ f b = y /\ precedes a b l.
Proof.
  intros (l1 & l2 & l3 & E).
  apply map_eq_app in E as (k1 & k' & -> & <- & E).
  apply map_eq_cons in E as (a & k'' & -> & <- & E).
  apply map_eq_app in E as (k2 & k''' & -> & <- & E).
  apply map_eq_cons in E as (b & k3 & -> & <- & <-).
  exists a, b. repeat split. now exists k1, k2, k3.
Qed.

Variables (Key : Type) (lt : Key -> Key -> bool) (key : A -> Key).

Lemma insert_desc_In (x z : A) (l : list A) :
  In z (insert_desc lt key x l) <-> z = x \/ In z l.
Proof.
  induction l as [|y l IH]; simpl; [intuition|].
  destruct (lt (key x) (key y)); simpl; [rewrite IH|]; intuition.
Qed.

Lemma sort_desc_In (z : A) (l : list A) :
  In z (sort_desc lt key l) <-> In z l.
Proof.
  induction l as [|y l IH]; simpl; [tauto|].
  fold (sort_desc lt key l). rewrite insert_desc_In, IH. intuition.
Qed.

Lemma insert_desc_keeps (x a b : A) (l : list A) :
  precedes a b l -> precedes a b (insert_desc lt key x l).
Proof.
  induction l as [|y l IH]; intros H; [destruct (precedes_nil H)|].
  simpl. destruct (lt (key x) (key y)).
  - apply precedes_cons. apply precedes_cons in H as [[-> Hb]|H].
    + left. split; [reflexivity|]. apply insert_desc_In. now right.
    + right. now apply IH.
  - apply precedes_cons. now right.
Qed.

Lemma insert_desc_ahead (x b : A) (l : list A) :
  In b l -> lt (key x) (key b) = false ->
  precedes x b (insert_desc lt key x l).
Proof.
  induction l as [|y l IH]; intros Hb Hlt; [destruct Hb|].
  simpl. destruct (lt (key x) (key y)) eqn:E.
  - destruct Hb as [->|Hb]; [congruence|].
    apply precedes_cons. right. now apply IH.
  - apply precedes_cons. left. auto.
Qed.

(** The sort moves an item behind a later one only for a greater key. *)
Lemma sort_desc_keeps (a b : A) (l : list A) :
  precedes a b l -> lt (key a) (key b) = false ->
  precedes a b (sort_desc lt key l).
Proof.
  induction l as [|y l IH]; intros H Hlt; [destruct (precedes_nil H)|].
  cbn [sort_desc fold_right]. fold (sort_desc lt key l).
  apply precedes_cons in H as [[-> Hb]|H].
  - apply insert_desc_ahead; [now apply sort_desc_In|exact Hlt].
  - apply insert_desc_keeps. now apply IH.
Qed.

End Precedes.

Lemma rated_not_below (memory : memory_t) (x y : float * str * str) :
  rated memory x -> rated memory y ->
  rate_not_below memory (word_meaning x) (word_meaning y) ->
  float_lt (rate_key x) (rate_key y) = false.
Proof.
  unfold rated. intros Hx Hy (ra & rb & Ha & Hb & Hlt).
  cbn [word_meaning fst] in Ha, Hb. congruence.
Qed.

Lemma selected_keeps (memory : memory_t) (items : list (float * str * str))
    (a b : str * str) :
  Forall (rated memory) items ->
  precedes a b (List.map word_meaning items) ->
  rate_not_below memory a b ->
  precedes a b (List.map word_meaning (sort_desc float_lt rate_key items)).
Proof.
  intros Hr Hp Hab. apply precedes_map_inv in Hp as (x & y & <- & <- & Hp).
  apply precedes_map, sort_desc_keeps; [exact Hp|].
  rewrite Forall_forall in Hr. destruct (precedes_In Hp) as [Hx Hy].
  apply (rated_not_below (Hr x Hx) (Hr y Hy) Hab).
Qed.

Lemma sort_desc_ties (A Key : Type) (lt : Key -> Key -> bool)
    (key : A -> Key) (k : Key) (l : list A) :
  lt k k = false -> Forall (fun x => key x = k) l ->
  sort_desc lt key l = l.
Proof.
  intros Hk. induction 1 as [|x l Hx Hl IH]; [reflexivity|].
  cbn [sort_desc fold_right]. fold (sort_desc lt key l). rewrite IH.
  destruct Hl as [|y l Hy _]; [reflexivity|]. simpl.
  now rewrite Hx, Hy, Hk.
Qed.

Lemma file_items_new (memory : memory_t) (vocab : dict str str) :
  Forall (fun wm => mem_get memory (fst wm) = None) vocab ->
  file_items vocab memory
  = Some (List.map (fun wm => (float_one, fst wm, snd wm)) vocab).
Proof.
  induction 1 as [|[w m] vocab Hw _ IH]; [reflexivity|].
  cbn [file_items]. unfold stats_for. cbn [fst] in Hw. rewrite Hw, IH.
  reflexivity.
Qed.

(** X18.  The selector is stable.  A word that stands before another in
    the vocabulary stands before it in the quiz list unless the other has
    the strictly higher error rate; so words with equal rates are asked in
    the order of the file.  In memory mode the same holds for the records
    with a miss outstanding, in the order of the memory.  And a vocabulary
    none of whose words has a record, as in a first session, is asked in the
    order of the file. *)
Theorem select_words_stable (memory : memory_t) :
  (forall vocab a b,
     wf_memory memory -> precedes a b vocab -> rate_not_below memory a b ->
     exists selected,
       select_words vocab memory None = Some selected /\
       precedes a b selected) /\
  (forall a b,
     NoDup (dict_keys memory) ->
     Forall (fun kv => (0 <= correct (snd kv))%Z) memory ->
     precedes a b memory -> missed a = true -> missed b = true ->
     rate_not_below memory (fst a, meaning_or_empty (snd a))
       (fst b, meaning_or_empty (snd b)) ->
     exists selected,
       select_words [] memory None = Some selected /\
       precedes (fst a, meaning_or_empty (snd a))
         (fst b, meaning_or_empty (snd b)) selected) /\
  (forall vocab,
     vocab <> [] ->
     Forall (fun wm => mem_get memory (fst wm) = None) vocab ->
     select_words vocab memory None = Some vocab).
Proof.
  split; [|split].
  - intros vocab a b Hwf Hp Hab.
    destruct (file_items_spec vocab Hwf) as (items & E & Hmap & Hr).
    exists (List.map word_meaning (sort_desc float_lt rate_key items)).
    split.
    + unfold select_words. destruct vocab; [destruct (precedes_nil Hp)|].
      rewrite E. reflexivity.
    + apply (selected_keeps Hr); [now rewrite Hmap|exact Hab].
  - intros a b Hnd Hnn Hp Ha Hb Hab.
    destruct (@memory_items_spec memory memory Hnn) as (items & E & Hmap & Hr).
    { intros w st. apply (In_dict_get _ str_eqb_eq _ _ _ Hnd). }
    exists (List.map word_meaning (sort_desc float_lt rate_key items)).
    split; [unfold select_words; now rewrite E|].
    apply (selected_keeps Hr); [|exact Hab]. rewrite Hmap.
    apply (precedes_map (fun kv => (fst kv, meaning_or_empty (snd kv)))).
    now apply precedes_filter.
  - intros vocab Hne Hnew. destruct vocab as [|wm vocab]; [congruence|].
    unfold select_words. rewrite (file_items_new _ Hnew).
    rewrite (@sort_desc_ties _ _ float_lt rate_key float_one);
      [|reflexivity|].
    + f_equal. rewrite map_map.
      transitivity (List.map (fun x : str * str => x) (wm :: vocab));
        [apply map_ext; now intros [w m]|apply map_id].
    + apply Forall_forall. intros x Hx.
      apply in_map_iff in Hx as (y & <- & _). reflexivity.
Qed.

Lemma select_words_stable_witness :
  let vocab := [(u "ora", u "走"); (u "pelan", u "慢")] in
  let memory := [(u "pelan", mkStats 2 0 (Some (u "慢")))] in
  (wf_memory memory /\
   precedes (u "ora", u "走") (u "pelan", u "慢") vocab /\
   rate_not_below memory (u "ora", u "走") (u "pelan", u "慢")) /\
  exists selected,
    select_words vocab memory None = Some selected /\
    precedes (u "ora", u "走") (u "pelan", u "慢") selected.
Proof.
  intros vocab memory.
  assert (Hwf : wf_memory memory) by (repeat constructor; simpl; lia).
  assert (Hp : precedes (u "ora", u "走") (u "pelan", u "慢") vocab)
    by (exists [], [], []; reflexivity).
  assert (Hr : rate_not_below memory (u "ora", u "走") (u "pelan", u "慢"))
    by (exists float_one, float_one; repeat split; reflexivity).
  split; [repeat split; assumption|].
  exact (proj1 (select_words_stable memory) vocab _ _ Hwf Hp Hr).
Defined.

(** X19.  New words before mastered ones.  In file mode a word that was
    never answered right, asked or not, is put before every word that was
    answered right each time it was asked, whatever the counts. *)
Theorem unlearned_before_mastered (vocab : dict str str)
    (memory : memory_t) (a b ma mb : str) (sa : stats) :
  wf_memory memory ->
  In (a, ma) vocab -> In (b, mb) vocab ->
  mem_get memory a = Some sa -> (0 < asked sa)%Z -> correct sa = asked sa ->
  times_correct memory b = 0%Z ->
  exists selected,
    select_words vocab memory None = Some selected /\
    precedes (b, mb) (a, ma) selected.
Proof.
  intros Hwf Ha Hb Ea Hasked Hall Hnone.
  destruct (file_items_spec vocab Hwf) as (items & E & Hmap & Hr).
  set (selected := List.map word_meaning (sort_desc float_lt rate_key items)).
  assert (Hperm : Permutation selected vocab).
  { rewrite <- Hmap. apply Permutation_map, sort_desc_perm. }
  assert (Hsorted : StronglySorted (rate_not_below memory) selected).
  { apply sorted_by_rate, Hr. }
  assert (Ra : rate_of memory a = Some float_zero).
  { unfold rate_of, stats_for. rewrite Ea.
    now apply (proj2 (proj2 (error_rate_ends sa))). }
  assert (Rb : rate_of memory b = Some float_one).
  { unfold rate_of. pose proof (stats_for_ok b Hwf) as Hok.
    unfold times_correct in Hnone. unfold stats_for in *.
    destruct (mem_get memory b) as [sb|]; [|reflexivity].
    destruct (Z_lt_le_dec 0 (asked sb)).
    - now apply (proj1 (proj2 (error_rate_ends sb))).
    - now apply (proj1 (error_rate_ends sb)). }
  exists selected. split.
  - unfold select_words. destruct vocab; [destruct Ha|]. now rewrite E.
  - apply (sorted_precedes Hsorted).
    + apply (Permutation_in _ (Permutation_sym Hperm)), Ha.
    + apply (Permutation_in _ (Permutation_sym Hperm)), Hb.
    + intros [= -> _]. rewrite Ra in Rb. discriminate Rb.
    + intros (ra & rb & Hra & Hrb & Hlt). cbn [fst] in Hra, Hrb.
      rewrite Ra in Hra. rewrite Rb in Hrb.
      injection Hra as <-. injection Hrb as <-. discriminate Hlt.
Qed.

Lemma unlearned_before_mastered_witness :
  let vocab := [(u "ora", u "走"); (u "pelan", u "慢")] in
  let memory := [(u "ora", mkStats 3 3 (Some (u "走")))] in
  (wf_memory memory /\ In (u "ora", u "走") vocab /\
   In (u "pelan", u "慢") vocab /\
   mem_get memory (u "ora") = Some (mkStats 3 3 (Some (u "走"))) /\
   times_correct memory (u "pelan") = 0%Z) /\
  exists selected,
    select_words vocab memory None = Some selected /\
    precedes (u "pelan", u "慢") (u "ora", u "走") selected.
Proof.
  intros vocab memory.
  assert (Hwf : wf_memory memory) by (repeat constructor; simpl; lia).
  assert (Ha : In (u "ora", u "走") vocab) by (left; reflexivity).
  assert (Hb : In (u "pelan", u "慢") vocab) by (right; left; reflexivity).
  assert (Ea : mem_get memory (u "ora") = Some (mkStats 3 3 (Some (u "走"))))
    by reflexivity.
  assert (Hn : times_correct memory (u "pelan") = 0%Z) by reflexivity.
  split; [repeat split; assumption|].
  apply (@unlearned_before_mastered vocab memory (u "ora") (u "pelan")
           (u "走") (u "慢") (mkStats 3 3 (Some (u "走"))) Hwf Ha Hb Ea);
    [reflexivity|reflexivity|exact Hn].
Defined.

(** ** The selector on the memory of the quiz *)

Section Reachable.

Context {U : UnicodeData}.

Lemma after_quiz_wf (words : list (str * str)) (inputs : list reply)
    (memory : memory_t) :
  wf_memory memory -> wf_memory (after_quiz words inputs memory).
Proof.
  rewrite after_quiz_eq.
  apply (quiz_words_steps (fun m m' => wf_memory m -> wf_memory m')).
  - auto.
  - auto.
  - intros m w gl ans _ Hm. apply dict_set_Forall; [|exact Hm].
    intros k'. simpl. apply scored_ok, record_for_ok, Hm.
Qed.

Lemma after_quiz_distinct (words : list (str * str)) (inputs : list reply)
    (memory : memory_t) :
  NoDup (dict_keys memory) ->
  NoDup (dict_keys (after_quiz words inputs memory)).
Proof.
  rewrite after_quiz_eq.
  apply (quiz_words_steps
           (fun m m' => NoDup (dict_keys m) -> NoDup (dict_keys m'))).
  - auto.
  - auto.
  - intros m w gl ans _ H. now apply (dict_set_NoDup _ str_eqb_eq).
Qed.

Lemma after_quizzes_invariant
    (sessions : list (list (str * str) * list reply)) :
  wf_memory (after_quizzes sessions []) /\
  NoDup (dict_keys (after_quizzes sessions [])).
Proof.
  unfold after_quizzes.
  assert (H : wf_memory [] /\ NoDup (dict_keys (@nil (str * stats))))
    by (split; constructor).
  revert H. generalize (@nil (str * stats)).
  induction sessions as [|[words inputs] sessions IH]; intros m Hm; simpl.
  - exact Hm.
  - apply IH. destruct Hm as [Hwf Hnd].
    split; [now apply after_quiz_wf|now apply after_quiz_distinct].
Qed.

(** X20.  The selector never fails on a memory the quiz built.  After any
    sessions from the empty memory, [select_words] raises no exception, no
    division by zero among them: in file mode it returns the vocabulary in
    some order, in memory mode the words of the memory that were asked and
    missed at least once. *)
Theorem selector_accepts_quiz_memory
    (sessions : list (list (str * str) * list reply)) :
  let memory := after_quizzes sessions [] in
  (forall vocab, vocab <> [] ->
     exists selected,
       select_words vocab memory None = Some selected /\
       Permutation selected vocab) /\
  (exists selected,
     select_words [] memory None = Some selected /\
     Permutation selected
       (List.map (fun kv => (fst kv, meaning_or_empty (snd kv)))
          (filter missed memory))).
Proof.
  cbv zeta. destruct (after_quizzes_invariant sessions) as [Hwf Hnd].
  split.
  - intros vocab Hne.
    destruct (file_items_spec vocab Hwf) as (items & E & Hmap & _).
    exists (List.map word_meaning (sort_desc float_lt rate_key items)).
    split.
    + unfold select_words. destruct vocab; [congruence|]. now rewrite E.
    + rewrite <- Hmap. apply Permutation_map, sort_desc_perm.
  - destruct (@memory_items_spec (after_quizzes sessions [])
                (after_quizzes sessions [])) as (items & E & Hmap & _).
    + eapply Forall_impl; [|exact Hwf]. intros kv [H _]. exact H.
    + intros w st. apply (In_dict_get _ str_eqb_eq _ _ _ Hnd).
    + exists (List.map word_meaning (sort_desc float_lt rate_key items)).
      split; [unfold select_words; now rewrite E|].
      rewrite <- Hmap. apply Permutation_map, sort_desc_perm.
Qed.

End Reachable.

(** ** The memory file *)

Section Reload.

Variable max_str_digits : nat.

(** A file [save_memory] wrote loads back to the memory saved. *)
Lemma save_then_load (memory : memory_t) (data : bytes) :
  NoDup (dict_keys memory) ->
  save_memory max_str_digits memory = Some data ->
  load_memory max_str_digits (Some data) = Some memory.
Proof.
  intros Hnd. unfold save_memory, load_memory.
  destruct (encode max_str_digits 0 (memory_to_json memory)) as [text|] eqn:E;
    [|discriminate].
  intros Ed. rewrite (utf8_encode_decode _ Ed).
  rewrite (@loads_encode max_str_digits (memory_to_json memory) text);
    [apply json_to_memory_inv|eexists; reflexivity
    |apply memory_to_json_depth|apply memory_to_json_ok, Hnd|exact E].
Qed.

Lemma parse_pairs_distinct (scan_value : str -> option (json * str))
    (fuel : nat) : forall rval s o rest,
  NoDup (dict_keys rval) ->
  parse_pairs scan_value fuel rval s = Some (o, rest) ->
  exists d, o = JDict d /\ NoDup (dict_keys d).
Proof.
  induction fuel as [|fuel IH]; intros rval s o rest Hnd; [discriminate|].
  cbn [parse_pairs]. destruct s as [|q r]; [discriminate|].
  destruct (q =? 0x22)%N; [|discriminate].
  destruct (scanstring r) as [[key s1]|]; [|discriminate].
  destruct (skip_ws s1) as [|colon s2]; [discriminate|].
  destruct (colon =? 0x3A)%N; [|discriminate].
  destruct (scan_value (skip_ws s2)) as [[value s3]|]; [|discriminate].
  assert (Hnd' : NoDup (dict_keys (dict_set str_eqb rval key value)))
    by now apply (dict_set_NoDup _ str_eqb_eq).
  destruct (skip_ws s3) as [|c s4]; [discriminate|].
  destruct (c =? 0x7D)%N.
  - intros [= <- <-]. eauto.
  - destruct (c =? 0x2C)%N; [|discriminate]. now apply IH.
Qed.

Lemma json_to_records_keys (d : dict str json) : forall memory,
  json_to_records d = Some memory -> dict_keys memory = dict_keys d.
Proof.
  induction d as [|[w o] d IH]; intros memory; cbn [json_to_records].
  - now intros [= <-].
  - destruct (json_to_stats o); [|discriminate].
    destruct (json_to_records d) as [m|]; [|discriminate].
    intros [= <-]. simpl. now rewrite (IH m eq_refl).
Qed.

End Reload.

Lemma match_number_int (max_str_digits : nat) (s : str) (o : json)
    (rest : str) :
  match_number max_str_digits s = Some (o, rest) -> exists z, o = JInt z.
Proof.
  unfold match_number.
  destruct (match s with
            | c :: r => if (c =? 0x2D)%N then (true, r) else (false, s)
            | [] => (false, s)
            end) as [negative s1].
  destruct (scan_integer s1) as [[d r]|]; [|discriminate].
  destruct (float_follows r); [discriminate|].
  destruct (too_long max_str_digits d); [discriminate|].
  intros [= <- _]. eauto.
Qed.

(** A memory read from a file lists no word twice. *)
Lemma load_memory_NoDup (max_str_digits : nat) (file : option bytes)
    (memory : memory_t) :
  load_memory max_str_digits file = Some memory -> NoDup (dict_keys memory).
Proof.
  unfold load_memory. destruct file as [data|];
    [|intros [= <-]; constructor].
  destruct (utf8_decode data) as [text|]; [|discriminate].
  destruct (loads max_str_digits text) as [o|] eqn:El; [|discriminate].
  destruct o as [z|x|d]; try discriminate. cbn [json_to_memory].
  intros Hrec. rewrite (json_to_records_keys _ Hrec). clear Hrec.
  unfold loads in El. destruct text as [|c0 text]; [discriminate|].
  destruct (c0 =? 0xFEFF)%N; [discriminate|].
  destruct (scan_once max_str_digits (S (length (c0 :: text)))
              (skip_ws (c0 :: text))) as [[o rest]|] eqn:Es; [|discriminate].
  destruct (skip_ws rest); [|discriminate]. injection El as ->.
  cbn [scan_once] in Es. destruct (skip_ws (c0 :: text)) as [|c r];
    [discriminate|].
  destruct (c =? 0x22)%N.
  { destruct (scanstring r) as [[x r']|]; discriminate. }
  destruct (c =? 0x7B)%N.
  - destruct (skip_ws r) as [|c' r'] eqn:Er; [discriminate|].
    destruct (c' =? 0x7D)%N.
    + injection Es as <- _. constructor.
    + apply parse_pairs_distinct in Es as (d' & [= <-] & Hd);
        [exact Hd|constructor].
  - apply match_number_int in Es as [z Ez]. discriminate.
Qed.

(** ** Runs of the quiz program *)

Section ProgramFacts.

Context {U : UnicodeData}.

Variable max_str_digits : nat.

Lemma quiz_loop_after (words : list (str * str)) (inputs : list reply)
    (memory : memory_t) :
  fst (fst (quiz_loop words inputs memory)) = after_quiz words inputs memory.
Proof. reflexivity. Qed.

(** When [quiz_and_save] or the handler writes the file, it holds the
    memory after the quiz. *)
Lemma quiz_and_save_written (words : list (str * str))
    (inputs : list reply) (memory : memory_t) :
  let '(outs, memory', file, how) :=
    quiz_and_save max_str_digits words inputs memory in
  memory' = after_quiz words inputs memory /\
  match file with
  | Written data =>
      save_memory max_str_digits memory' = Some data /\ how = MainReturned
  | Untouched => how <> MainReturned
  | Damaged => how = MainRaised
  end.
Proof.
  unfold quiz_and_save. pose proof (quiz_loop_after words inputs memory) as Ha.
  destruct (quiz_loop words inputs memory) as [[m2 outs] how].
  cbn [fst] in Ha. subst m2. destruct how.
  - destruct (save_memory max_str_digits _) eqn:Es; auto.
  - split; [reflexivity|discriminate].
  - split; [reflexivity|discriminate].
Qed.

(** How [main] gets to the quiz. *)
Lemma main_quiz_list (files : list (str * vocab_file))
    (inputs : list reply) (memory : memory_t) :
  match quiz_list files memory with
  | Some words =>
      exists warnings,
        main max_str_digits files inputs memory
        = let '(outs, memory', file, how) :=
            quiz_and_save max_str_digits words inputs memory in
          (warnings ++ outs, memory', file, how)
  | None =>
      exists outs how,
        main max_str_digits files inputs memory
        = (outs, memory, Untouched, how) /\ how <> MainInterrupted
  end.
Proof.
  unfold quiz_list, main. destruct files as [|file files].
  - destruct (select_words [] memory None) as [[|wm words]|].
    + exists [NoPastMisses], MainReturned. split; [reflexivity|discriminate].
    + exists []. destruct (quiz_and_save _ _ _ _) as [[[o m] f] h].
      reflexivity.
    + exists [], MainRaised. split; [reflexivity|discriminate].
  - destruct (load_vocab (file :: files)) as [[[|wm vocab]|] warnings].
    + exists (warnings ++ [NoValidEntries]), MainReturned.
      split; [reflexivity|discriminate].
    + destruct (select_words (wm :: vocab) memory None) as [words|].
      * exists warnings. reflexivity.
      * exists warnings, MainRaised. split; [reflexivity|discriminate].
    + exists warnings, MainRaised. split; [reflexivity|discriminate].
Qed.

(** X21.  A file the program writes is the memory after the quiz: for a
    memory loaded from the memory file, when a run writes the file, by the
    save at the end of [main] or by the one after Ctrl-C, the memory the
    next start loads from it is the memory of this run after the quiz on the
    words [main] selected, record for record and in the same order. *)
Theorem written_file_resumes (disk : option bytes)
    (files : list (str * vocab_file)) (inputs : list reply)
    (memory : memory_t) (outs : list quiz_output) (data : bytes)
    (e : ending) :
  load_memory max_str_digits disk = Some memory ->
  script max_str_digits files inputs memory = (outs, Written data, e) ->
  exists words,
    quiz_list files memory = Some words /\
    load_memory max_str_digits (Some data)
    = Some (after_quiz words inputs memory).
Proof.
  intros Hload Hrun. apply load_memory_NoDup in Hload.
  pose proof (main_quiz_list files inputs memory) as Hmain.
  unfold script in Hrun.
  destruct (quiz_list files memory) as [words|].
  - exists words. split; [reflexivity|]. destruct Hmain as [warnings Hmain].
    rewrite Hmain in Hrun.
    pose proof (quiz_and_save_written words inputs memory) as Hq.
    destruct (quiz_and_save max_str_digits words inputs memory)
      as [[[o m2] file] how].
    destruct Hq as [-> Hfile].
    apply save_then_load; [now apply after_quiz_distinct|].
    destruct how.
    + injection Hrun as _ -> _. apply Hfile.
    + destruct (save_memory max_str_digits _); [|discriminate].
      now injection Hrun as _ -> _.
    + injection Hrun as _ -> _. destruct Hfile as [_ ?]; discriminate.
  - destruct Hmain as (o & how & Hmain & Hhow). rewrite Hmain in Hrun.
    destruct how; [discriminate|congruence|discriminate].
Qed.

Lemma main_no_quiz (files : list (str * vocab_file))
    (inputs inputs' : list reply) (memory : memory_t) :
  quiz_list files memory = None ->
  main max_str_digits files inputs memory
  = main max_str_digits files inputs' memory.
Proof.
  unfold quiz_list, main. destruct files as [|file files].
  - destruct (select_words [] memory None) as [[|wm words]|];
      [reflexivity|discriminate|reflexivity].
  - destruct (load_vocab (file :: files)) as [[[|wm vocab]|] warnings];
      [reflexivity| |reflexivity].
    destruct (select_words (wm :: vocab) memory None);
      [discriminate|reflexivity].
Qed.

Lemma main_quiz (files : list (str * vocab_file)) (memory : memory_t)
    (words : list (str * str)) :
  quiz_list files memory = Some words ->
  exists warnings, forall inputs,
    main max_str_digits files inputs memory
    = let '(outs, memory', file, how) :=
        quiz_and_save max_str_digits words inputs memory in
      (warnings ++ outs, memory', file, how).
Proof.
  unfold quiz_list, main. destruct files as [|file files].
  - destruct (select_words [] memory None) as [[|wm ws]|]; try discriminate.
    intros [= <-]. exists []. intros ins.
    destruct (quiz_and_save _ _ _ _) as [[[o m] f] h]. reflexivity.
  - destruct (load_vocab (file :: files)) as [[[|wm vocab]|] warnings];
      try discriminate.
    intros ->. exists warnings. reflexivity.
Qed.

(** Quitting and pressing Ctrl-C at the same prompt leave the same memory
    and the same output of the loop. *)
Lemma quiz_words_quit_or_interrupt (words : list (str * str)) :
  forall (pre : list reply) (memory : memory_t) (s : str)
         (more more' : list reply),
  is_quit (strip s) = true ->
  let '(m1, o1, h1) := quiz_words words (pre ++ Line s :: more) memory in
  let '(m2, o2, h2) :=
    quiz_words words (pre ++ Interrupt :: more') memory in
  m1 = m2 /\ o1 = o2 /\
  (h1 = h2 /\ h1 <> EOFError \/ h1 = Returned /\ h2 = KeyboardInterrupt).
Proof.
  induction words as [|[w m] words IH]; intros pre memory s more more' Hq.
  - simpl. repeat split. left. split; [reflexivity|discriminate].
  - destruct pre as [|[s0|] pre].
    + cbn [app]. rewrite quiz_words_quit by exact Hq. simpl. auto.
    + cbn [app]. destruct (is_quit (strip s0)) eqn:E0.
      * rewrite !quiz_words_quit by exact E0. repeat split.
        left. split; [reflexivity|discriminate].
      * rewrite !quiz_words_answer by exact E0. cbv zeta.
        specialize (IH pre
          (mem_set memory w
             (scored (record_for memory w m) (str_eqb (strip s0) w)))
          s more more' Hq).
        destruct (quiz_words words (pre ++ Line s :: more) _)
          as [[m1 o1] h1].
        destruct (quiz_words words (pre ++ Interrupt :: more') _)
          as [[m2 o2] h2].
        destruct IH as (-> & -> & H). auto.
    + simpl. repeat split. left. split; [reflexivity|discriminate].
Qed.

(** X22.  The quit command and Ctrl-C save alike: with the same replies
    before it, a run in which the learner types [q] at a prompt and a run
    in which the learner presses Ctrl-C there leave the memory file in the
    same state, and one ends with a traceback exactly when the other
    does. *)
Theorem quit_and_interrupt_save_alike (files : list (str * vocab_file))
    (pre : list reply) (s : str) (more more' : list reply)
    (memory : memory_t) :
  is_quit (strip s) = true ->
  let '(outs1, file1, end1) :=
    script max_str_digits files (pre ++ Line s :: more) memory in
  let '(outs2, file2, end2) :=
    script max_str_digits files (pre ++ Interrupt :: more') memory in
  file1 = file2 /\ (end1 = Traceback <-> end2 = Traceback).
Proof.
  intros Hq. unfold script.
  destruct (quiz_list files memory) as [words|] eqn:El.
  - destruct (@main_quiz files memory words El) as [warnings Hmain].
    rewrite !Hmain. unfold quiz_and_save, quiz_loop.
    pose proof (quiz_words_quit_or_interrupt words pre memory s more more' Hq)
      as H.
    destruct (quiz_words words (pre ++ Line s :: more) memory)
      as [[m1 o1] h1].
    destruct (quiz_words words (pre ++ Interrupt :: more') memory)
      as [[m2 o2] h2].
    destruct H as (-> & -> & [[-> Hh]|[-> ->]]).
    + destruct h2; [| |congruence];
        destruct (save_memory max_str_digits m2); split; tauto.
    + destruct (save_memory max_str_digits m2); split; try tauto;
        split; discriminate.
  - rewrite (@main_no_quiz files (pre ++ Line s :: more)
               (pre ++ Interrupt :: more') memory El).
    destruct (main max_str_digits files _ memory) as [[[o m] f] h].
    destruct h; [split; tauto| |split; tauto].
    destruct (save_memory max_str_digits m); split; tauto.
Qed.



End ProgramFacts.

Lemma memory_items_none (records : memory_t) :
  filter missed records = [] -> memory_items records = Some [].
Proof.
  induction records as [|[w st] records IH]; [reflexivity|].
  cbn [filter memory_items]. unfold missed at 1. cbn [snd].
  destruct ((0 <? asked st) && (correct st <? asked st))%Z;
    [discriminate|exact IH].
Qed.

Section NothingToAsk.

Context {U : UnicodeData}.

Variable max_str_digits : nat.

(** X24.  With nothing to ask, nothing is asked and nothing is written.
    When files are named and none of their lines defines a word, the files
    that are absent included, the run warns of each absent file, says that
    no valid entry was found and ends, whatever the memory holds: it does
    not fall back to the words missed before.  When no file is named and no
    record has a miss outstanding, the run says so and ends.  Either way the
    memory file is left as it was. *)
Theorem nothing_to_ask (inputs : list reply) (memory : memory_t) :
  (forall files,
     files <> [] -> readable files -> vocab_entries files = [] ->
     script max_str_digits files inputs memory
     = (List.map Warning (missing_names files) ++ [NoValidEntries],
        Untouched, Finished)) /\
  (filter missed memory = [] ->
   script max_str_digits [] inputs memory
   = ([NoPastMisses], Untouched, Finished)).
Proof.
  split.
  - intros files Hne Hr Hnone. unfold script, main.
    destruct files as [|file files]; [congruence|].
    unfold load_vocab. rewrite (load_vocab_into_spec [] Hr), Hnone.
    reflexivity.
  - intros Hnone. unfold script, main, select_words.
    rewrite (memory_items_none _ Hnone). reflexivity.
Qed.

End NothingToAsk.

Lemma nothing_to_ask_witness :
  let files := [(u "selik.txt", Missing); (u "notes.txt", Lines [u "ora"])] in
  let memory := [(u "ora", mkStats 3 1 (Some (u "走")))] in
  (files <> [] /\ readable files /\ vocab_entries files = []) /\
  script 4300 files [Line (u "ora")] memory
  = ([Warning (u "selik.txt"); NoValidEntries], Untouched, Finished).
Proof.
  intros files memory.
  assert (H1 : files <> []) by discriminate.
  assert (H2 : readable files) by (repeat constructor; discriminate).
  assert (H3 : vocab_entries files = []) by reflexivity.
  split; [repeat split; assumption|].
  exact (proj1 (@nothing_to_ask BasicLatin 4300 [Line (u "ora")] memory)
           files H1 H2 H3).
Defined.

Lemma written_file_resumes_witness :
  let files := [(u "selik.txt", Lines [u "1. ora 走"; u "2. pelan 慢"])] in
  let inputs := [Line (u "ora"); Line (u "q")] in
  load_memory 4300 None = Some [] /\
  exists outs data e words,
    script 4300 files inputs [] = (outs, Written data, e) /\
    quiz_list files [] = Some words /\
    load_memory 4300 (Some data) = Some (after_quiz words inputs []).
Proof.
  intros files inputs. split; [reflexivity|].
  destruct (script 4300 files inputs []) as [[outs file] e] eqn:Hrun.
  assert (Hfile : exists data, file = Written data).
  { vm_compute in Hrun. injection Hrun as _ <- _. eexists. reflexivity. }
  destruct Hfile as [data ->].
  destruct (@written_file_resumes BasicLatin 4300 None files inputs []
              outs data e eq_refl Hrun) as (words & Hl & Hload).
  exists outs, data, e, words. auto.
Defined.

Lemma quit_and_interrupt_save_alike_witness :
  let files := [(u "selik.txt", Lines [u "1. ora 走"; u "2. pelan 慢"])] in
  is_quit (strip (u " Q ")) = true /\
  let '(outs1, file1, end1) :=
    script 4300 files ([Line (u "ora")] ++ Line (u " Q ") :: []) [] in
  let '(outs2, file2, end2) :=
    script 4300 files ([Line (u "ora")] ++ Interrupt :: []) [] in
  file1 = file2 /\ (end1 = Traceback <-> end2 = Traceback).
Proof.
  intros files. split; [reflexivity|].
  apply (@quit_and_interrupt_save_alike BasicLatin 4300 files
           [Line (u "ora")] (u " Q ") [] [] []).
  reflexivity.
Defined.

